(** * Ticket sequencing and next-ticket dispatch of the queue server

    A shallow embedding of the ticket routes of the queue-management
    backend (the ticket router, in src/routes/announcements.js): ticket
    creation with its per
    (service, branch, date) sequence counter, the status patch, the
    call-next dispatcher and the soft delete; the read of one ticket, and
    the text of the list queries.

    Handlers are written as programs over the calls they await, in the
    order the source makes them: taking a connection from the pool, the
    SQL statements, the emits, giving the connection back.  A statement is
    executed against a world made of the committed tables, the row locks
    and the free connections of the pool; a connection inside a
    transaction keeps its own pending writes until COMMIT.  One semantics
    of statements serves both the run of a single request and the
    interleaved run of several requests. *)

From Stdlib Require Import ZArith String Ascii.
From stdpp Require Import gmap strings list pretty.

Local Open Scope string_scope.

(** ** JavaScript values used by the handlers *)

Module JS.

(** Truthiness of a request field that is either absent (undefined or
    null) or a string: only a non-empty string is truthy. *)
Definition truthy (v : option string) : bool :=
  match v with
  | Some s => negb (String.eqb s "")
  | None => false
  end.

(** [v || d] for a string-or-absent value and a string default. *)
Definition or_default (v : option string) (d : string) : string :=
  match v with
  | Some s => if String.eqb s "" then d else s
  | None => d
  end.

(** [v || null]. *)
Definition or_null (v : option string) : option string :=
  if truthy v then v else None.

(** A field of a request body that holds a number: absent, null, or the
    number. *)
Inductive field (A : Type) :=
| Undefined
| Null
| Given (a : A).
Arguments Undefined {A}.
Arguments Null {A}.
Arguments Given {A} a.

(** A destructuring default [field = d]: it replaces undefined only; null
    stays, and is NULL once bound to a statement. *)
Definition defaulted {A : Type} (d : A) (v : field A) : option A :=
  match v with
  | Undefined => Some d
  | Null => None
  | Given a => Some a
  end.

(** [String(n)] for a non-negative integer: its decimal digits. *)
Definition String_ (n : nat) : string := pretty n.

Fixpoint repeat_string (k : nat) (pad : string) : string :=
  match k with
  | O => ""
  | S k' => pad +:+ repeat_string k' pad
  end.

(** [s.padStart(target, pad)]: the string itself when it is already
    [target] long or the pad is empty, else the pad repeated and cut to
    the missing length, then the string. *)
Definition padStart (target : nat) (pad : string) (s : string) : string :=
  let len := String.length s in
  if (target <=? len)%nat then s
  else if String.eqb pad "" then s
  else
    let missing := (target - len)%nat in
    String.substring 0 missing (repeat_string missing pad) +:+ s.

End JS.

(** ** Rows and tables *)

Record service_row := {
  svc_name : option string;
  svc_prefix : option string
}.

Record counter_row := {
  ctr_name : option string;
  ctr_branch_id : option string
}.

Record branch_row := {
  br_name : option string
}.

(** A row of [tickets] without its primary key [id], which is the key of
    the table. *)
Record ticket := {
  ticket_number : string;
  service_id : string;
  branch_id : string;
  priority_level : option Z;
  customer_name : option string;
  customer_phone : option string;
  notes : option string;
  issued_by : option string;
  status : string;
  counter_id : option string;
  served_by : option string;
  created_at : Z;
  called_at : option Z;
  started_at : option Z;
  ended_at : option Z
}.

(** Key of [ticket_sequences]: (service_id, branch_id, date). *)
Abbreviation seq_key := (string * string * string)%type.

(** Modelled from the spec: the schema is not among the sources.  The
    tables are keyed as the statements of the handlers use them:
    [ticket_sequences] has one row per (service_id, branch_id, date), the
    unique key that ON DUPLICATE KEY relies on, and its [current_number]
    is an integer column, which the driver hands over as a number.  Of a
    ticket, [service_id] and [branch_id] are foreign references, enforced
    when the row is inserted (spec, sections 3 and 4.2); [priority_level]
    is an integer that may be NULL; the other columns that may be NULL are
    the optional ones of the record. *)
Record db := {
  services : gmap string service_row;
  counters : gmap string counter_row;
  branches : gmap string branch_row;
  ticket_sequences : gmap seq_key nat;
  tickets : gmap string ticket
}.

(** The row of the joined SELECT used for responses: [t.*] with the
    display names of its service, counter and branch. *)
Record joined := {
  j_id : string;
  j_row : ticket;
  service_name : option string;
  service_prefix : option string;
  counter_name : option string;
  branch_name : option string
}.

(** The ticket object sent back by call-next: the joined row with the
    nested service, counter and branch objects. *)
Record ticket_json := {
  raw : joined;
  service : option (string * option string);
  counter : option string;
  branch : option string
}.

Definition transform (r : joined) : ticket_json :=
  {| raw := r;
     service := if JS.truthy (service_name r)
                then Some (default "" (service_name r), service_prefix r)
                else None;
     counter := if JS.truthy (counter_name r) then counter_name r else None;
     branch := if JS.truthy (branch_name r) then branch_name r else None |}.

(** ** Writes

    What an INSERT or UPDATE of the ticket routes does to the tables.  A
    write is data, so that a transaction can hold it back until COMMIT. *)

(** One [column = value] of the UPDATE built by the status patch. *)
Inductive assignment :=
| SetStatus (s : string)
| SetStartedNow
| SetEndedNow
| SetServedBy (u : string)
| SetCounter (c : string)
| SetNotes (n : string).

Definition assign (now : Z) (a : assignment) (t : ticket) : ticket :=
  match a with
  | SetStatus s =>
      {| ticket_number := ticket_number t; service_id := service_id t;
         branch_id := branch_id t; priority_level := priority_level t;
         customer_name := customer_name t; customer_phone := customer_phone t;
         notes := notes t; issued_by := issued_by t;
         status := s;
         counter_id := counter_id t; served_by := served_by t;
         created_at := created_at t; called_at := called_at t;
         started_at := started_at t; ended_at := ended_at t |}
  | SetStartedNow =>
      {| ticket_number := ticket_number t; service_id := service_id t;
         branch_id := branch_id t; priority_level := priority_level t;
         customer_name := customer_name t; customer_phone := customer_phone t;
         notes := notes t; issued_by := issued_by t;
         status := status t;
         counter_id := counter_id t; served_by := served_by t;
         created_at := created_at t; called_at := called_at t;
         started_at := Some now; ended_at := ended_at t |}
  | SetEndedNow =>
      {| ticket_number := ticket_number t; service_id := service_id t;
         branch_id := branch_id t; priority_level := priority_level t;
         customer_name := customer_name t; customer_phone := customer_phone t;
         notes := notes t; issued_by := issued_by t;
         status := status t;
         counter_id := counter_id t; served_by := served_by t;
         created_at := created_at t; called_at := called_at t;
         started_at := started_at t; ended_at := Some now |}
  | SetServedBy u =>
      {| ticket_number := ticket_number t; service_id := service_id t;
         branch_id := branch_id t; priority_level := priority_level t;
         customer_name := customer_name t; customer_phone := customer_phone t;
         notes := notes t; issued_by := issued_by t;
         status := status t;
         counter_id := counter_id t; served_by := Some u;
         created_at := created_at t; called_at := called_at t;
         started_at := started_at t; ended_at := ended_at t |}
  | SetCounter c =>
      {| ticket_number := ticket_number t; service_id := service_id t;
         branch_id := branch_id t; priority_level := priority_level t;
         customer_name := customer_name t; customer_phone := customer_phone t;
         notes := notes t; issued_by := issued_by t;
         status := status t;
         counter_id := Some c; served_by := served_by t;
         created_at := created_at t; called_at := called_at t;
         started_at := started_at t; ended_at := ended_at t |}
  | SetNotes n =>
      {| ticket_number := ticket_number t; service_id := service_id t;
         branch_id := branch_id t; priority_level := priority_level t;
         customer_name := customer_name t; customer_phone := customer_phone t;
         notes := Some n; issued_by := issued_by t;
         status := status t;
         counter_id := counter_id t; served_by := served_by t;
         created_at := created_at t; called_at := called_at t;
         started_at := started_at t; ended_at := ended_at t |}
  end.

(** [SET status = 'serving', counter_id = ?, called_at = ?, started_at = ?]. *)
Definition serve (cid : string) (now : Z) (t : ticket) : ticket :=
  {| ticket_number := ticket_number t; service_id := service_id t;
     branch_id := branch_id t; priority_level := priority_level t;
     customer_name := customer_name t; customer_phone := customer_phone t;
     notes := notes t; issued_by := issued_by t;
     status := "serving";
     counter_id := Some cid; served_by := served_by t;
     created_at := created_at t; called_at := Some now;
     started_at := Some now; ended_at := ended_at t |}.

(** [SET status = 'cancelled', ended_at = NOW()]. *)
Definition cancel (now : Z) (t : ticket) : ticket :=
  assign now SetEndedNow (assign now (SetStatus "cancelled") t).

Inductive write :=
| WUpsertSequence (k : seq_key)
| WUpdateSequence (n : nat) (k : seq_key)
| WInsertTicket (id : string) (t : ticket)
| WUpdateServing (cid : string) (now : Z) (id : string)
| WUpdateSet (now : Z) (sets : list assignment) (id : string)
| WUpdateCancelled (now : Z) (id : string).

Definition with_sequences (f : gmap seq_key nat → gmap seq_key nat) (d : db) : db :=
  {| services := services d; counters := counters d; branches := branches d;
     ticket_sequences := f (ticket_sequences d); tickets := tickets d |}.

Definition with_tickets (f : gmap string ticket → gmap string ticket) (d : db) : db :=
  {| services := services d; counters := counters d; branches := branches d;
     ticket_sequences := ticket_sequences d; tickets := f (tickets d) |}.

Definition apply_write (wr : write) (d : db) : db :=
  match wr with
  | WUpsertSequence k =>
      (* INSERT ... VALUES (?, ?, 0, ?)
         ON DUPLICATE KEY UPDATE current_number = current_number *)
      with_sequences (λ m, match m !! k with
                           | Some _ => m
                           | None => <[k := 0%nat]> m
                           end) d
  | WUpdateSequence n k =>
      with_sequences (alter (λ _, n) k) d
  | WInsertTicket id t =>
      with_tickets (<[id := t]>) d
  | WUpdateServing cid now id =>
      with_tickets (alter (serve cid now) id) d
  | WUpdateSet now sets id =>
      with_tickets (alter (λ t, foldl (λ t a, assign now a t) t sets) id) d
  | WUpdateCancelled now id =>
      with_tickets (alter (cancel now) id) d
  end.

(** The foreign keys of a ticket row: its service and its branch have a
    row. *)
Definition references (sv : gmap string service_row)
    (br : gmap string branch_row) (service_id branch_id : string) : bool :=
  bool_decide (is_Some (sv !! service_id))
  && bool_decide (is_Some (br !! branch_id)).
Arguments references : simpl never.

(** ** The dispatcher's SELECT

    [WHERE status = 'waiting'
       AND branch_id = (SELECT branch_id FROM counters WHERE id = ?)
       [AND service_id = ?]
     ORDER BY priority_level DESC, created_at ASC LIMIT 1]. *)

(** The scalar subquery: NULL when no counter has that id. *)
Definition counter_branch (d : db) (cid : string) : option string :=
  counters d !! cid ≫= ctr_branch_id.

(** The WHERE clause.  A comparison with NULL is not true, so no row
    matches when the subquery yields NULL.  The service condition is part
    of the statement only when the request's [service_id] is truthy. *)
Definition matches (b : option string) (sid : option string) (t : ticket) : bool :=
  String.eqb (status t) "waiting"
  && match b with
     | Some b' => String.eqb (branch_id t) b'
     | None => false
     end
  && (if JS.truthy sid then String.eqb (service_id t) (default "" sid) else true).

(** The order of an integer column: NULL sorts below every number. *)
Definition lower (p q : option Z) : bool :=
  match p, q with
  | None, Some _ => true
  | Some x, Some y => (x <? y)%Z
  | _, None => false
  end.

(** The order of the priorities as pairs of integers. *)
Definition rank (p : option Z) : Z * Z :=
  match p with
  | None => (0, 0)%Z
  | Some x => (1, x)%Z
  end.

(** [t1] sorts strictly before [t2]. *)
Definition before (t1 t2 : ticket) : bool :=
  lower (priority_level t2) (priority_level t1)
  || (bool_decide (priority_level t1 = priority_level t2)
      && (created_at t1 <? created_at t2)%Z).

(** LIMIT 1 over the sorted rows: the first row, in the engine's scan
    order, that no other matching row sorts strictly before. *)
Definition pick (best : option (string * ticket)) (row : string * ticket)
  : option (string * ticket) :=
  match best with
  | None => Some row
  | Some b => if before row.2 b.2 then Some row else Some b
  end.

Definition select_next (d : db) (cid : string) (sid : option string)
  : option string :=
  fst <$> foldl pick None
            (filter (λ row, matches (counter_branch d cid) sid row.2 = true)
                    (map_to_list (tickets d))).

(** The joined SELECT [t.*, s.name, s.prefix, c.name, b.name ... WHERE t.id = ?]. *)
Definition join (d : db) (id : string) (t : ticket) : joined :=
  {| j_id := id;
     j_row := t;
     service_name := services d !! service_id t ≫= svc_name;
     service_prefix := services d !! service_id t ≫= svc_prefix;
     counter_name := c ← counter_id t; r ← counters d !! c; ctr_name r;
     branch_name := branches d !! branch_id t ≫= br_name |}.

(** ** Statements and handler programs *)

(** The ticket object a handler hands to an emitter: the row of the
    joined SELECT, or that row with the nested objects of call-next. *)
Inductive ticket_object :=
| Plain (j : joined)
| Nested (tj : ticket_json).

(** [ticket.x] for a column of the row: the nested object spreads the
    row. *)
Definition row_of_object (o : ticket_object) : joined :=
  match o with
  | Plain j => j
  | Nested tj => raw tj
  end.

(** What [io.to(room).emit(name, data)] sends.  The called event carries
    the ticket number and the counter name (and the time of the emit,
    which is left out). *)
Inductive payload :=
| Whole (t : ticket_object)
| Announced (ticket_number : string) (counter_name : option string)
| Removed (id : string).

Record event := {
  room : string;
  name : string;
  data : payload
}.

(** Which connection carries a statement: the handler's own connection
    ([connection.execute]) or any connection of the pool ([query]). *)
Inductive via := OnConn | OnPool.

Inductive stmt : Type → Type :=
| GetConnection : stmt unit
| BeginTransaction : stmt unit
| Commit : stmt unit
| Rollback : stmt unit
| Release : stmt unit
| SelectServicePrefix (sid : string) : stmt (list (option string))
| UpsertSequence (k : seq_key) : stmt unit
| SelectSequenceForUpdate (k : seq_key) : stmt (list nat)
| UpdateSequence (n : nat) (k : seq_key) : stmt unit
| InsertTicket (id : string) (t : ticket) : stmt unit
| SelectTicketJoined (v : via) (id : string) : stmt (list joined)
| SelectNextForUpdate (cid : string) (sid : option string) : stmt (list string)
| UpdateServing (cid : string) (now : Z) (id : string) : stmt unit
| UpdateSet (now : Z) (sets : list assignment) (id : string) : stmt unit
| SelectTicketBranch (id : string) : stmt (list string)
| UpdateCancelled (now : Z) (id : string) : stmt unit
| Emit (e : event) : stmt unit.

(** A statement either answers or throws. *)
Inductive outcome (A : Type) :=
| Ok (a : A)
| Failed.
Arguments Ok {A} a.
Arguments Failed {A}.

(** A handler body: it returns, it is throwing, or it sends a statement
    and continues with the statement's outcome. *)
Inductive prog (R : Type) : Type :=
| Ret (r : R)
| Throw
| Exec {A : Type} (s : stmt A) (k : outcome A → prog R).
Arguments Ret {R} r.
Arguments Throw {R}.
Arguments Exec {R A} s k.

Fixpoint bind {R S : Type} (p : prog R) (f : R → prog S) : prog S :=
  match p with
  | Ret r => f r
  | Throw => Throw
  | Exec s k => Exec s (λ o, bind (k o) f)
  end.

(** [await connection.execute(...)]: a failed statement throws. *)
Definition exec {A : Type} (s : stmt A) : prog A :=
  Exec s (λ o, match o with Ok a => Ret a | Failed => Throw end).

(** [try { p } catch (error) { h }]. *)
Fixpoint try_catch {R : Type} (p : prog R) (h : prog R) : prog R :=
  match p with
  | Ret r => Ret r
  | Throw => h
  | Exec s k => Exec s (λ o, try_catch (k o) h)
  end.

(** [try { p } finally { f }]. *)
Fixpoint finally {R : Type} (p : prog R) (f : prog unit) : prog R :=
  match p with
  | Ret r => bind f (λ _, Ret r)
  | Throw => bind f (λ _, Throw)
  | Exec s k => Exec s (λ o, finally (k o) f)
  end.

(** The handlers are written with stdpp's notations for [bind]:
    [x ← p; q] and [p;; q]. *)
Global Instance prog_bind : MBind prog := λ _ _ f p, bind p f.
Global Instance prog_ret : MRet prog := λ _ r, Ret r.

(** [query] of config/database: [pool.execute] takes a connection of the
    pool, waiting for one when none is free, runs the statement on it
    outside any transaction, and gives the connection back when the
    statement has ended, with its rows or with an error. *)
Definition query {A : Type} (s : stmt A) : prog A :=
  exec GetConnection;; exec s.

(** The statements that [query] runs: they end by giving their
    connection back to the pool. *)
Definition pooled {A : Type} (s : stmt A) : bool :=
  match s with
  | SelectTicketJoined OnPool _ => true
  | UpdateSet _ _ _ => true
  | SelectTicketBranch _ => true
  | UpdateCancelled _ _ => true
  | _ => false
  end.

(** ** The emitters

    [emitTicketCreated], [emitTicketUpdated], [emitTicketCalled] and
    [emitTicketDeleted] of the Socket.IO handler (the second document of
    src/routes/users.js).  The first three read [ticket.branch_id] for
    the room, so they throw when they are handed no ticket. *)

(** [`branch:${ticket.branch_id}`] *)
Definition branch_room (t : ticket_object) : string :=
  "branch:" +:+ branch_id (j_row (row_of_object t)).

Definition ticket_created (t : ticket_object) : event :=
  {| room := branch_room t; name := "ticket:created"; data := Whole t |}.

Definition ticket_updated (t : ticket_object) : event :=
  {| room := branch_room t; name := "ticket:updated"; data := Whole t |}.

Definition ticket_called (t : ticket_object) : event :=
  {| room := branch_room t;
     name := "ticket:called";
     data := Announced (ticket_number (j_row (row_of_object t)))
               (counter_name (row_of_object t)) |}.

Definition ticket_deleted (ticketId branchId : string) : event :=
  {| room := "branch:" +:+ branchId;
     name := "ticket:deleted";
     data := Removed ticketId |}.

Definition emitTicketCreated (ticket : option ticket_object) : prog unit :=
  match ticket with
  | None => Throw
  | Some t => exec (Emit (ticket_created t))
  end.

Definition emitTicketUpdated (ticket : option ticket_object) : prog unit :=
  match ticket with
  | None => Throw
  | Some t => exec (Emit (ticket_updated t))
  end.

Definition emitTicketCalled (ticket : option ticket_object) : prog unit :=
  match ticket with
  | None => Throw
  | Some t => exec (Emit (ticket_called t))
  end.

Definition emitTicketDeleted (ticketId branchId : string) : prog unit :=
  exec (Emit (ticket_deleted ticketId branchId)).

(** ** The storage engine and the pool

    The committed tables, the exclusive row locks with the transaction
    that holds each, the number of connections of the pool that nobody
    has taken, and the log of emitted events.  The engine is the database
    server the handlers talk to; its contract here is the one the spec
    asks of the store: row locks that block other transactions and are
    kept until COMMIT or ROLLBACK. *)

(** [connectionLimit] of the pool in config/database; the pool is made
    with [waitForConnections: true] and no limit on the queue. *)
Definition connectionLimit : nat := 10.

Inductive resource :=
| SequenceRow (k : seq_key)
| TicketRow (id : string).

Record world := {
  store : db;
  seq_locks : gmap seq_key nat;
  ticket_locks : gmap string nat;
  free : nat;
  emitted : list event
}.

(** A connection: whether a transaction is open on it, and the writes of
    that transaction, newest first. *)
Record conn := {
  in_txn : bool;
  pending : list write
}.

Definition idle : conn := {| in_txn := false; pending := [] |}.

(** What the connection reads: the committed tables under its own
    uncommitted writes. *)
Definition view (c : conn) (w : world) : db :=
  foldr apply_write (store w) (pending c).

Definition holder (w : world) (r : resource) : option nat :=
  match r with
  | SequenceRow k => seq_locks w !! k
  | TicketRow id => ticket_locks w !! id
  end.

(** Transaction [t] may take the lock: nobody holds it, or [t] does. *)
Definition lockable (t : nat) (w : world) (r : resource) : bool :=
  match holder w r with
  | None => true
  | Some t' => Nat.eqb t' t
  end.

Definition lock (t : nat) (r : resource) (w : world) : world :=
  match r with
  | SequenceRow k =>
      {| store := store w; seq_locks := <[k := t]> (seq_locks w);
         ticket_locks := ticket_locks w; free := free w;
         emitted := emitted w |}
  | TicketRow id =>
      {| store := store w; seq_locks := seq_locks w;
         ticket_locks := <[id := t]> (ticket_locks w); free := free w;
         emitted := emitted w |}
  end.

Definition unlock_all (t : nat) (w : world) : world :=
  {| store := store w;
     seq_locks := filter (λ kv, kv.2 ≠ t) (seq_locks w);
     ticket_locks := filter (λ kv, kv.2 ≠ t) (ticket_locks w);
     free := free w;
     emitted := emitted w |}.

Definition with_store (d : db) (w : world) : world :=
  {| store := d; seq_locks := seq_locks w;
     ticket_locks := ticket_locks w; free := free w; emitted := emitted w |}.

Definition with_free (n : nat) (w : world) : world :=
  {| store := store w; seq_locks := seq_locks w;
     ticket_locks := ticket_locks w; free := n; emitted := emitted w |}.

(** A connection is taken from the pool: none is to be had ([None])
    while all are in use.  A connection is given back. *)
Definition acquired (w : world) : option world :=
  match free w with
  | O => None
  | S n => Some (with_free n w)
  end.

Definition released (w : world) : world := with_free (S (free w)) w.

Definition log (e : event) (w : world) : world :=
  {| store := store w; seq_locks := seq_locks w;
     ticket_locks := ticket_locks w; free := free w;
     emitted := e :: emitted w |}.

(** A locking statement on row [r] by transaction [t]: it waits ([None])
    while another transaction holds the row.  Inside a transaction the
    lock is kept and the write is held back; in autocommit the write goes
    to the committed tables at once and no lock outlives the statement. *)
Definition locking {A : Type} (t : nat) (r : resource) (wr : option write)
    (a : A) (c : conn) (w : world) : option (outcome A * conn * world) :=
  if in_txn c then
    if lockable t w r then
      Some (Ok a,
            {| in_txn := true;
               pending := match wr with
                          | Some x => x :: pending c
                          | None => pending c
                          end |},
            lock t r w)
    else None
  else
    match holder w r with
    | Some _ => None
    | None =>
        Some (Ok a, c,
              match wr with
              | Some x => with_store (apply_write x (store w)) w
              | None => w
              end)
    end.

(** A statement of [query] has ended: its connection goes back to the
    pool. *)
Definition pool_done {A : Type} (r : option (outcome A * conn * world)) (c : conn)
  : option (outcome A * conn * world) :=
  r ≫= λ '(o, _, w'), Some (o, c, released w').

(** The connection a statement runs on: a [query] of the pool never
    belongs to the handler's transaction. *)
Definition on (v : via) (c : conn) : conn :=
  match v with
  | OnConn => c
  | OnPool => idle
  end.

Definition exec_stmt {A : Type} (t : nat) (s : stmt A) (c : conn) (w : world)
  : option (outcome A * conn * world) :=
  match s in stmt A return option (outcome A * conn * world) with
  | GetConnection =>
      match acquired w with
      | Some w' => Some (Ok (), c, w')
      | None => None
      end
  | BeginTransaction =>
      Some (Ok (), {| in_txn := true; pending := [] |}, w)
  | Commit =>
      Some (Ok (), idle, unlock_all t (with_store (view c w) w))
  | Rollback =>
      Some (Ok (), idle, unlock_all t w)
  | Release =>
      Some (Ok (), c, released w)
  | SelectServicePrefix sid =>
      Some (Ok match services (view c w) !! sid with
               | Some s => [svc_prefix s]
               | None => []
               end, c, w)
  | UpsertSequence k =>
      locking t (SequenceRow k) (Some (WUpsertSequence k)) () c w
  | SelectSequenceForUpdate k =>
      match ticket_sequences (view c w) !! k with
      | Some n => locking t (SequenceRow k) None [n] c w
      | None => Some (Ok [], c, w)
      end
  | UpdateSequence n k =>
      match ticket_sequences (view c w) !! k with
      | Some _ => locking t (SequenceRow k) (Some (WUpdateSequence n k)) () c w
      | None => Some (Ok (), c, w)
      end
  | InsertTicket id row =>
      if lockable t w (TicketRow id) then
        match tickets (view c w) !! id with
        | Some _ => Some (Failed, c, w)
        | None =>
            if references (services (view c w)) (branches (view c w))
                 (service_id row) (branch_id row)
            then locking t (TicketRow id) (Some (WInsertTicket id row)) () c w
            else Some (Failed, c, w)
        end
      else None
  | SelectTicketJoined v id =>
      let d := view (on v c) w in
      let rows := match tickets d !! id with
                  | Some row => [join d id row]
                  | None => []
                  end in
      match v with
      | OnConn => Some (Ok rows, c, w)
      | OnPool => pool_done (Some (Ok rows, idle, w)) c
      end
  | SelectNextForUpdate cid sid =>
      match select_next (view c w) cid sid with
      | Some id => locking t (TicketRow id) None [id] c w
      | None => Some (Ok [], c, w)
      end
  | UpdateServing cid now id =>
      match tickets (view c w) !! id with
      | Some _ => locking t (TicketRow id) (Some (WUpdateServing cid now id)) () c w
      | None => Some (Ok (), c, w)
      end
  | UpdateSet now sets id =>
      pool_done
        match tickets (store w) !! id with
        | Some _ => locking t (TicketRow id) (Some (WUpdateSet now sets id)) () idle w
        | None => Some (Ok (), idle, w)
        end c
  | SelectTicketBranch id =>
      pool_done
        (Some (Ok match tickets (store w) !! id with
                  | Some row => [branch_id row]
                  | None => []
                  end, idle, w)) c
  | UpdateCancelled now id =>
      pool_done
        match tickets (store w) !! id with
        | Some _ => locking t (TicketRow id) (Some (WUpdateCancelled now id)) () idle w
        | None => Some (Ok (), idle, w)
        end c
  | Emit e =>
      Some (Ok (), c, log e w)
  end.

(** ** Running a handler

    A request runs as a thread: the rest of its handler, its connection,
    and the faults that will be injected into it (one flag per call
    awaited, [true] for a call that fails without effect, but that a
    statement of [query] still gives its connection back; past the end of
    the list no fault is injected). *)

Definition attempt {A : Type} (t : nat) (s : stmt A) (c : conn)
    (fs : list bool) (w : world)
  : option (outcome A * conn * list bool * world) :=
  match fs with
  | true :: fs' => Some (Failed, c, fs', if pooled s then released w else w)
  | _ =>
      match exec_stmt t s c w with
      | Some (o, c', w') => Some (o, c', tail fs, w')
      | None => None
      end
  end.

Record thread (R : Type) := {
  code : prog R;
  connection : conn;
  faults : list bool
}.
Arguments code {R} _.
Arguments connection {R} _.
Arguments faults {R} _.

(** One statement of thread [t]; [None] when the thread has ended or
    waits, for a lock or for a connection. *)
Definition step_thread {R : Type} (t : nat) (th : thread R) (w : world)
  : option (thread R * world) :=
  match code th with
  | Ret _ => None
  | Throw => None
  | Exec s k =>
      match attempt t s (connection th) (faults th) w with
      | Some (o, c', fs', w') =>
          Some ({| code := k o; connection := c'; faults := fs' |}, w')
      | None => None
      end
  end.

(** How a run of one thread alone ends: with a response, with an
    exception nobody caught ([Finished None]), or waiting for a lock or
    for a connection. *)
Inductive ending (R : Type) :=
| Finished (r : option R) (c : conn) (w : world)
| Waiting.
Arguments Finished {R} r c w.
Arguments Waiting {R}.

Fixpoint run {R : Type} (t : nat) (p : prog R) (c : conn) (fs : list bool)
    (w : world) : ending R :=
  match p with
  | Ret r => Finished (Some r) c w
  | Throw => Finished None c w
  | Exec s k =>
      match attempt t s c fs w with
      | Some (o, c', fs', w') => run t (k o) c' fs' w'
      | None => Waiting
      end
  end.

(** ** The handlers of the ticket routes *)

Inductive body :=
| Error (msg : string)
| Ticket (t : option joined)
| Called (t : ticket_json)
| NoTicket (message : string)
| Success.

Record response := {
  http : nat;
  json : body
}.

(** Body of POST /tickets, with [req.user?.id]. *)
Record create_request := {
  req_service_id : option string;
  req_branch_id : option string;
  req_priority_level : JS.field Z;
  req_customer_name : option string;
  req_customer_phone : option string;
  req_notes : option string;
  req_user : option string
}.

(** [`${prefix}-${String(currentNumber).padStart(3, '0')}`] *)
Definition ticketNumber (prefix : string) (currentNumber : nat) : string :=
  prefix +:+ "-" +:+ JS.padStart 3 "0" (JS.String_ currentNumber).

(** The VALUES of the INSERT INTO tickets; the columns it does not list
    take their defaults. *)
Definition values (req : create_request) (ticketNumber : string)
    (service_id branch_id : string) (now : Z) : ticket :=
  {| ticket_number := ticketNumber;
     service_id := service_id;
     branch_id := branch_id;
     priority_level := JS.defaulted 0%Z (req_priority_level req);
     customer_name := JS.or_null (req_customer_name req);
     customer_phone := JS.or_null (req_customer_phone req);
     notes := JS.or_null (req_notes req);
     issued_by := JS.or_null (req_user req);
     status := "waiting";
     counter_id := None;
     served_by := None;
     created_at := now;
     called_at := None;
     started_at := None;
     ended_at := None |}.

(** POST /tickets.  [today] is the UTC date of the request, [ticketId]
    the fresh uuid and [now] the engine's clock at the insert (the default
    of [created_at]). *)
Definition post_ticket (req : create_request) (today : string)
    (ticketId : string) (now : Z) : prog response :=
  exec GetConnection;;
  finally
    (try_catch
       (if negb (JS.truthy (req_service_id req))
           || negb (JS.truthy (req_branch_id req))
        then Ret {| http := 400;
                    json := Error "service_id and branch_id are required" |}
        else
          let service_id := default "" (req_service_id req) in
          let branch_id := default "" (req_branch_id req) in
          exec BeginTransaction;;
          services ← exec (SelectServicePrefix service_id);
          let prefix := JS.or_default (mjoin (head services)) "TKT" in
          exec (UpsertSequence (service_id, branch_id, today));;
          sequences ← exec (SelectSequenceForUpdate (service_id, branch_id, today));
          let currentNumber := (default 0 (head sequences) + 1)%nat in
          exec (UpdateSequence currentNumber (service_id, branch_id, today));;
          let ticketNumber := ticketNumber prefix currentNumber in
          exec (InsertTicket ticketId
                  (values req ticketNumber service_id branch_id now));;
          exec Commit;;
          tickets ← query (SelectTicketJoined OnPool ticketId);
          let ticket := head tickets in
          emitTicketCreated (Plain <$> ticket);;
          Ret {| http := 201; json := Ticket ticket |})
       (exec Rollback;;
        Ret {| http := 500; json := Error "Failed to create ticket" |}))
    (exec Release).

(** Body of PATCH /tickets/:id. *)
Record patch_request := {
  patch_status : option string;
  patch_counter_id : option string;
  patch_notes : option string
}.

(** The [updates] list the patch builds from the fields present. *)
Definition updates (req : patch_request) (user : string) : list assignment :=
  (if JS.truthy (patch_status req) then
     let s := default "" (patch_status req) in
     SetStatus s ::
       (if String.eqb s "serving" then [SetStartedNow]
        else if bool_decide (s ∈ ["done"; "cancelled"; "skipped"])
             then [SetEndedNow; SetServedBy user]
             else [])
   else [])
  ++ (if JS.truthy (patch_counter_id req)
      then [SetCounter (default "" (patch_counter_id req))] else [])
  ++ (if JS.truthy (patch_notes req)
      then [SetNotes (default "" (patch_notes req))] else []).

(** PATCH /tickets/:id, by the authenticated [user]. *)
Definition patch_ticket (ticketId : string) (req : patch_request)
    (user : string) (now : Z) : prog response :=
  try_catch
    (match updates req user with
     | [] => Ret {| http := 400; json := Error "No updates provided" |}
     | sets =>
         query (UpdateSet now sets ticketId);;
         tickets ← query (SelectTicketJoined OnPool ticketId);
         let ticket := head tickets in
         emitTicketUpdated (Plain <$> ticket);;
         Ret {| http := 200; json := Ticket ticket |}
     end)
    (Ret {| http := 500; json := Error "Failed to update ticket" |}).

(** Body of POST /tickets/call-next. *)
Record call_request := {
  call_service_id : option string;
  call_counter_id : option string
}.

(** POST /tickets/call-next; [now] is the server's clock. *)
Definition call_next (req : call_request) (now : Z) : prog response :=
  exec GetConnection;;
  finally
    (try_catch
       (if negb (JS.truthy (call_counter_id req))
        then Ret {| http := 400; json := Error "counter_id is required" |}
        else
          let counter_id := default "" (call_counter_id req) in
          exec BeginTransaction;;
          tickets ← exec (SelectNextForUpdate counter_id (call_service_id req));
          match tickets with
          | [] =>
              exec Commit;;
              Ret {| http := 200; json := NoTicket "No tickets in queue" |}
          | ticketId :: _ =>
              exec (UpdateServing counter_id now ticketId);;
              exec Commit;;
              ticketData ← exec (SelectTicketJoined OnConn ticketId);
              match ticketData with
              | [] => Throw
              | rawTicket :: _ =>
                  let ticket := transform rawTicket in
                  emitTicketUpdated (Some (Nested ticket));;
                  emitTicketCalled (Some (Nested ticket));;
                  Ret {| http := 200; json := Called ticket |}
              end
          end)
       (exec Rollback;;
        Ret {| http := 500; json := Error "Failed to call next ticket" |}))
    (exec Release).

(** DELETE /tickets/:id. *)
Definition delete_ticket (ticketId : string) (now : Z) : prog response :=
  try_catch
    (tickets ← query (SelectTicketBranch ticketId);
     match tickets with
     | [] => Ret {| http := 404; json := Error "Ticket not found" |}
     | branchId :: _ =>
         query (UpdateCancelled now ticketId);;
         emitTicketDeleted ticketId branchId;;
         Ret {| http := 200; json := Success |}
     end)
    (Ret {| http := 500; json := Error "Failed to delete ticket" |}).

(** ** Requests served one after the other *)

(** A world in which no request is being served: the committed tables,
    no lock, every connection in the pool, and the events emitted so
    far. *)
Definition at_rest (d : db) (evs : list event) : world :=
  {| store := d; seq_locks := ∅; ticket_locks := ∅; free := connectionLimit;
     emitted := evs |}.

(** The stored sequence value of a key, 0 while the key has no row. *)
Definition current (d : db) (k : seq_key) : nat :=
  default 0%nat (ticket_sequences d !! k).

(** The key a creation request allocates from. *)
Definition key_of (req : create_request) (today : string) : seq_key :=
  (default "" (req_service_id req), default "" (req_branch_id req), today).

(** The prefix a creation request gets from the [services] table. *)
Definition prefix_of (d : db) (req : create_request) : string :=
  JS.or_default (services d !! default "" (req_service_id req) ≫= svc_prefix) "TKT".

(** The row a creation request inserts when the stored value is [n]. *)
Definition row_of (d : db) (req : create_request) (n : nat) (now : Z) : ticket :=
  values req (ticketNumber (prefix_of d req) (n + 1))
    (default "" (req_service_id req)) (default "" (req_branch_id req)) now.

(** The tables after the transaction of a creation request committed. *)
Definition created (d : db) (req : create_request) (today id : string)
    (now : Z) : db :=
  let k := key_of req today in
  apply_write (WInsertTicket id (row_of d req (current d k) now))
    (apply_write (WUpdateSequence (current d k + 1) k)
       (apply_write (WUpsertSequence k) d)).

(** The tables after call-next gave ticket [id] to counter [cid]. *)
Definition dispatched (d : db) (cid : string) (now : Z) (id : string) : db :=
  apply_write (WUpdateServing cid now id) d.

(** The ticket number in the response of a successful creation. *)
Definition issued_number (r : option response) : option string :=
  match r with
  | Some {| http := 201; json := Ticket (Some j) |} => Some (ticket_number (j_row j))
  | _ => None
  end.

(** Creation requests of one day served one after the other, each with
    its uuid and clock; every response comes with the stored sequence
    value of [k] read back after the request. *)
Fixpoint issue (t : nat) (today : string) (k : seq_key)
    (jobs : list (create_request * string * Z)) (w : world)
  : list (option response * nat) * world :=
  match jobs with
  | [] => ([], w)
  | (req, id, now) :: rest =>
      match run t (post_ticket req today id now) idle [] w with
      | Finished r _ w' =>
          let '(rs, w'') := issue t today k rest w' in
          ((r, current (store w') k) :: rs, w'')
      | Waiting => ([], w)
      end
  end.

(** The ticket a call-next response carries, if any. *)
Definition called_id (r : option response) : option string :=
  match r with
  | Some {| http := 200; json := Called tj |} => Some (j_id (raw tj))
  | _ => None
  end.

(** A request to one of the ticket routes, with what its handler takes
    from the environment. *)
Inductive request :=
| PostTicket (req : create_request) (today : string) (ticketId : string) (now : Z)
| PatchTicket (ticketId : string) (req : patch_request) (user : string) (now : Z)
| CallNext (req : call_request) (now : Z)
| DeleteTicket (ticketId : string) (now : Z).

Definition handler (q : request) : prog response :=
  match q with
  | PostTicket req today ticketId now => post_ticket req today ticketId now
  | PatchTicket ticketId req user now => patch_ticket ticketId req user now
  | CallNext req now => call_next req now
  | DeleteTicket ticketId now => delete_ticket ticketId now
  end.

(** Requests served one after the other, each with the statements that
    fail while it is served, for as long as every request is answered. *)
Fixpoint in_turn (t : nat) (qs : list (request * list bool)) (w : world)
  : list response * world :=
  match qs with
  | [] => ([], w)
  | (q, fs) :: rest =>
      match run t (handler q) idle fs w with
      | Finished (Some r) _ w' =>
          let '(rs, w'') := in_turn t rest w' in (r :: rs, w'')
      | _ => ([], w)
      end
  end.

(** The request is a status patch that asks to put ticket [id] back in
    the queue. *)
Definition reopens (id : string) (q : request) : Prop :=
  match q with
  | PatchTicket id' req _ _ => id' = id ∧ patch_status req = Some "waiting"
  | _ => False
  end.

(** The statuses after which a ticket is over, as the status patch lists
    them. *)
Definition terminal (s : string) : Prop := s ∈ ["done"; "cancelled"; "skipped"].

(** ** A small instance

    One branch with one counter and one service of prefix A, two creation
    requests for that service, and the call requests of the counter. *)

Definition demo_db : db :=
  {| services := {[ "svcA" := {| svc_name := Some "Accounts"; svc_prefix := Some "A" |} ]};
     counters := {[ "c1" := {| ctr_name := Some "Counter 1";
                               ctr_branch_id := Some "B1" |} ]};
     branches := {[ "B1" := {| br_name := Some "Main" |} ]};
     ticket_sequences := ∅;
     tickets := ∅ |}.

Definition demo_create (sid : string) : create_request :=
  {| req_service_id := Some sid;
     req_branch_id := Some "B1";
     req_priority_level := JS.Undefined;
     req_customer_name := None;
     req_customer_phone := None;
     req_notes := None;
     req_user := None |}.

Definition demo_jobs : list (create_request * string * Z) :=
  [(demo_create "svcA", "id1", 10%Z);
   (demo_create "svcA", "id2", 20%Z);
   (demo_create "svcA", "id3", 30%Z)].

(** As many creation requests for the demo service as the pool has
    connections. *)
Definition demo_crowd : list (create_request * string * Z) :=
  (λ i : nat, (demo_create "svcA", "t" +:+ JS.String_ i, Z.of_nat i))
    <$> seq 0 connectionLimit.

Definition demo_call (cid : string) : call_request :=
  {| call_service_id := None; call_counter_id := Some cid |}.

(** A ticket of the demo branch with the given priority, creation time
    and status. *)
Definition demo_ticket (number : string) (priority : Z) (at_ : Z)
    (st : string) : ticket :=
  {| ticket_number := number; service_id := "svcA"; branch_id := "B1";
     priority_level := Some priority;
     customer_name := None; customer_phone := None; notes := None;
     issued_by := None; status := st; counter_id := None; served_by := None;
     created_at := at_; called_at := None; started_at := None;
     ended_at := None |}.

Definition with_demo_tickets (rows : list (string * ticket)) : db :=
  with_tickets (λ _, list_to_map rows) demo_db.

Definition demo_queue : db :=
  with_demo_tickets [("id1", demo_ticket "A-001" 0 10 "waiting");
                     ("id2", demo_ticket "A-002" 0 20 "waiting");
                     ("id3", demo_ticket "A-003" 2 30 "waiting")].

Definition demo_done : db :=
  with_demo_tickets [("id1", demo_ticket "A-001" 0 10 "done")].


Definition demo_reopen : patch_request :=
  {| patch_status := Some "waiting"; patch_counter_id := None; patch_notes := None |}.

(** ** Requests served at the same time

    Every request is a thread; a step of the system is one statement of
    one thread that is not waiting for a lock.  Any order of steps is a
    possible run. *)

Record system := {
  threads : list (thread response);
  shared : world
}.

Inductive step : system → system → Prop :=
| step_of (s : system) (i : nat) (th th' : thread response) (w' : world) :
    threads s !! i = Some th →
    step_thread i th (shared s) = Some (th', w') →
    step s {| threads := <[i := th']> (threads s); shared := w' |}.

(** The thread of a request: its handler, an idle connection, no fault. *)
Definition spawn (q : request) : thread response :=
  {| code := handler q; connection := idle; faults := [] |}.

Definition boot (d : db) (evs : list event) (qs : list request) : system :=
  {| threads := spawn <$> qs; shared := at_rest d evs |}.

Definition answer (th : thread response) : option response :=
  match code th with
  | Ret r => Some r
  | _ => None
  end.

Definition ended (th : thread response) : Prop :=
  match code th with
  | Exec _ _ => False
  | _ => True
  end.

(** All threads have ended. *)
Definition quiescent (s : system) : Prop := Forall ended (threads s).

(** A run under a given schedule: the threads named in [order] take one
    step each, in that order; a thread that cannot step is skipped. *)
Fixpoint schedule (order : list nat) (s : system) : system :=
  match order with
  | [] => s
  | i :: rest =>
      schedule rest
        match threads s !! i with
        | Some th =>
            match step_thread i th (shared s) with
            | Some (th', w') =>
                {| threads := <[i := th']> (threads s); shared := w' |}
            | None => s
            end
        | None => s
        end
  end.

(** The call-next requests of a run, each with its clock. *)
Definition calls (reqs : list (call_request * Z)) : list request :=
  (λ rq, CallNext rq.1 rq.2) <$> reqs.

(** The waiting tickets of branch [b] under service filter [sf]. *)
Definition pool (d : db) (b : string) (sf : option string) : gmap string ticket :=
  filter (λ kv, matches (Some b) sf kv.2 = true) (tickets d).

(** *** Program points of call-next

    The rest of the handler at each point a call-next thread can be at,
    from the handler's own text. *)

Definition call_catch : prog response :=
  exec Rollback;;
  Ret {| http := 500; json := Error "Failed to call next ticket" |}.

Definition in_call (p : prog response) : prog response :=
  finally (try_catch p call_catch) (exec Release).

Definition call_answer (tj : ticket_json) : prog response :=
  Ret {| http := 200; json := Called tj |}.

Definition call_emit_called (tj : ticket_json) : prog response :=
  emitTicketCalled (Some (Nested tj));; call_answer tj.

Definition call_emit_updated (tj : ticket_json) : prog response :=
  emitTicketUpdated (Some (Nested tj));; call_emit_called tj.

Definition call_reread (ticketId : string) : prog response :=
  ticketData ← exec (SelectTicketJoined OnConn ticketId);
  match ticketData with
  | [] => Throw
  | rawTicket :: _ => call_emit_updated (transform rawTicket)
  end.

Definition call_commit (ticketId : string) : prog response :=
  exec Commit;; call_reread ticketId.

Definition call_update (cid : string) (now : Z) (ticketId : string)
  : prog response :=
  exec (UpdateServing cid now ticketId);; call_commit ticketId.

Definition call_no_ticket : prog response :=
  Ret {| http := 200; json := NoTicket "No tickets in queue" |}.

Definition call_commit_empty : prog response :=
  exec Commit;; call_no_ticket.

Definition call_select (cid : string) (sid : option string) (now : Z)
  : prog response :=
  tickets ← exec (SelectNextForUpdate cid sid);
  match tickets with
  | [] => call_commit_empty
  | ticketId :: _ => call_update cid now ticketId
  end.

Definition call_begin (cid : string) (sid : option string) (now : Z)
  : prog response :=
  exec BeginTransaction;; call_select cid sid now.

(** How far a thread that got a ticket is. *)
Inductive stage :=
| Locked | Updated | Committed | Reread | EmittedUpdated | EmittedCalled | Answered.

Inductive phase :=
| Start
| Connected
| Begun
| Holding (st : stage) (id : string) (row : ticket)
| Empty
| EmptyCommitted
| AnsweredEmpty.

(** The stages in which the thread holds the row lock, and those after
    its COMMIT. *)
Definition holds (st : stage) : bool :=
  match st with
  | Locked | Updated => true
  | _ => false
  end.

Definition committed (st : stage) : bool := negb (holds st).

Section phases.

Context (d0 : db) (req : call_request) (now : Z).

Let cid := default "" (call_counter_id req).

(** The ticket object of the response: the tables of names never change,
    and the row is the selected row as the dispatch rewrote it. *)
Definition called_json (id : string) (row : ticket) : ticket_json :=
  transform (join d0 id (serve cid now row)).

Definition code_at (ph : phase) : prog response :=
  match ph with
  | Start => call_next req now
  | Connected => in_call (call_begin cid (call_service_id req) now)
  | Begun => in_call (call_select cid (call_service_id req) now)
  | Holding Locked id _ => in_call (call_update cid now id)
  | Holding Updated id _ => in_call (call_commit id)
  | Holding Committed id _ => in_call (call_reread id)
  | Holding Reread id row => in_call (call_emit_updated (called_json id row))
  | Holding EmittedUpdated id row => in_call (call_emit_called (called_json id row))
  | Holding EmittedCalled id row => in_call (call_answer (called_json id row))
  | Holding Answered id row => call_answer (called_json id row)
  | Empty => in_call call_commit_empty
  | EmptyCommitted => in_call call_no_ticket
  | AnsweredEmpty => call_no_ticket
  end.

Definition conn_at (ph : phase) : conn :=
  match ph with
  | Begun | Holding Locked _ _ | Empty => {| in_txn := true; pending := [] |}
  | Holding Updated id _ =>
      {| in_txn := true; pending := [WUpdateServing cid now id] |}
  | _ => idle
  end.

Definition thread_at (ph : phase) : thread response :=
  {| code := code_at ph; connection := conn_at ph; faults := [] |}.

End phases.

(** The statements a thread still has to send. *)
Definition remaining (ph : phase) : nat :=
  match ph with
  | Start => 10
  | Connected => 9
  | Begun => 8
  | Holding Locked _ _ => 7
  | Holding Updated _ _ => 6
  | Holding Committed _ _ => 5
  | Holding Reread _ _ => 4
  | Holding EmittedUpdated _ _ => 3
  | Holding EmittedCalled _ _ => 2
  | Holding Answered _ _ => 0
  | Empty => 2
  | EmptyCommitted => 1
  | AnsweredEmpty => 0
  end.

(** Thread [ph] holds the lock of ticket [id]; thread [ph] has committed
    the dispatch of ticket [id]. *)
Definition locks_row (id : string) (ph : phase) : bool :=
  match ph with
  | Holding st id' _ => holds st && bool_decide (id' = id)
  | _ => false
  end.

Definition served_row (id : string) (ph : phase) : bool :=
  match ph with
  | Holding st id' _ => committed st && bool_decide (id' = id)
  | _ => false
  end.

Definition saw_empty (ph : phase) : bool :=
  match ph with
  | Empty | EmptyCommitted | AnsweredEmpty => true
  | _ => false
  end.

(** The connections of the pool a thread has: one from its first
    statement to its last. *)
Definition connections (ph : phase) : nat :=
  match ph with
  | Start | Holding Answered _ _ | AnsweredEmpty => 0
  | _ => 1
  end.

Arguments in_call : simpl never.
Arguments call_begin : simpl never.
Arguments call_select : simpl never.
Arguments call_update : simpl never.
Arguments call_commit : simpl never.
Arguments call_reread : simpl never.
Arguments call_emit_updated : simpl never.
Arguments call_emit_called : simpl never.
Arguments call_answer : simpl never.
Arguments call_commit_empty : simpl never.
Arguments call_no_ticket : simpl never.

(** *** The invariant of concurrent call-next requests *)

(** What holds of the phases of the threads and the shared world in
    every state of a run of call-next requests from tables [d0]. *)
Record invariant (d0 : db) (reqs : list (call_request * Z))
    (phs : list phase) (w : world) : Prop := {
  inv_length : length phs = length reqs;
  (* the connections of the pool are free or with a thread *)
  inv_free : (free w + sum_list (connections <$> phs))%nat = connectionLimit;
  inv_services : services (store w) = services d0;
  inv_counters : counters (store w) = counters d0;
  inv_branches : branches (store w) = branches d0;
  (* a row lock is held exactly by the thread that selected the row and
     has not committed yet *)
  inv_locks : ∀ id j,
    ticket_locks w !! id = Some j
    ↔ ∃ ph, phs !! j = Some ph ∧ locks_row id ph = true;
  (* a thread got a row that was waiting in its pool, and after its
     commit the row is as it wrote it *)
  inv_claim : ∀ i req now st id row,
    reqs !! i = Some (req, now) → phs !! i = Some (Holding st id row) →
    tickets d0 !! id = Some row
    ∧ matches (counter_branch d0 (default "" (call_counter_id req)))
        (call_service_id req) row = true
    ∧ (committed st = true →
       tickets (store w) !! id
       = Some (serve (default "" (call_counter_id req)) now row));
  (* no two threads got the same row *)
  inv_distinct : ∀ i j sti stj id rowi rowj,
    phs !! i = Some (Holding sti id rowi) →
    phs !! j = Some (Holding stj id rowj) → i = j;
  (* a row nobody committed is as it was *)
  inv_store : ∀ id,
    ¬ Exists (λ ph, served_row id ph = true) phs →
    tickets (store w) !! id = tickets d0 !! id;
  (* a thread saw its pool empty only after every row of it was served *)
  inv_empty : ∀ i req now ph,
    reqs !! i = Some (req, now) → phs !! i = Some ph → saw_empty ph = true →
    ∀ id row,
      tickets d0 !! id = Some row →
      matches (counter_branch d0 (default "" (call_counter_id req)))
        (call_service_id req) row = true →
      Exists (λ ph, served_row id ph = true) phs
}.

(** The threads of a system are at the program points [phs], which
    satisfy the invariant and have [m] statements left to send in all. *)
Definition at_points {Req Phase : Type}
    (thread_at : Req → Phase → thread response)
    (inv : list Req → list Phase → world → Prop)
    (remaining : Phase → nat)
    (reqs : list Req) (s : system) (phs : list Phase) (m : nat) : Prop :=
  threads s = zip_with thread_at reqs phs
  ∧ inv reqs phs (shared s)
  ∧ sum_list (remaining <$> phs) = m.

(** The invariant of a run of call-next requests that all carry a
    counter_id. *)
Definition call_invariant (d0 : db) (reqs : list (call_request * Z))
    (phs : list phase) (w : world) : Prop :=
  Forall (λ rq, JS.truthy (call_counter_id rq.1) = true) reqs
  ∧ invariant d0 reqs phs w.

Definition call_thread (d0 : db) (rq : call_request * Z) (ph : phase)
  : thread response :=
  thread_at d0 rq.1 rq.2 ph.

(** The threads of a system of call-next requests are at the program
    points [phs]. *)
Definition coherent (d0 : db) (reqs : list (call_request * Z)) (s : system)
    (phs : list phase) (m : nat) : Prop :=
  at_points (call_thread d0) (call_invariant d0) remaining reqs s phs m.

(** The response says that the queue was empty. *)
Definition no_ticket (r : option response) : bool :=
  match r with
  | Some {| json := NoTicket _ |} => true
  | _ => false
  end.

(** The ticket a thread has answered with; whether it has answered that
    the queue was empty. *)
Definition got (ph : phase) : option string :=
  match ph with
  | Holding Answered id _ => Some id
  | _ => None
  end.

Definition got_none (ph : phase) : bool :=
  match ph with
  | AnsweredEmpty => true
  | _ => false
  end.

(** Four requests of counter c1 at once. *)
Definition demo_calls : list (call_request * Z) :=
  [(demo_call "c1", 100%Z); (demo_call "c1", 101%Z);
   (demo_call "c1", 102%Z); (demo_call "c1", 103%Z)].

(** An interleaving: the four threads take turns, statement by
    statement. *)
Definition round_robin : list nat :=
  mjoin (replicate 13 [0; 1; 2; 3]%nat).

(** ** Creation requests served at the same time *)

(** *** Program points of ticket creation

    The rest of the handler at each point a creation thread can be at,
    from the handler's own text. *)

(** The creation requests of a run, each with its uuid and clock, all
    on the date [today]. *)
Definition creations (today : string)
    (jobs : list (create_request * string * Z)) : list request :=
  (λ job, PostTicket job.1.1 today job.1.2 job.2) <$> jobs.

Definition post_catch : prog response :=
  exec Rollback;;
  Ret {| http := 500; json := Error "Failed to create ticket" |}.

Definition in_post (p : prog response) : prog response :=
  finally (try_catch p post_catch) (exec Release).

Definition post_answer (ticket : option joined) : prog response :=
  Ret {| http := 201; json := Ticket ticket |}.

Definition post_emit (ticket : option joined) : prog response :=
  emitTicketCreated (Plain <$> ticket);; post_answer ticket.

Definition post_fetch (ticketId : string) : prog response :=
  tickets ← exec (SelectTicketJoined OnPool ticketId);
  post_emit (head tickets).

Definition post_reread (ticketId : string) : prog response :=
  tickets ← query (SelectTicketJoined OnPool ticketId);
  post_emit (head tickets).

Definition post_commit (ticketId : string) : prog response :=
  exec Commit;; post_reread ticketId.

Section creation_points.

Context (req : create_request) (service_id branch_id today ticketId : string)
  (now : Z).

Definition post_insert (prefix : string) (currentNumber : nat)
  : prog response :=
  exec (InsertTicket ticketId
          (values req (ticketNumber prefix currentNumber)
             service_id branch_id now));;
  post_commit ticketId.

Definition post_update (prefix : string) (sequences : list nat)
  : prog response :=
  let currentNumber := (default 0 (head sequences) + 1)%nat in
  exec (UpdateSequence currentNumber (service_id, branch_id, today));;
  post_insert prefix currentNumber.

Definition post_select (prefix : string) : prog response :=
  sequences ← exec (SelectSequenceForUpdate (service_id, branch_id, today));
  post_update prefix sequences.

Definition post_upsert (prefix : string) : prog response :=
  exec (UpsertSequence (service_id, branch_id, today));;
  post_select prefix.

Definition post_prefix : prog response :=
  services ← exec (SelectServicePrefix service_id);
  post_upsert (JS.or_default (mjoin (head services)) "TKT").

Definition post_begin : prog response :=
  exec BeginTransaction;; post_prefix.

End creation_points.

(** Where a creation thread is; from the SELECT of the sequence row on,
    with the value [n] it read there. *)
Inductive alloc_phase :=
| AStart
| AConnected
| ABegun
| APrefixed
| AUpserted
| ASelected (n : nat)
| AUpdated (n : nat)
| AInserted (n : nat)
| ACommitted (n : nat)
| AAcquired (n : nat)
| AReread (n : nat)
| AEmitted (n : nat)
| AAnswered (n : nat).

Section alloc_phases.

Context (d0 : db) (today : string) (job : create_request * string * Z).

(** The joined row of the response: the tables of names never change. *)
Definition created_json (n : nat) : option joined :=
  Some (join d0 job.1.2 (row_of d0 job.1.1 n job.2)).

Definition alloc_code (ph : alloc_phase) : prog response :=
  let req := job.1.1 in
  let service_id := default "" (req_service_id req) in
  let branch_id := default "" (req_branch_id req) in
  let ticketId := job.1.2 in
  let now := job.2 in
  let prefix := prefix_of d0 req in
  match ph with
  | AStart => post_ticket req today ticketId now
  | AConnected =>
      in_post (post_begin req service_id branch_id today ticketId now)
  | ABegun =>
      in_post (post_prefix req service_id branch_id today ticketId now)
  | APrefixed =>
      in_post (post_upsert req service_id branch_id today ticketId now prefix)
  | AUpserted =>
      in_post (post_select req service_id branch_id today ticketId now prefix)
  | ASelected n =>
      in_post (post_update req service_id branch_id today ticketId now prefix [n])
  | AUpdated n =>
      in_post (post_insert req service_id branch_id ticketId now prefix (n + 1))
  | AInserted _ => in_post (post_commit ticketId)
  | ACommitted _ => in_post (post_reread ticketId)
  | AAcquired _ => in_post (post_fetch ticketId)
  | AReread n => in_post (post_emit (created_json n))
  | AEmitted n => in_post (post_answer (created_json n))
  | AAnswered n => post_answer (created_json n)
  end.

Definition alloc_conn (ph : alloc_phase) : conn :=
  let k := key_of job.1.1 today in
  match ph with
  | ABegun | APrefixed => {| in_txn := true; pending := [] |}
  | AUpserted | ASelected _ =>
      {| in_txn := true; pending := [WUpsertSequence k] |}
  | AUpdated n =>
      {| in_txn := true;
         pending := [WUpdateSequence (n + 1) k; WUpsertSequence k] |}
  | AInserted n =>
      {| in_txn := true;
         pending := [WInsertTicket job.1.2 (row_of d0 job.1.1 n job.2);
                     WUpdateSequence (n + 1) k; WUpsertSequence k] |}
  | _ => idle
  end.

Definition alloc_thread (ph : alloc_phase) : thread response :=
  {| code := alloc_code ph; connection := alloc_conn ph; faults := [] |}.

End alloc_phases.

(** The statements a creation thread still has to send. *)
Definition alloc_remaining (ph : alloc_phase) : nat :=
  match ph with
  | AStart => 12
  | AConnected => 11
  | ABegun => 10
  | APrefixed => 9
  | AUpserted => 8
  | ASelected _ => 7
  | AUpdated _ => 6
  | AInserted _ => 5
  | ACommitted _ => 4
  | AAcquired _ => 3
  | AReread _ => 2
  | AEmitted _ => 1
  | AAnswered _ => 0
  end.

(** The thread holds the lock of the sequence row; the value it read
    under the lock; the value it read, once it has committed. *)
Definition in_section (ph : alloc_phase) : bool :=
  match ph with
  | AUpserted | ASelected _ | AUpdated _ | AInserted _ => true
  | _ => false
  end.

Definition inserted (ph : alloc_phase) : bool :=
  match ph with
  | AInserted _ => true
  | _ => false
  end.

Definition reading (ph : alloc_phase) : option nat :=
  match ph with
  | ASelected n | AUpdated n | AInserted n => Some n
  | _ => None
  end.

Definition done_with (ph : alloc_phase) : option nat :=
  match ph with
  | ACommitted n | AAcquired n | AReread n | AEmitted n | AAnswered n => Some n
  | _ => None
  end.

(** The connections of the pool a creation thread has: its own from its
    first statement to its last, and a second one while it reads its
    ticket back. *)
Definition alloc_connections (ph : alloc_phase) : nat :=
  match ph with
  | AStart | AAnswered _ => 0
  | AAcquired _ => 2
  | _ => 1
  end.

(** What holds of the creation threads of one key [k] and the shared
    world in every state of a run from tables [d0]. *)
Record alloc_invariant (d0 : db) (today : string) (k : seq_key)
    (jobs : list (create_request * string * Z))
    (phs : list alloc_phase) (w : world) : Prop := {
  (* the requests pass validation, are for the key, and bring distinct
     fresh uuids; the service and the branch of the key exist *)
  alloc_valid : Forall (λ job,
    JS.truthy (req_service_id job.1.1) = true
    ∧ JS.truthy (req_branch_id job.1.1) = true
    ∧ key_of job.1.1 today = k) jobs;
  alloc_service : is_Some (services d0 !! k.1.1);
  alloc_branch : is_Some (branches d0 !! k.1.2);
  alloc_ids : NoDup (jobs.*1.*2);
  alloc_fresh : Forall (λ id, tickets d0 !! id = None) (jobs.*1.*2);
  alloc_length : length phs = length jobs;
  (* the connections of the pool are free or with a thread *)
  alloc_free :
    (free w + sum_list (alloc_connections <$> phs))%nat = connectionLimit;
  alloc_services : services (store w) = services d0;
  alloc_counters : counters (store w) = counters d0;
  alloc_branches : branches (store w) = branches d0;
  (* the lock of the sequence row is held exactly by the thread between
     its upsert and its commit *)
  alloc_seq_locks : ∀ k' j,
    seq_locks w !! k' = Some j
    ↔ k' = k ∧ ∃ ph, phs !! j = Some ph ∧ in_section ph = true;
  (* the lock of a new ticket row is held by the thread that inserted
     it and has not committed *)
  alloc_ticket_locks : ∀ id j,
    ticket_locks w !! id = Some j
    ↔ jobs.*1.*2 !! j = Some id
      ∧ ∃ ph, phs !! j = Some ph ∧ inserted ph = true;
  (* the stored value counts the commits *)
  alloc_current :
    current (store w) k = (current d0 k + length (omap done_with phs))%nat;
  (* the rows of the other keys are as they were *)
  alloc_others : ∀ k', k' ≠ k →
    ticket_sequences (store w) !! k' = ticket_sequences d0 !! k';
  (* the thread in the section has read the stored value *)
  alloc_reading : ∀ i ph n,
    phs !! i = Some ph → reading ph = Some n → n = current (store w) k;
  (* the values the committed threads have read are the stored values
     since the start, each once *)
  alloc_done : omap done_with phs ≡ₚ seq (current d0 k) (length (omap done_with phs));
  (* the ticket of a committed thread is in the table, with the number
     after the value it read *)
  alloc_row : ∀ i job ph n,
    jobs !! i = Some job → phs !! i = Some ph → done_with ph = Some n →
    tickets (store w) !! job.1.2 = Some (row_of d0 job.1.1 n job.2);
  (* no other row of the ticket table has changed *)
  alloc_rows : ∀ id,
    (∀ i job ph n, jobs !! i = Some job → phs !! i = Some ph →
                   done_with ph = Some n → job.1.2 ≠ id) →
    tickets (store w) !! id = tickets d0 !! id
}.

(** The threads of a system of creation requests are at the program
    points [phs]. *)
Definition alloc_coherent (d0 : db) (today : string) (k : seq_key)
    (jobs : list (create_request * string * Z)) (s : system)
    (phs : list alloc_phase) (m : nat) : Prop :=
  at_points (alloc_thread d0 today) (alloc_invariant d0 today k)
    alloc_remaining jobs s phs m.

Arguments in_post : simpl never.
Arguments post_prefix : simpl never.
Arguments post_upsert : simpl never.
Arguments post_select : simpl never.
Arguments post_update : simpl never.
Arguments post_insert : simpl never.
Arguments post_commit : simpl never.
Arguments post_reread : simpl never.
Arguments post_fetch : simpl never.
Arguments post_begin : simpl never.
Arguments post_emit : simpl never.
Arguments post_answer : simpl never.

(** An interleaving of three threads: the last one goes first, up to
    its upsert; then they take turns, statement by statement. *)
Definition turns : list nat :=
  [2; 2; 2; 2]%nat ++ mjoin (replicate 30 [0; 1; 2]%nat).

(** ** Reading a ticket, and what a request commits *)

(** GET /tickets/:id. *)
Definition get_ticket (ticketId : string) : prog response :=
  try_catch
    (tickets ← query (SelectTicketJoined OnPool ticketId);
     if (length tickets =? 0)%nat
     then Ret {| http := 404; json := Error "Ticket not found" |}
     else Ret {| http := 200; json := Ticket (head tickets) |})
    (Ret {| http := 500; json := Error "Failed to fetch ticket" |}).

(** The tables once the writes of a request are committed. *)
Definition effect (q : request) (d : db) : db :=
  match q with
  | PostTicket req today ticketId now => created d req today ticketId now
  | PatchTicket ticketId req user now =>
      apply_write (WUpdateSet now (updates req user) ticketId) d
  | CallNext req now =>
      let cid := default "" (call_counter_id req) in
      match select_next d cid (call_service_id req) with
      | Some id => dispatched d cid now id
      | None => d
      end
  | DeleteTicket ticketId now => apply_write (WUpdateCancelled now ticketId) d
  end.

(** The response reports success. *)
Definition succeeded (r : option response) : bool :=
  match r with
  | Some x => (200 <=? http x)%nat && (http x <? 300)%nat
  | None => false
  end.

(** ** The list queries

    GET /tickets and GET /announcements build their SELECT as text with
    [?] placeholders and a list of parameters.  The builders are modelled
    for query parameters that are given once, as strings. *)

(** [s.split(sep)] for a separator of one character. *)
Fixpoint split_on (sep : ascii) (s : string) : list string :=
  match s with
  | "" => [""]
  | String c s' =>
      if Ascii.eqb c sep then "" :: split_on sep s'
      else match split_on sep s' with
           | piece :: rest => String c piece :: rest
           | [] => [String c ""]
           end
  end.

(** [items.map(() => '?').join(',')]. *)
Definition placeholders {A : Type} (items : list A) : string :=
  String.concat "," (map (λ _, "?") items).

(** The number of [?] in a statement. *)
Fixpoint count_char (c : ascii) (s : string) : nat :=
  match s with
  | "" => 0
  | String a s' => (if Ascii.eqb a c then 1 else 0) + count_char c s'
  end.

(** A number as [parseInt] returns it: NaN, an integer, or an infinity
    when the digits are too many. *)
Inductive number :=
| NaN
| Int (z : Z)
| Infinity (negative : bool).

(** [n || d]: NaN and 0 are falsy. *)
Definition number_or (n : number) (d : Z) : number :=
  match n with
  | NaN => Int d
  | Int z => if (z =? 0)%Z then Int d else Int z
  | Infinity s => Infinity s
  end.

(** [Math.min(n, m)]. *)
Definition Math_min (n : number) (m : Z) : number :=
  match n with
  | NaN => NaN
  | Int z => Int (Z.min z m)
  | Infinity true => Infinity true
  | Infinity false => Int m
  end.

Definition newline : string := String (ascii_of_nat 10) "".

(** The query string of GET /tickets. *)
Record list_request := {
  q_branch_id : option string;
  q_status : option string;
  q_service_id : option string;
  q_counter_id : option string;
  q_date : option string;
  q_start_date : option string;
  q_served_by : option string;
  q_sort : option string;
  q_limit : option string
}.

Definition list_select : string :=
  String.concat newline
    [""; "      SELECT t.*, ";
     "             s.name as service_name, s.prefix as service_prefix,";
     "             c.name as counter_name,";
     "             b.name as branch_name";
     "      FROM tickets t";
     "      LEFT JOIN services s ON t.service_id = s.id";
     "      LEFT JOIN counters c ON t.counter_id = c.id";
     "      LEFT JOIN branches b ON t.branch_id = b.id";
     "      WHERE 1=1";
     "    "].

Definition validFields : list string :=
  ["created_at"; "ended_at"; "called_at"; "ticket_number"; "priority_level"].

Section list_tickets.

(** [String.prototype.trim] and [toUpperCase], [parseInt] of a query
    parameter that may be absent, and the text of a number in a template
    literal, are those of the language; nothing is assumed of them. *)
Context (trim toUpperCase : string → string).
Context (parseInt : option string → number).
Context (Number_toString : number → string).

(** The ORDER BY clause of GET /tickets. *)
Definition list_order (sort : option string) : string :=
  if JS.truthy sort then
    let pieces := split_on ":" (default "" sort) in
    let field := pieces !! 0%nat in
    let direction := pieces !! 1%nat in
    let validDirection :=
      if bool_decide (toUpperCase <$> direction = Some "ASC") then "ASC" else "DESC" in
    match field with
    | Some f =>
        if bool_decide (f ∈ validFields)
        then " ORDER BY t." +:+ f +:+ " " +:+ validDirection
        else " ORDER BY t.created_at DESC"
    | None => " ORDER BY t.created_at DESC"
    end
  else " ORDER BY t.created_at DESC".

(** The number after LIMIT. *)
Definition list_limit (limit : option string) : number :=
  let maxLimit := number_or (parseInt limit) 1000 in
  Math_min maxLimit 1000.

(** The statement and the parameters GET /tickets sends. *)
Definition list_query (q : list_request) : string * list string :=
  let sql := list_select in
  let params : list string := [] in
  let '(sql, params) :=
    if JS.truthy (q_branch_id q)
    then (sql +:+ " AND t.branch_id = ?",
          (params ++ [default "" (q_branch_id q)])%list)
    else (sql, params) in
  let '(sql, params) :=
    if JS.truthy (q_status q) then
      let statuses := map trim (split_on "," (default "" (q_status q))) in
      (sql +:+ " AND t.status IN (" +:+ placeholders statuses +:+ ")",
       (params ++ statuses)%list)
    else (sql, params) in
  let '(sql, params) :=
    if JS.truthy (q_service_id q)
    then (sql +:+ " AND t.service_id = ?",
          (params ++ [default "" (q_service_id q)])%list)
    else (sql, params) in
  let '(sql, params) :=
    if JS.truthy (q_counter_id q)
    then (sql +:+ " AND t.counter_id = ?",
          (params ++ [default "" (q_counter_id q)])%list)
    else (sql, params) in
  let '(sql, params) :=
    if JS.truthy (q_served_by q)
    then (sql +:+ " AND t.served_by = ?",
          (params ++ [default "" (q_served_by q)])%list)
    else (sql, params) in
  let '(sql, params) :=
    if JS.truthy (q_date q)
    then (sql +:+ " AND DATE(t.created_at) = ?",
          (params ++ [default "" (q_date q)])%list)
    else (sql, params) in
  let '(sql, params) :=
    if JS.truthy (q_start_date q)
    then (sql +:+ " AND t.created_at >= ?",
          (params ++ [default "" (q_start_date q)])%list)
    else (sql, params) in
  let sql := sql +:+ list_order (q_sort q) in
  let sql := sql +:+ " LIMIT " +:+ Number_toString (list_limit (q_limit q)) in
  (sql, params).

End list_tickets.

(** [CALL name(?,...,?)] of [callProcedure] in config/database. *)
Definition callProcedure_sql {A : Type} (procedureName : string)
    (params : list A) : string :=
  "CALL " +:+ procedureName +:+ "(" +:+ placeholders params +:+ ")".

(** The shape the filter blocks of the builders share: when the
    condition holds, a clause is added to the text and its values to the
    parameters. *)
Definition add_filter {P : Type} (b : bool) (clause : string) (values : list P)
    (acc : string * list P) : string * list P :=
  if b then (acc.1 +:+ clause, (acc.2 ++ values)%list) else acc.

(** The statuses asked for: the pieces between commas, trimmed. *)
Definition list_statuses (trim : string → string) (q : list_request)
  : list string :=
  map trim (split_on "," (default "" (q_status q))).

(** The WHERE clause of GET /tickets and its parameters, block by
    block. *)
Definition list_filters (trim : string → string) (q : list_request)
  : string * list string :=
  add_filter (JS.truthy (q_start_date q)) " AND t.created_at >= ?"
    [default "" (q_start_date q)]
    (add_filter (JS.truthy (q_date q)) " AND DATE(t.created_at) = ?"
       [default "" (q_date q)]
       (add_filter (JS.truthy (q_served_by q)) " AND t.served_by = ?"
          [default "" (q_served_by q)]
          (add_filter (JS.truthy (q_counter_id q)) " AND t.counter_id = ?"
             [default "" (q_counter_id q)]
             (add_filter (JS.truthy (q_service_id q)) " AND t.service_id = ?"
                [default "" (q_service_id q)]
                (add_filter (JS.truthy (q_status q))
                   (" AND t.status IN (" +:+ placeholders (list_statuses trim q)
                    +:+ ")")
                   (list_statuses trim q)
                   (add_filter (JS.truthy (q_branch_id q)) " AND t.branch_id = ?"
                      [default "" (q_branch_id q)]
                      (list_select, []))))))).

(** A value bound to a placeholder: a string, a number, or a date. *)
Inductive param :=
| PString (s : string)
| PNumber (z : Z)
| PDate (at_ : Z).

(** The query string of GET /announcements. *)
Record announcements_request := {
  a_branch_id : option string;
  a_is_active : option string;
  a_include_global : option string
}.

Definition announcements_select : string :=
  String.concat newline
    [""; "      SELECT ";
     "        a.*,";
     "        b.name as branch_name,";
     "        u.name as creator_name";
     "      FROM announcements a";
     "      LEFT JOIN branches b ON a.branch_id = b.id";
     "      LEFT JOIN users u ON a.created_by = u.id";
     "      WHERE 1=1";
     "    "].

(** The statement and the parameters GET /announcements sends; [now] is
    the server's clock. *)
Definition announcements_query (q : announcements_request) (now : Z)
  : string * list param :=
  let sql := announcements_select in
  let params : list param := [] in
  let '(sql, params) :=
    if JS.truthy (a_branch_id q) then
      if bool_decide (a_include_global q = Some "true")
      then (sql +:+ " AND (a.branch_id = ? OR a.branch_id IS NULL)",
            (params ++ [PString (default "" (a_branch_id q))])%list)
      else (sql +:+ " AND a.branch_id = ?",
            (params ++ [PString (default "" (a_branch_id q))])%list)
    else (sql, params) in
  let '(sql, params) :=
    match a_is_active q with
    | Some is_active =>
        (sql +:+ " AND a.is_active = ?",
         (params ++ [PNumber (if String.eqb is_active "true" then 1 else 0)])%list)
    | None => (sql, params)
    end in
  let '(sql, params) :=
    if bool_decide (a_is_active q = Some "true") then
      ((sql +:+ " AND (a.start_date IS NULL OR a.start_date <= ?)")
       +:+ " AND (a.end_date IS NULL OR a.end_date >= ?)",
       ((params ++ [PDate now]) ++ [PDate now])%list)
    else (sql, params) in
  let sql := sql +:+ " ORDER BY a.priority DESC, a.created_at DESC" in
  (sql, params).

(** The parameters that are dates. *)
Definition is_date (p : param) : bool :=
  match p with
  | PDate _ => true
  | _ => false
  end.

(** A request for tickets with every field but three absent. *)
Definition demo_list (status sort : option string) : list_request :=
  {| q_branch_id := Some "B1"; q_status := status; q_service_id := None;
     q_counter_id := None; q_date := None; q_start_date := None;
     q_served_by := None; q_sort := sort; q_limit := None |}.

(** ** Facts about strings and formatting *)

Section formatting.

Lemma pretty_N_go_length_le (x : N) (s : string) :
  (String.length s ≤ String.length (pretty_N_go x s))%nat.
Proof.
  revert s. induction (N.lt_wf_0 x) as [x _ IH]; intros s.
  destruct (decide (x = 0)%N) as [->|Hx]; [by rewrite pretty_N_go_0|].
  rewrite pretty_N_go_step by lia.
  etrans; [|apply IH; apply N.div_lt; lia]. simpl; lia.
Qed.

Lemma pretty_N_go_length (k : nat) (x : N) (s : string) :
  (10 ^ N.of_nat k ≤ x)%N →
  (k + 1 + String.length s ≤ String.length (pretty_N_go x s))%nat.
Proof.
  revert x s. induction k as [|k IH]; intros x s Hx.
  - rewrite pretty_N_go_step by (simpl in Hx; lia).
    etrans; [|apply pretty_N_go_length_le]. simpl; lia.
  - assert (10 ^ N.of_nat k > 0)%N by (apply N.lt_gt, N.neq_0_lt_0, N.pow_nonzero; lia).
    assert (10 ^ N.of_nat (S k) = 10 * 10 ^ N.of_nat k)%N as Hpow.
    { rewrite Nat2N.inj_succ, N.pow_succ_r'. done. }
    rewrite pretty_N_go_step by lia.
    etrans; [|apply IH].
    + simpl; lia.
    + apply N.div_le_lower_bound; lia.
Qed.

(** A number of at least [10^k] has more than [k] digits. *)
Lemma String_length (k n : nat) :
  (10 ^ k ≤ n)%nat → (k < String.length (JS.String_ n))%nat.
Proof.
  intros Hn. unfold JS.String_, pretty, pretty_nat, pretty, pretty_N.
  assert (10 ^ N.of_nat k ≤ N.of_nat n)%N as Hle.
  { replace 10%N with (N.of_nat 10) by done.
    rewrite <-Nat2N.inj_pow. lia. }
  assert (0 < 10 ^ k)%nat by (apply Nat.neq_0_lt_0, Nat.pow_nonzero; lia).
  case_decide; [lia|].
  pose proof (pretty_N_go_length k (N.of_nat n) "" Hle). simpl in *. lia.
Qed.

Lemma repeat_string_length (k : nat) (c : ascii) :
  String.length (JS.repeat_string k (String c "")) = k.
Proof.
  induction k as [|k IH]; [done|].
  change (JS.repeat_string (S k) (String c ""))
    with (String c (JS.repeat_string k (String c ""))).
  simpl. by rewrite IH.
Qed.

Lemma substring_all (s : string) : String.substring 0 (String.length s) s = s.
Proof. induction s; simpl; congruence. Qed.

(** [padStart] with a one-character pad puts the missing number of
    pad characters in front. *)
Lemma padStart_char (target : nat) (c : ascii) (s : string) :
  JS.padStart target (String c "") s
  = JS.repeat_string (target - String.length s) (String c "") +:+ s.
Proof.
  unfold JS.padStart.
  destruct (Nat.leb_spec target (String.length s)) as [Hle|Hlt].
  - replace (target - String.length s)%nat with 0%nat by lia. done.
  - simpl.
    rewrite <-(repeat_string_length (target - String.length s) c) at 1.
    by rewrite substring_all.
Qed.

Lemma padStart_long (target : nat) (pad s : string) :
  (target ≤ String.length s)%nat → JS.padStart target pad s = s.
Proof.
  intros Hle. unfold JS.padStart.
  by destruct (Nat.leb_spec target (String.length s)); [|lia].
Qed.

End formatting.

(** ** The row the dispatcher selects *)

Section select.

Lemma lower_rank (p q : option Z) :
  lower p q = true ↔
  ((rank p).1 < (rank q).1 ∨ ((rank p).1 = (rank q).1 ∧ (rank p).2 < (rank q).2))%Z.
Proof. destruct p, q; cbn; lia. Qed.

Lemma rank_inj (p q : option Z) : rank p = rank q ↔ p = q.
Proof.
  split; [|by intros ->]. destruct p, q; cbn; intros [=]; congruence.
Qed.

(** [before] as a comparison of integers. *)
Lemma before_rank (t1 t2 : ticket) :
  before t1 t2 = true ↔
  let r1 := rank (priority_level t1) in
  let r2 := rank (priority_level t2) in
  (r2.1 < r1.1 ∨ (r2.1 = r1.1 ∧ r2.2 < r1.2)
   ∨ (r1.1 = r2.1 ∧ r1.2 = r2.2 ∧ created_at t1 < created_at t2))%Z.
Proof.
  unfold before. rewrite orb_true_iff, andb_true_iff, lower_rank.
  rewrite bool_decide_eq_true, Z.ltb_lt, <-rank_inj. cbn zeta.
  destruct (rank (priority_level t1)) as [a1 b1],
    (rank (priority_level t2)) as [a2 b2]; cbn.
  split.
  - intros [[?|[? ?]]|[[= -> ->] ?]]; lia.
  - intros [?|[[? ?]|(-> & -> & ?)]]; [left; lia|left; lia|by right].
Qed.

Lemma not_before_rank (t1 t2 : ticket) :
  before t1 t2 = false ↔
  let r1 := rank (priority_level t1) in
  let r2 := rank (priority_level t2) in
  (r1.1 < r2.1 ∨ (r1.1 = r2.1 ∧ r1.2 < r2.2)
   ∨ (r1.1 = r2.1 ∧ r1.2 = r2.2 ∧ created_at t2 ≤ created_at t1))%Z.
Proof.
  rewrite <-not_true_iff_false, before_rank. cbn zeta. lia.
Qed.

Lemma before_irrefl (t : ticket) : before t t = false.
Proof. apply not_before_rank. cbn zeta. lia. Qed.

Lemma before_trans (t1 t2 t3 : ticket) :
  before t1 t2 = true → before t2 t3 = true → before t1 t3 = true.
Proof. rewrite !before_rank. cbn zeta. lia. Qed.

(** Not sorting before is transitive as well: the order is a strict
    weak order. *)
Lemma not_before_trans (t1 t2 t3 : ticket) :
  before t1 t2 = false → before t2 t3 = false → before t1 t3 = false.
Proof. rewrite !not_before_rank. cbn zeta. lia. Qed.

(** A row that does not sort before another: its priority is NULL, or
    both are numbers and it is not the higher one; and at equal priority
    it is not the older one. *)
Lemma before_spec (t1 t2 : ticket) :
  before t1 t2 = false ↔
  match priority_level t1, priority_level t2 with
  | Some p1, Some p2 => (p1 ≤ p2)%Z
  | None, _ => True
  | Some _, None => False
  end
  ∧ (priority_level t1 = priority_level t2 → created_at t2 ≤ created_at t1)%Z.
Proof.
  rewrite not_before_rank. cbn zeta.
  destruct (priority_level t1) as [p1|], (priority_level t2) as [p2|]; cbn;
    split; try lia.
  - intros [?|[[_ ?]|(_ & -> & ?)]]; (split; [lia|]); intros [=]; lia.
  - intros [Hle Heq]. destruct (decide (p1 = p2)) as [->|];
      [right; right; auto|lia].
  - intros _. split; [done|]. intros [=].
  - intros [_ Heq]. right. right. auto.
Qed.

(** The fold keeps a row that nothing seen so far sorts before. *)
Lemma foldl_pick (rows : list (string * ticket)) (acc : option (string * ticket)) :
  match foldl pick acc rows with
  | Some best =>
      (Some best = acc ∨ best ∈ rows)
      ∧ (∀ b, acc = Some b → before b.2 best.2 = false)
      ∧ (∀ row, row ∈ rows → before row.2 best.2 = false)
  | None => acc = None ∧ rows = []
  end.
Proof.
  revert acc. induction rows as [|row rows IH]; intros acc; simpl.
  - destruct acc as [b|]; [|done].
    split; [by left|]. split; [|by intros ? ?%elem_of_nil].
    intros ? [= <-]. apply before_irrefl.
  - specialize (IH (pick acc row)).
    destruct (foldl pick (pick acc row) rows) as [best|]; last first.
    { destruct IH as [Hacc _]. by destruct acc as [b|]; simpl in Hacc; [destruct (before _ _)|]. }
    destruct IH as (Hin & Hacc & Hrows).
    assert (before row.2 best.2 = false
            ∧ ∀ b, acc = Some b → before b.2 best.2 = false) as [Hrow Hb].
    { destruct acc as [b|]; simpl in *.
      - destruct (before row.2 b.2) eqn:Hrb.
        + pose proof (Hacc _ eq_refl) as Hr. split; [done|].
          intros ? [= <-]. 
          destruct (before b.2 best.2) eqn:E; [|done].
          pose proof (before_trans _ _ _ Hrb E). congruence.
        + pose proof (Hacc _ eq_refl) as Hr. split; [|by intros ? [= <-]].
          eapply not_before_trans; eauto.
      - split; [|done]. by apply Hacc. }
    split; [|split; [done|]].
    + destruct Hin as [Hin|Hin]; [|right; by apply elem_of_cons; right].
      destruct acc as [b|]; simpl in Hin.
      * destruct (before _ _); simplify_eq; [right; apply elem_of_cons|]; auto.
      * simplify_eq. right. apply elem_of_cons; auto.
    + intros r [->|Hr]%elem_of_cons; auto.
Qed.

Context (d : db) (cid : string) (sid : option string).

Lemma select_next_None :
  select_next d cid sid = None ↔
  ∀ id row, tickets d !! id = Some row →
            matches (counter_branch d cid) sid row = false.
Proof.
  unfold select_next.
  pose proof (foldl_pick
    (filter (λ row, matches (counter_branch d cid) sid row.2 = true)
       (map_to_list (tickets d))) None) as H.
  destruct (foldl pick None _) as [best|]; simpl; split.
  - done.
  - intros Hall. destruct H as ([|Hin] & _); [done|].
    apply list_elem_of_filter in Hin as [Hm Hin].
    destruct best as [id row]. apply elem_of_map_to_list in Hin.
    simpl in Hm. rewrite (Hall _ _ Hin) in Hm. done.
  - intros _ id row Hrow. destruct H as [_ Hnil].
    destruct (matches _ _ row) eqn:Hm; [|done].
    assert ((id, row) ∈ filter (λ row, matches (counter_branch d cid) sid row.2 = true)
              (map_to_list (tickets d))) as Hin.
    { apply list_elem_of_filter. split; [done|]. by apply elem_of_map_to_list. }
    rewrite Hnil in Hin. by apply elem_of_nil in Hin.
  - done.
Qed.

Lemma select_next_Some (id : string) :
  select_next d cid sid = Some id →
  ∃ row, tickets d !! id = Some row
         ∧ matches (counter_branch d cid) sid row = true
         ∧ ∀ id' row', tickets d !! id' = Some row' →
                       matches (counter_branch d cid) sid row' = true →
                       before row' row = false.
Proof.
  unfold select_next.
  pose proof (foldl_pick
    (filter (λ row, matches (counter_branch d cid) sid row.2 = true)
       (map_to_list (tickets d))) None) as H.
  destruct (foldl pick None _) as [[id0 row]|]; simpl; [|done].
  intros [= ->]. destruct H as ([|Hin] & _ & Hmin); [done|].
  apply list_elem_of_filter in Hin as [Hm Hin]. apply elem_of_map_to_list in Hin.
  exists row. split; [done|]. split; [done|].
  intros id' row' Hrow' Hm'.
  apply (Hmin (id', row')). apply list_elem_of_filter.
  split; [done|]. by apply elem_of_map_to_list.
Qed.

End select.

(** ** Symbolic runs of the handlers *)

Lemma filter_held {K} `{Countable K} (t : nat) (k : K) :
  filter (λ kv : K * nat, kv.2 ≠ t) (<[k := t]> (∅ : gmap K nat)) = ∅.
Proof.
  rewrite map_filter_insert_False by (simpl; tauto).
  rewrite delete_empty. apply map_filter_empty.
Qed.

Lemma filter_held_none {K} `{Countable K} (t : nat) :
  filter (λ kv : K * nat, kv.2 ≠ t) (∅ : gmap K nat) = ∅.
Proof. apply map_filter_empty. Qed.

Lemma head_prefix (d : db) (sid : string) :
  mjoin (head match services d !! sid with
              | Some s => [svc_prefix s]
              | None => []
              end) = services d !! sid ≫= svc_prefix.
Proof. by destruct (services d !! sid). Qed.

(** The foreign keys hold when the service and the branch have a row. *)
Lemma references_rows (d : db) (sid bid : string) :
  is_Some (services d !! sid) → is_Some (branches d !! bid) →
  references (services d) (branches d) sid bid = true.
Proof.
  intros Hs Hb. unfold references.
  by rewrite !bool_decide_eq_true_2.
Qed.


(** The sequence row after the upsert. *)
Lemma upserted_lookup (m : gmap seq_key nat) (k : seq_key) :
  match m !! k with
  | Some _ => m
  | None => <[k := 0%nat]> m
  end !! k = Some (default 0%nat (m !! k)).
Proof. destruct (m !! k) eqn:E; [done|]. by rewrite lookup_insert_eq. Qed.

(** A world that was at rest is at rest again once every connection is
    back and no lock is left. *)
Lemma at_rest_again (w : world) :
  seq_locks w = ∅ → ticket_locks w = ∅ → free w = connectionLimit →
  w = at_rest (store w) (emitted w).
Proof. destruct w; cbn. by intros -> -> ->. Qed.

(** One step of evaluation of a run: compute, look a lock up, release the
    locks, or use a known row. *)
Ltac sym1 :=
  first
    [ progress cbn
    | progress (unfold lockable, holder, unlock_all, view, with_store, log,
                at_rest, acquired, released, with_free, pool_done,
                connectionLimit)
    | rewrite filter_held
    | rewrite filter_held_none
    | rewrite lookup_alter_eq
    | rewrite lookup_empty
    | rewrite lookup_insert_eq
    | rewrite Nat.eqb_refl
    | rewrite insert_insert_eq
    | rewrite head_prefix
    | rewrite upserted_lookup
    | match goal with H : references _ _ _ _ = _ |- _ => rewrite H end
    | match goal with H : _ !! _ = _ |- _ => rewrite H end
    | match goal with H : select_next _ _ _ = _ |- _ => rewrite H end ].
Ltac sym := repeat sym1.

(** Case analysis on the next injected fault. *)
Ltac fault_split :=
  match goal with
  | |- context [attempt _ _ _ ?fs _] =>
      is_var fs; let fs' := fresh "fs" in destruct fs as [|[|] fs']
  end.
Ltac all_faults := cbn; repeat (fault_split; sym).

Lemma with_tickets_alter_absent (f : ticket → ticket) (id : string) (d : db) :
  tickets d !! id = None → with_tickets (alter f id) d = d.
Proof.
  intros Hid. destruct d as [sv ct br sq tk]; unfold with_tickets; simpl in *.
  f_equal. apply map_eq. intros i. rewrite lookup_alter.
  case_decide; [|done]. subst. by rewrite Hid.
Qed.

(** ** Every way a request can end

    Each handler is run from a world at rest under every list of faults.
    The property of the outcome is kept out of the way while the run is
    evaluated. *)

Ltac hide_post post Hpost :=
  match goal with
  | |- ∃ r c w, @?E r c w ∧ @?P r c w =>
      let Hall := fresh "Hall" in
      enough (∀ post : option response → conn → world → Prop,
                (∀ r c w, P r c w → post r c w) → ∃ r c w, E r c w ∧ post r c w)
        as Hall by (apply (Hall P); auto);
      intros post Hpost
  end.

Ltac outcome Hpost :=
  eexists _, _, _;
  (split; [reflexivity|
           apply Hpost; cbn;
           repeat match goal with
                  | |- _ ∧ _ => split
                  | |- is_Some None → _ =>
                      let H := fresh in intros H; by destruct H
                  | |- _ → _ => let H := fresh in intros H; try discriminate H
                  end; eauto 6]).

Section outcomes.

Context (t : nat) (d : db) (evs : list event).

(** Whatever fails, a creation that passed validation answers 201 or 500
    or throws; it has published its event only after its transaction was
    committed, and answers 201 only after both; and when it answers, it
    has given its connection back and holds no lock. *)
Lemma post_ticket_outcomes req today id now fs :
  JS.truthy (req_service_id req) = true →
  JS.truthy (req_branch_id req) = true →
  let d' := created d req today id now in
  let j := join d' id (row_of d req (current d (key_of req today)) now) in
  let ok := tickets d !! id = None
            ∧ references (services d) (branches d)
                (default "" (req_service_id req))
                (default "" (req_branch_id req)) = true in
  ∃ r c w,
    run t (post_ticket req today id now) idle fs (at_rest d evs) = Finished r c w
    ∧ ((r = Some {| http := 201; json := Ticket (Some j) |}
        ∨ r = Some {| http := 500; json := Error "Failed to create ticket" |}
        ∨ r = None)
       ∧ (store w = d ∨ (ok ∧ store w = d'))
       ∧ (emitted w = evs
          ∨ (emitted w = ticket_created (Plain j) :: evs ∧ ok ∧ store w = d'))
       ∧ (r = Some {| http := 201; json := Ticket (Some j) |} →
          emitted w = ticket_created (Plain j) :: evs ∧ ok ∧ store w = d')
       ∧ (is_Some r → c = idle ∧ w = at_rest (store w) (emitted w))).
Proof.
  intros Hs Hb d' j ok. hide_post post Hpost.
  subst d' j ok. unfold post_ticket. rewrite Hs, Hb.
  simpl negb; simpl orb; cbv iota.
  unfold created, row_of, current, key_of, prefix_of in Hpost.
  destruct (references (services d) (branches d)
              (default "" (req_service_id req))
              (default "" (req_branch_id req))) eqn:Hfk;
    destruct (tickets d !! id) as [old|] eqn:Hid;
    all_faults; outcome Hpost.
Qed.

(** A creation that failed validation. *)
Lemma post_ticket_invalid req today id now fs :
  JS.truthy (req_service_id req) && JS.truthy (req_branch_id req) = false →
  ∃ r c w,
    run t (post_ticket req today id now) idle fs (at_rest d evs) = Finished r c w
    ∧ ((r = Some {| http := 400;
                    json := Error "service_id and branch_id are required" |}
        ∨ r = None)
       ∧ store w = d ∧ emitted w = evs
       ∧ (is_Some r → c = idle ∧ w = at_rest d evs)).
Proof.
  intros Hv. hide_post post Hpost. unfold post_ticket.
  destruct (JS.truthy (req_service_id req)), (JS.truthy (req_branch_id req));
    try discriminate Hv; simpl negb; simpl orb; cbv iota;
    all_faults; outcome Hpost.
Qed.

Lemma call_next_outcomes req now fs :
  JS.truthy (call_counter_id req) = true →
  let cid := default "" (call_counter_id req) in
  ∃ r c w,
    run t (call_next req now) idle fs (at_rest d evs) = Finished r c w
    ∧ (match select_next d cid (call_service_id req) with
       | None =>
           (r = Some {| http := 200; json := NoTicket "No tickets in queue" |}
            ∨ r = Some {| http := 500; json := Error "Failed to call next ticket" |}
            ∨ r = None)
           ∧ store w = d ∧ emitted w = evs
       | Some id =>
           ∃ row, tickets d !! id = Some row ∧
           let d' := dispatched d cid now id in
           let tj := transform (join d' id (serve cid now row)) in
           (r = Some {| http := 200; json := Called tj |}
            ∨ r = Some {| http := 500; json := Error "Failed to call next ticket" |}
            ∨ r = None)
           ∧ (store w = d ∨ store w = d')
           ∧ (emitted w = evs
              ∨ (store w = d'
                 ∧ (emitted w = ticket_updated (Nested tj) :: evs
                    ∨ emitted w = ticket_called (Nested tj)
                                  :: ticket_updated (Nested tj) :: evs)))
           ∧ (r = Some {| http := 200; json := Called tj |} →
              store w = d'
              ∧ emitted w = ticket_called (Nested tj)
                            :: ticket_updated (Nested tj) :: evs)
       end
       ∧ (is_Some r → c = idle ∧ w = at_rest (store w) (emitted w))).
Proof.
  intros Hc cid. subst cid.
  destruct (select_next d _ _) as [id|] eqn:Hsel.
  - destruct (select_next_Some _ _ _ _ Hsel) as (row & Hrow & _).
    hide_post post Hpost. unfold call_next, dispatched in *. rewrite Hc.
    simpl negb; cbv iota.
    all_faults; eexists _, _, _;
      (split; [reflexivity|
               apply Hpost; (split; [exists row; split; [done|]; cbn;
               split; [auto|split; [auto|split; [auto 6|intros Hr; first [discriminate Hr|auto]]]]|
               cbn; intros Hr; first [by destruct Hr as [? [=]]|auto]])]).
  - hide_post post Hpost. unfold call_next. rewrite Hc. simpl negb; cbv iota.
    all_faults; outcome Hpost.
Qed.

Lemma call_next_invalid req now fs :
  JS.truthy (call_counter_id req) = false →
  ∃ r c w,
    run t (call_next req now) idle fs (at_rest d evs) = Finished r c w
    ∧ ((r = Some {| http := 400; json := Error "counter_id is required" |}
        ∨ r = None)
       ∧ store w = d ∧ emitted w = evs
       ∧ (is_Some r → c = idle ∧ w = at_rest d evs)).
Proof.
  intros Hv. hide_post post Hpost. unfold call_next. rewrite Hv.
  simpl negb; cbv iota. all_faults; outcome Hpost.
Qed.

(** The status patch always answers, and leaves the pool and the locks
    as they were.  For an id that names no ticket the answer is 500: the
    emitter throws on the ticket it is not given. *)
Lemma patch_ticket_outcomes id req user now fs :
  updates req user ≠ [] →
  let d' := apply_write (WUpdateSet now (updates req user) id) d in
  ∃ r c w,
    run t (patch_ticket id req user now) idle fs (at_rest d evs) = Finished r c w
    ∧ (match tickets d !! id with
       | Some row =>
           let j := join d' id (foldl (λ t a, assign now a t) row
                                  (updates req user)) in
           (r = Some {| http := 200; json := Ticket (Some j) |}
            ∨ r = Some {| http := 500; json := Error "Failed to update ticket" |})
           ∧ (emitted w = evs
              ∨ (emitted w = ticket_updated (Plain j) :: evs ∧ store w = d'))
           ∧ (store w = d ∨ store w = d')
           ∧ (r = Some {| http := 200; json := Ticket (Some j) |} →
              emitted w = ticket_updated (Plain j) :: evs ∧ store w = d')
       | None =>
           r = Some {| http := 500; json := Error "Failed to update ticket" |}
           ∧ store w = d ∧ emitted w = evs
       end
       ∧ c = idle ∧ w = at_rest (store w) (emitted w)).
Proof.
  intros Hne d'. hide_post post Hpost. subst d'. unfold patch_ticket.
  destruct (updates req user) as [|a sets] eqn:Hupd; [done|].
  destruct (tickets d !! id) as [row|] eqn:Hrow.
  - all_faults; outcome Hpost.
  - all_faults; outcome Hpost.
Qed.

Lemma delete_ticket_outcomes id now fs :
  ∃ r c w,
    run t (delete_ticket id now) idle fs (at_rest d evs) = Finished r c w
    ∧ (match tickets d !! id with
       | None =>
           (r = Some {| http := 404; json := Error "Ticket not found" |}
            ∨ r = Some {| http := 500; json := Error "Failed to delete ticket" |})
           ∧ store w = d ∧ emitted w = evs
       | Some row =>
           let d' := apply_write (WUpdateCancelled now id) d in
           (r = Some {| http := 200; json := Success |}
            ∨ r = Some {| http := 500; json := Error "Failed to delete ticket" |})
           ∧ (emitted w = evs
              ∨ (emitted w = ticket_deleted id (branch_id row) :: evs ∧ store w = d'))
           ∧ (store w = d ∨ store w = d')
           ∧ (r = Some {| http := 200; json := Success |} →
              emitted w = ticket_deleted id (branch_id row) :: evs ∧ store w = d')
       end
       ∧ c = idle ∧ w = at_rest (store w) (emitted w)).
Proof.
  hide_post post Hpost. unfold delete_ticket.
  destruct (tickets d !! id) as [row|] eqn:Hrow; all_faults; outcome Hpost.
Qed.

End outcomes.

Section runs.

Context (t : nat) (d : db) (evs : list event).

Lemma post_ticket_rejected req today id now :
  JS.truthy (req_service_id req) && JS.truthy (req_branch_id req) = false →
  run t (post_ticket req today id now) idle [] (at_rest d evs)
  = Finished (Some {| http := 400;
                      json := Error "service_id and branch_id are required" |})
      idle (at_rest d evs).
Proof.
  intros Hv. unfold post_ticket.
  by destruct (JS.truthy (req_service_id req)), (JS.truthy (req_branch_id req)).
Qed.

Lemma post_ticket_created req today id now :
  JS.truthy (req_service_id req) = true →
  JS.truthy (req_branch_id req) = true →
  is_Some (services d !! default "" (req_service_id req)) →
  is_Some (branches d !! default "" (req_branch_id req)) →
  tickets d !! id = None →
  let d' := created d req today id now in
  let j := join d' id (row_of d req (current d (key_of req today)) now) in
  run t (post_ticket req today id now) idle [] (at_rest d evs)
  = Finished (Some {| http := 201; json := Ticket (Some j) |}) idle
      (at_rest d' (ticket_created (Plain j) :: evs)).
Proof.
  intros Hs Hb Hsv Hbr Hid. unfold post_ticket. rewrite Hs, Hb.
  pose proof (references_rows d _ _ Hsv Hbr) as Hfk.
  unfold created, row_of, current, key_of, prefix_of.
  sym; reflexivity.
Qed.

(** Whatever fails, a creation ends or waits for nothing, and it leaves
    the committed tables as they were or as the whole transaction makes
    them. *)
Lemma post_ticket_atomic req today id now fs :
  ∃ r c w,
    run t (post_ticket req today id now) idle fs (at_rest d evs) = Finished r c w
    ∧ (store w = d
       ∨ (tickets d !! id = None ∧ store w = created d req today id now)).
Proof.
  destruct (JS.truthy (req_service_id req) && JS.truthy (req_branch_id req))
    eqn:Hv.
  - apply andb_prop in Hv as [Hs Hb].
    destruct (post_ticket_outcomes t d evs req today id now fs Hs Hb)
      as (r & c & w & Hrun & _ & Hst & _).
    exists r, c, w. split; [done|]. destruct Hst as [?|[[? _] ?]]; auto.
  - destruct (post_ticket_invalid t d evs req today id now fs Hv)
      as (r & c & w & Hrun & _ & Hst & _).
    exists r, c, w. auto.
Qed.

(** A statement of the transaction fails, COMMIT included: the handler
    rolls back and answers 500, and the world is as before the request. *)
Lemma post_ticket_fault req today id now (i : nat) :
  JS.truthy (req_service_id req) = true →
  JS.truthy (req_branch_id req) = true →
  is_Some (services d !! default "" (req_service_id req)) →
  is_Some (branches d !! default "" (req_branch_id req)) →
  tickets d !! id = None →
  (i < 7)%nat →
  run t (post_ticket req today id now) idle (false :: replicate i false ++ [true])
    (at_rest d evs)
  = Finished (Some {| http := 500; json := Error "Failed to create ticket" |})
      idle (at_rest d evs).
Proof.
  intros Hs Hb Hsv Hbr Hid Hi. unfold post_ticket. rewrite Hs, Hb.
  pose proof (references_rows d _ _ Hsv Hbr) as Hfk.
  do 7 (destruct i as [|i]; [sym; reflexivity|]); lia.
Qed.

(** The uuid is taken: the INSERT fails on the primary key. *)
Lemma post_ticket_duplicate req today id now old :
  JS.truthy (req_service_id req) = true →
  JS.truthy (req_branch_id req) = true →
  tickets d !! id = Some old →
  run t (post_ticket req today id now) idle [] (at_rest d evs)
  = Finished (Some {| http := 500; json := Error "Failed to create ticket" |})
      idle (at_rest d evs).
Proof.
  intros Hs Hb Hid. unfold post_ticket. rewrite Hs, Hb.
  sym; reflexivity.
Qed.


Lemma call_next_rejected req now :
  JS.truthy (call_counter_id req) = false →
  run t (call_next req now) idle [] (at_rest d evs)
  = Finished (Some {| http := 400; json := Error "counter_id is required" |})
      idle (at_rest d evs).
Proof. intros Hc. unfold call_next. by rewrite Hc. Qed.

Lemma call_next_empty req now :
  JS.truthy (call_counter_id req) = true →
  select_next d (default "" (call_counter_id req)) (call_service_id req) = None →
  run t (call_next req now) idle [] (at_rest d evs)
  = Finished (Some {| http := 200; json := NoTicket "No tickets in queue" |})
      idle (at_rest d evs).
Proof.
  intros Hc Hsel. unfold call_next. rewrite Hc. sym; reflexivity.
Qed.

Lemma call_next_served req now id row :
  JS.truthy (call_counter_id req) = true →
  select_next d (default "" (call_counter_id req)) (call_service_id req) = Some id →
  tickets d !! id = Some row →
  let cid := default "" (call_counter_id req) in
  let d' := dispatched d cid now id in
  let tj := transform (join d' id (serve cid now row)) in
  run t (call_next req now) idle [] (at_rest d evs)
  = Finished (Some {| http := 200; json := Called tj |}) idle
      (at_rest d' (ticket_called (Nested tj) :: ticket_updated (Nested tj) :: evs)).
Proof.
  intros Hc Hsel Hrow. unfold call_next, dispatched. rewrite Hc.
  sym. reflexivity.
Qed.

Lemma call_next_atomic req now fs :
  ∃ r c w,
    run t (call_next req now) idle fs (at_rest d evs) = Finished r c w
    ∧ (store w = d
       ∨ ∃ id, select_next d (default "" (call_counter_id req))
                 (call_service_id req) = Some id
               ∧ store w = dispatched d (default "" (call_counter_id req)) now id).
Proof.
  destruct (JS.truthy (call_counter_id req)) eqn:Hv.
  - destruct (call_next_outcomes t d evs req now fs Hv)
      as (r & c & w & Hrun & Hr & _).
    exists r, c, w. split; [done|].
    destruct (select_next d _ _) as [id|].
    + destruct Hr as (row & _ & _ & [?|?] & _); eauto.
    + destruct Hr as (_ & ? & _). auto.
  - destruct (call_next_invalid t d evs req now fs Hv)
      as (r & c & w & Hrun & _ & Hst & _).
    exists r, c, w. auto.
Qed.

Lemma patch_ticket_done id req user now row :
  updates req user ≠ [] →
  tickets d !! id = Some row →
  let d' := apply_write (WUpdateSet now (updates req user) id) d in
  let j := join d' id (foldl (λ t a, assign now a t) row (updates req user)) in
  run t (patch_ticket id req user now) idle [] (at_rest d evs)
  = Finished (Some {| http := 200; json := Ticket (Some j) |}) idle
      (at_rest d' (ticket_updated (Plain j) :: evs)).
Proof.
  intros Hne Hrow. unfold patch_ticket.
  destruct (updates req user) as [|a sets] eqn:Hupd; [done|].
  sym. reflexivity.
Qed.

(** No ticket has the id: the UPDATE changes nothing, the re-read finds
    nothing, and the emitter throws on the ticket it is not given. *)
Lemma patch_ticket_unknown id req user now :
  updates req user ≠ [] →
  tickets d !! id = None →
  run t (patch_ticket id req user now) idle [] (at_rest d evs)
  = Finished (Some {| http := 500; json := Error "Failed to update ticket" |})
      idle (at_rest d evs).
Proof.
  intros Hne Hrow. unfold patch_ticket.
  destruct (updates req user) as [|a sets] eqn:Hupd; [done|].
  sym. reflexivity.
Qed.

Lemma patch_ticket_atomic id req user now fs :
  ∃ r c w,
    run t (patch_ticket id req user now) idle fs (at_rest d evs) = Finished r c w
    ∧ (store w = d
       ∨ store w = apply_write (WUpdateSet now (updates req user) id) d).
Proof.
  destruct (decide (updates req user = [])) as [Hnil|Hne].
  { unfold patch_ticket. rewrite Hnil. eexists _, _, _. split; [done|by left]. }
  destruct (patch_ticket_outcomes t d evs id req user now fs Hne)
    as (r & c & w & Hrun & Hr & _).
  exists r, c, w. split; [done|].
  destruct (tickets d !! id) as [row|].
  - by destruct Hr as (_ & _ & ? & _).
  - destruct Hr as (_ & ? & _). auto.
Qed.

Lemma delete_ticket_done id now row :
  tickets d !! id = Some row →
  run t (delete_ticket id now) idle [] (at_rest d evs)
  = Finished (Some {| http := 200; json := Success |}) idle
      (at_rest (apply_write (WUpdateCancelled now id) d)
         (ticket_deleted id (branch_id row) :: evs)).
Proof. intros Hrow. unfold delete_ticket. sym. reflexivity. Qed.

Lemma delete_ticket_atomic id now fs :
  ∃ r c w,
    run t (delete_ticket id now) idle fs (at_rest d evs) = Finished r c w
    ∧ (store w = d
       ∨ store w = apply_write (WUpdateCancelled now id) d).
Proof.
  destruct (delete_ticket_outcomes t d evs id now fs)
    as (r & c & w & Hrun & Hr & _).
  exists r, c, w. split; [done|].
  destruct (tickets d !! id) as [row|].
  - by destruct Hr as (_ & _ & ? & _).
  - destruct Hr as (_ & ? & _). auto.
Qed.

End runs.

(** ** What a committed creation leaves in the tables *)

Section created.

Context (d : db) (req : create_request) (today id : string) (now : Z).

Lemma created_sequences :
  ticket_sequences (created d req today id now)
  = <[key_of req today := (current d (key_of req today) + 1)%nat]> (ticket_sequences d).
Proof.
  unfold created, current. cbn.
  destruct (ticket_sequences d !! key_of req today) as [n|] eqn:Hk; cbn.
  - apply map_eq. intros k. rewrite lookup_alter, lookup_insert.
    case_decide; subst; rewrite ?Hk; reflexivity.
  - apply map_eq. intros k. rewrite lookup_alter, !lookup_insert.
    case_decide; subst; [|reflexivity]. by rewrite decide_True.
Qed.

Lemma created_current (k : seq_key) :
  current (created d req today id now) k
  = if decide (k = key_of req today) then (current d k + 1)%nat else current d k.
Proof.
  unfold current at 1. rewrite created_sequences, lookup_insert.
  repeat case_decide; subst; try done.
Qed.

Lemma created_monotone (k : seq_key) :
  (current d k ≤ current (created d req today id now) k)%nat.
Proof. rewrite created_current. case_decide; lia. Qed.

Lemma created_tickets :
  tickets (created d req today id now)
  = <[id := row_of d req (current d (key_of req today)) now]> (tickets d).
Proof. reflexivity. Qed.

Lemma created_services : services (created d req today id now) = services d.
Proof. reflexivity. Qed.

Lemma created_prefix (req' : create_request) :
  prefix_of (created d req today id now) req' = prefix_of d req'.
Proof. reflexivity. Qed.

End created.

Lemma dispatched_sequences (d : db) (cid : string) (now : Z) (id : string) :
  ticket_sequences (dispatched d cid now id) = ticket_sequences d.
Proof. reflexivity. Qed.

(** ** Creations served one after the other *)

Lemma issue_numbers (t : nat) (today sid bid : string)
    (jobs : list (create_request * string * Z)) :
  sid ≠ "" → bid ≠ "" →
  ∀ (d : db) (evs : list event),
    (∀ job, job ∈ jobs →
            req_service_id job.1.1 = Some sid ∧ req_branch_id job.1.1 = Some bid) →
    is_Some (services d !! sid) → is_Some (branches d !! bid) →
    NoDup (jobs.*1.*2) →
    (∀ id, id ∈ jobs.*1.*2 → tickets d !! id = None) →
    let k := (sid, bid, today) in
    let prefix := JS.or_default (services d !! sid ≫= svc_prefix) "TKT" in
    ∃ rs d' evs',
      issue t today k jobs (at_rest d evs) = (rs, at_rest d' evs')
      ∧ rs.*2 = seq (current d k + 1) (length jobs)
      ∧ issued_number <$> rs.*1
        = (λ n, Some (ticketNumber prefix n)) <$> seq (current d k + 1) (length jobs)
      ∧ current d' k = (current d k + length jobs)%nat.
Proof.
  intros Hsid Hbid.
  induction jobs as [|[[req id] now] jobs IH];
    intros d evs Hreq Hsv Hbr Hnd Hfresh k prefix; subst k prefix.
  - exists [], d, evs. simpl. repeat split; lia.
  - destruct (Hreq (req, id, now)) as [Hs Hb]; [by left|]. simpl in Hs, Hb.
    assert (JS.truthy (req_service_id req) = true) as Hst.
    { rewrite Hs. simpl. by destruct (String.eqb_spec sid ""). }
    assert (JS.truthy (req_branch_id req) = true) as Hbt.
    { rewrite Hb. simpl. by destruct (String.eqb_spec bid ""). }
    assert (key_of req today = (sid, bid, today)) as Hk
      by (unfold key_of; by rewrite Hs, Hb).
    assert (prefix_of d req = JS.or_default (services d !! sid ≫= svc_prefix) "TKT")
      as Hp by (unfold prefix_of; by rewrite Hs).
    simpl in Hnd. apply NoDup_cons in Hnd as [Hid Hnd].
    assert (tickets d !! id = None) as Hnew by (apply Hfresh; simpl; by left).
    cbn [issue].
    rewrite (post_ticket_created t d evs req today id now Hst Hbt); [|by rewrite ?Hs, ?Hb..|done].
    set (d1 := created d req today id now).
    destruct (IH d1 (ticket_created (Plain (join d1 id (row_of d req (current d (key_of req today)) now))) :: evs))
      as (rs & d' & evs' & Hrun & Hvals & Hnums & Hcur).
    { intros job Hjob. apply Hreq. by right. }
    { done. }
    { done. }
    { done. }
    { intros id' Hid'. unfold d1. rewrite created_tickets, lookup_insert_ne.
      - apply Hfresh. simpl. by right.
      - intros ->. done. }
    assert (current d1 (sid, bid, today) = current d (sid, bid, today) + 1)%nat as Hc1.
    { unfold d1. rewrite created_current, Hk. by rewrite decide_True. }
    rewrite Hrun. eexists _, d', evs'. split; [reflexivity|].
    cbn [fmap list_fmap length seq]. rewrite Hk.
    fold (fmap (M:=list) (@snd (option response) nat)).
    fold (fmap (M:=list) (@fst (option response) nat)).
    fold (fmap (M:=list) issued_number).
    rewrite Hvals, Hnums, Hcur, Hc1.
    replace (current d (sid, bid, today) + 1 + 1)%nat
      with (S (current d (sid, bid, today) + 1)) by lia.
    split; [|split].
    + f_equal. exact Hc1.
    + f_equal. cbn. by rewrite Hp.
    + lia.
Qed.

(** ** The WHERE clause of the dispatcher *)

Lemma matches_spec (d : db) (cid : string) (sid : option string) (row : ticket) :
  matches (counter_branch d cid) sid row = true ↔
  status row = "waiting"
  ∧ (∃ c, counters d !! cid = Some c ∧ ctr_branch_id c = Some (branch_id row))
  ∧ (∀ s, sid = Some s → s ≠ "" → service_id row = s).
Proof.
  unfold matches, counter_branch. rewrite !andb_true_iff, String.eqb_eq.
  split.
  - intros [[Hst Hbr] Hsv]. split; [done|]. split.
    + destruct (counters d !! cid) as [c|]; [|done]. cbn in Hbr.
      destruct (ctr_branch_id c) as [b|] eqn:Hb; [|done].
      apply String.eqb_eq in Hbr. exists c. by rewrite Hb, Hbr.
    + intros s -> Hs. cbn in Hsv.
      destruct (String.eqb_spec s ""); [done|]. cbn in Hsv.
      by apply String.eqb_eq in Hsv.
  - intros (Hst & (c & Hc & Hb) & Hsv). split; [split; [done|]|].
    + rewrite Hc. cbn. rewrite Hb. apply String.eqb_refl.
    + destruct sid as [s|]; [|done]. cbn.
      destruct (String.eqb_spec s ""); [done|]. cbn.
      apply String.eqb_eq. by apply Hsv.
Qed.

(** ** What a dispatch leaves in the tables *)

Lemma serve_not_waiting (b sid : option string) (cid : string) (now : Z)
    (row : ticket) :
  matches b sid (serve cid now row) = false.
Proof. reflexivity. Qed.

Lemma dispatched_tickets (d : db) (cid : string) (now : Z) (id id' : string) :
  tickets (dispatched d cid now id) !! id'
  = if decide (id = id') then serve cid now <$> tickets d !! id
    else tickets d !! id'.
Proof. unfold dispatched. cbn. apply lookup_alter. Qed.

(** A row that matches after a dispatch is a row that matched before,
    and not the dispatched one. *)
Lemma dispatched_matches (d : db) (cid cid' : string) (sid : option string)
    (now : Z) (id id' : string) (row' : ticket) :
  tickets (dispatched d cid now id) !! id' = Some row' →
  matches (counter_branch (dispatched d cid now id) cid') sid row' = true →
  id' ≠ id ∧ tickets d !! id' = Some row'
  ∧ matches (counter_branch d cid') sid row' = true.
Proof.
  rewrite dispatched_tickets. intros Hrow Hm. case_decide as Hid.
  - subst id'. destruct (tickets d !! id) as [row|]; simplify_eq/=.
  - done.
Qed.

(** ** What the status patch and the delete write *)

(** The status the patch leaves: the one supplied when one is supplied. *)
Lemma updates_status (now : Z) (req : patch_request) (user : string)
    (row : ticket) :
  status (foldl (λ t a, assign now a t) row (updates req user))
  = if JS.truthy (patch_status req) then default "" (patch_status req)
    else status row.
Proof.
  unfold updates.
  destruct (JS.truthy (patch_status req));
    destruct (JS.truthy (patch_counter_id req));
    destruct (JS.truthy (patch_notes req));
    try destruct (String.eqb _ "serving");
    try destruct (bool_decide _);
    reflexivity.
Qed.

Lemma cancel_status (now : Z) (row : ticket) : status (cancel now row) = "cancelled".
Proof. reflexivity. Qed.

(** ** Concurrent call-next requests *)

Lemma call_next_start (req : call_request) (now : Z) :
  JS.truthy (call_counter_id req) = true →
  call_next req now
  = (exec GetConnection;;
     in_call (call_begin (default "" (call_counter_id req))
                (call_service_id req) now)).
Proof. intros Hc. unfold call_next. rewrite Hc. reflexivity. Qed.

(** The connections with the threads, when one thread moves. *)
Lemma sum_list_insert_eq (l : list nat) (i x y : nat) :
  l !! i = Some x → (sum_list (<[i := y]> l) + x = sum_list l + y)%nat.
Proof.
  revert i. induction l as [|z l IH]; intros [|i] Hi; simplify_eq/=.
  - lia.
  - specialize (IH _ Hi). lia.
Qed.

Lemma sum_list_positive (l : list nat) :
  sum_list l ≠ 0%nat → ∃ i x, l !! i = Some x ∧ x ≠ 0%nat.
Proof.
  induction l as [|z l IH]; [done|]. cbn. intros Hne.
  destruct (decide (z = 0%nat)) as [->|Hz].
  - destruct IH as (i & x & Hi & Hx); [done|]. by exists (S i), x.
  - by exists 0%nat, z.
Qed.

Lemma Exists_lookup {A} (P : A → Prop) (l : list A) :
  Exists P l ↔ ∃ j x, l !! j = Some x ∧ P x.
Proof.
  rewrite Exists_exists. split.
  - intros (x & Hx & HP). apply list_elem_of_lookup in Hx as [j Hj]. eauto.
  - intros (j & x & Hj & HP). exists x. split; [|done].
    apply list_elem_of_lookup. eauto.
Qed.

Lemma lookup_insert_phase (phs : list phase) (i j : nat) (ph ph' x : phase) :
  phs !! i = Some ph →
  <[i := ph']> phs !! j = Some x ↔
  (j = i ∧ x = ph') ∨ (j ≠ i ∧ phs !! j = Some x).
Proof.
  intros Hi. destruct (decide (j = i)) as [->|Hne].
  - rewrite list_lookup_insert_eq by (by eapply lookup_lt_Some). split.
    + intros [= <-]. by left.
    + intros [[_ ->]|[? _]]; done.
  - rewrite list_lookup_insert_ne by done. split.
    + intros Hj. by right.
    + intros [[? _]|[_ Hj]]; done.
Qed.

Section invariant_kept.

Context (d0 : db) (reqs : list (call_request * Z)) (phs : list phase)
  (w w' : world) (i : nat) (req : call_request) (now : Z) (ph ph' : phase).
Context (Hinv : invariant d0 reqs phs w).
Context (Hreq : reqs !! i = Some (req, now)) (Hph : phs !! i = Some ph).

(** One thread moves from [ph] to [ph'] and the world from [w] to [w']:
    what to check for the invariant to hold again. *)
Lemma invariant_step :
  (free w' + connections ph' = free w + connections ph)%nat →
  services (store w') = services (store w) →
  counters (store w') = counters (store w) →
  branches (store w') = branches (store w) →
  (∀ id j, ticket_locks w' !! id = Some j
           ↔ if decide (j = i) then locks_row id ph' = true
             else ticket_locks w !! id = Some j) →
  (∀ id, served_row id ph = true → served_row id ph' = true) →
  (∀ id, served_row id ph' = served_row id ph →
         tickets (store w') !! id = tickets (store w) !! id) →
  (∀ st id row, ph' = Holding st id row →
     tickets d0 !! id = Some row
     ∧ matches (counter_branch d0 (default "" (call_counter_id req)))
         (call_service_id req) row = true
     ∧ (committed st = true →
        tickets (store w') !! id
        = Some (serve (default "" (call_counter_id req)) now row))
     ∧ ∀ j stj rowj, phs !! j = Some (Holding stj id rowj) → j = i) →
  (saw_empty ph' = true →
   saw_empty ph = true
   ∨ ∀ id row,
       tickets d0 !! id = Some row →
       matches (counter_branch d0 (default "" (call_counter_id req)))
         (call_service_id req) row = true →
       Exists (λ ph, served_row id ph = true) phs) →
  invariant d0 reqs (<[i := ph']> phs) w'.
Proof.
  intros Hfree Hsv Hct Hbr Hlk Hmono Hrows Hnew Hemp.
  assert (∀ id, Exists (λ ph, served_row id ph = true) phs →
                Exists (λ ph, served_row id ph = true) (<[i := ph']> phs)) as Hex.
  { intros id (j & x & Hj & Hx)%Exists_lookup. apply Exists_lookup.
    destruct (decide (j = i)) as [->|Hne].
    - exists i, ph'. split; [by apply lookup_insert_phase with ph; auto|].
      apply Hmono. congruence.
    - exists j, x. split; [|done]. apply lookup_insert_phase with ph; auto. }
  assert (∀ j stj idj rowj, j ≠ i → phs !! j = Some (Holding stj idj rowj) →
            served_row idj ph' = false ∧ served_row idj ph = false) as Hother.
  { intros j stj idj rowj Hne Hj. split.
    - destruct ph' as [| | |st' id' row'| | |]; try done. simpl.
      destruct (Hnew st' id' row' eq_refl) as (_ & _ & _ & Honly).
      case_bool_decide; [|by rewrite andb_false_r]. subst id'.
      by destruct (Hne (Honly _ _ _ Hj)).
    - destruct ph as [| | |st id row| | |]; try done. simpl.
      case_bool_decide; [|by rewrite andb_false_r]. subst id.
      by destruct (Hne (eq_sym (inv_distinct _ _ _ _ Hinv _ _ _ _ _ _ _ Hph Hj))). }
  split.
  - rewrite length_insert. apply Hinv.
  - pose proof (inv_free _ _ _ _ Hinv) as Hf.
    pose proof (sum_list_insert_eq (connections <$> phs) i (connections ph)
                  (connections ph')) as Hsum.
    rewrite list_lookup_fmap, Hph in Hsum. specialize (Hsum eq_refl).
    rewrite list_fmap_insert. lia.
  - rewrite Hsv. apply Hinv.
  - rewrite Hct. apply Hinv.
  - rewrite Hbr. apply Hinv.
  - intros id j. rewrite Hlk. case_decide as Hj.
    + subst j. split.
      * intros Hl. exists ph'. split; [|done]. apply lookup_insert_phase with ph; auto.
      * intros (x & Hx & Hl). apply lookup_insert_phase with (ph:=ph) in Hx; [|done].
        destruct Hx as [[_ ->]|[? _]]; done.
    + rewrite (inv_locks _ _ _ _ Hinv). split.
      * intros (x & Hx & Hl). exists x. split; [|done].
        apply lookup_insert_phase with ph; auto.
      * intros (x & Hx & Hl). apply lookup_insert_phase with (ph:=ph) in Hx; [|done].
        destruct Hx as [[? _]|[_ Hx]]; [done|]. eauto.
  - intros j reqj nowj st id row Hrj Hj.
    apply lookup_insert_phase with (ph:=ph) in Hj; [|done].
    destruct Hj as [[-> Hp]|[Hne Hj]].
    + assert (reqj = req ∧ nowj = now) as [-> ->] by (split; congruence).
      destruct (Hnew _ _ _ (eq_sym Hp)) as (? & ? & ? & _). done.
    + destruct (inv_claim _ _ _ _ Hinv _ _ _ _ _ _ Hrj Hj) as (Hrow & Hm & Hst).
      split; [done|]. split; [done|]. intros Hc. rewrite Hrows; [by apply Hst|].
      destruct (Hother _ _ _ _ Hne Hj) as [-> ->]. done.
  - intros j1 j2 st1 st2 id row1 row2 H1 H2.
    apply lookup_insert_phase with (ph:=ph) in H1; [|done].
    apply lookup_insert_phase with (ph:=ph) in H2; [|done].
    destruct H1 as [[-> Hp1]|[Hne1 H1]], H2 as [[-> Hp2]|[Hne2 H2]].
    + done.
    + destruct (Hnew _ _ _ (eq_sym Hp1)) as (_ & _ & _ & Honly).
      symmetry. by eapply Honly.
    + destruct (Hnew _ _ _ (eq_sym Hp2)) as (_ & _ & _ & Honly).
      by eapply Honly.
    + by eapply (inv_distinct _ _ _ _ Hinv).
  - intros id Hnone.
    assert (¬ Exists (λ ph, served_row id ph = true) phs) as Hnone' by auto.
    assert (served_row id ph' = false) as Hf'.
    { destruct (served_row id ph') eqn:E; [|done]. destruct Hnone.
      apply Exists_lookup. exists i, ph'. split; [|done].
      apply lookup_insert_phase with ph; auto. }
    assert (served_row id ph = false) as Hf.
    { destruct (served_row id ph) eqn:E; [|done]. destruct Hnone'.
      apply Exists_lookup. eauto. }
    rewrite Hrows by congruence. by apply (inv_store _ _ _ _ Hinv).
  - intros j reqj nowj x Hrj Hj Hsaw id row Hrow Hm. apply Hex.
    apply lookup_insert_phase with (ph:=ph) in Hj; [|done].
    destruct Hj as [[-> ->]|[Hne Hj]].
    + assert (reqj = req ∧ nowj = now) as [-> ->] by (split; congruence).
      destruct (Hemp Hsaw) as [Hold|Hall].
      * by eapply (inv_empty _ _ _ _ Hinv i req now ph).
      * by eapply Hall.
    + by eapply (inv_empty _ _ _ _ Hinv j reqj nowj x).
Qed.

End invariant_kept.

Lemma join_tables (d d' : db) (id : string) (row : ticket) :
  services d = services d' → counters d = counters d' →
  branches d = branches d' → join d id row = join d' id row.
Proof. intros Hs Hc Hb. unfold join. by rewrite Hs, Hc, Hb. Qed.

Lemma counter_branch_tables (d d' : db) (cid : string) :
  counters d = counters d' → counter_branch d cid = counter_branch d' cid.
Proof. intros Hc. unfold counter_branch. by rewrite Hc. Qed.

Section facts.

Context (d0 : db) (reqs : list (call_request * Z)) (phs : list phase) (w : world).
Context (Hinv : invariant d0 reqs phs w).

Lemma phase_request (i : nat) (ph : phase) :
  phs !! i = Some ph → ∃ req now, reqs !! i = Some (req, now).
Proof.
  intros Hi. apply lookup_lt_Some in Hi. rewrite (inv_length _ _ _ _ Hinv) in Hi.
  destruct (lookup_lt_is_Some_2 reqs i Hi) as [[req now] Hr]. eauto.
Qed.

(** A row some thread has committed is not waiting any more. *)
Lemma served_not_waiting (id : string) (b sid : option string) (row : ticket) :
  Exists (λ ph, served_row id ph = true) phs →
  tickets (store w) !! id = Some row →
  matches b sid row = false.
Proof.
  intros (j & x & Hj & Hx)%Exists_lookup Hrow.
  destruct x as [| | |st id' row'| | |]; try done. simpl in Hx.
  apply andb_prop in Hx as [Hc Hid]. apply bool_decide_eq_true in Hid. subst id'.
  destruct (phase_request _ _ Hj) as (reqj & nowj & Hrj).
  destruct (inv_claim _ _ _ _ Hinv _ _ _ _ _ _ Hrj Hj) as (_ & _ & Hst).
  rewrite (Hst Hc) in Hrow. by injection Hrow as <-.
Qed.

(** The row a thread holds the lock of is still as it was. *)
Lemma held_row (i : nat) (st : stage) (id : string) (row : ticket) :
  phs !! i = Some (Holding st id row) → holds st = true →
  tickets (store w) !! id = Some row.
Proof.
  intros Hi Hst.
  destruct (phase_request _ _ Hi) as (req & now & Hr).
  destruct (inv_claim _ _ _ _ Hinv _ _ _ _ _ _ Hr Hi) as (Hrow & _ & _).
  rewrite <-Hrow. apply (inv_store _ _ _ _ Hinv).
  intros (j & x & Hj & Hx)%Exists_lookup.
  destruct x as [| | |stj id' row'| | |]; try done. simpl in Hx.
  apply andb_prop in Hx as [Hc Hid]. apply bool_decide_eq_true in Hid. subst id'.
  assert (i = j) as <- by (by eapply (inv_distinct _ _ _ _ Hinv)).
  assert (stj = st) as -> by congruence.
  unfold committed in Hc. by rewrite Hst in Hc.
Qed.

Lemma held_lock (i : nat) (st : stage) (id : string) (row : ticket) :
  phs !! i = Some (Holding st id row) → holds st = true →
  ticket_locks w !! id = Some i.
Proof.
  intros Hi Hst. apply (inv_locks _ _ _ _ Hinv). eexists. split; [done|].
  simpl. rewrite Hst. by rewrite bool_decide_eq_true_2.
Qed.

(** A thread that holds no lock has no entry in the lock table. *)
Lemma no_lock (i : nat) (ph : phase) (id : string) :
  phs !! i = Some ph → (∀ id, locks_row id ph = false) →
  ticket_locks w !! id ≠ Some i.
Proof.
  intros Hi Hno Hl. apply (inv_locks _ _ _ _ Hinv) in Hl as (x & Hx & Hl).
  assert (x = ph) as -> by congruence. by rewrite Hno in Hl.
Qed.

Context (w' : world) (i : nat) (ph ph' : phase) (Hph : phs !! i = Some ph).

Lemma locks_kept :
  ticket_locks w' = ticket_locks w →
  (∀ id, locks_row id ph' = locks_row id ph) →
  ∀ id j, ticket_locks w' !! id = Some j
          ↔ if decide (j = i) then locks_row id ph' = true
            else ticket_locks w !! id = Some j.
Proof.
  intros -> Hsame id j. case_decide as Hj; [|done]. subst j.
  rewrite (inv_locks _ _ _ _ Hinv), Hsame. split.
  - intros (x & Hx & Hl). congruence.
  - intros Hl. eauto.
Qed.

Lemma locks_released :
  ticket_locks w' = filter (λ kv, kv.2 ≠ i) (ticket_locks w) →
  (∀ id, locks_row id ph' = false) →
  ∀ id j, ticket_locks w' !! id = Some j
          ↔ if decide (j = i) then locks_row id ph' = true
            else ticket_locks w !! id = Some j.
Proof.
  intros -> Hnone id j. rewrite map_lookup_filter_Some. simpl.
  case_decide as Hj.
  - subst j. rewrite Hnone. split; [by intros [_ ?]|done].
  - split; [by intros [? _]|done].
Qed.

Lemma locks_acquired (st : stage) (id0 : string) (row : ticket) :
  ticket_locks w' = <[id0 := i]> (ticket_locks w) →
  (∀ id, locks_row id ph = false) →
  lockable i w (TicketRow id0) = true →
  ph' = Holding st id0 row → holds st = true →
  ∀ id j, ticket_locks w' !! id = Some j
          ↔ if decide (j = i) then locks_row id ph' = true
            else ticket_locks w !! id = Some j.
Proof.
  intros -> Hnone Hfree -> Hst id j. simpl. rewrite Hst. simpl.
  rewrite lookup_insert.
  destruct (decide (j = i)) as [->|Hj], (decide (id0 = id)) as [->|Hid].
  - by rewrite bool_decide_eq_true_2.
  - rewrite bool_decide_eq_false_2 by done. split; [|done].
    intros Hl. by destruct (no_lock i ph id Hph Hnone).
  - split; [congruence|].
    intros Hl. unfold lockable, holder in Hfree. rewrite Hl in Hfree.
    apply Nat.eqb_eq in Hfree. done.
  - done.
Qed.

End facts.

Lemma with_store_same (w : world) : with_store (store w) w = w.
Proof. by destruct w. Qed.

(** The first step: a connection is taken from the pool, when one is
    free. *)
Lemma step_connect (i : nat) (p : prog response) (c : conn) (w : world) :
  step_thread i {| code := exec GetConnection;; p; connection := c; faults := [] |} w
  = match acquired w with
    | Some w' => Some ({| code := p; connection := c; faults := [] |}, w')
    | None => None
    end.
Proof. unfold step_thread. cbn. by destruct (acquired w). Qed.

Lemma acquired_free (w w' : world) :
  acquired w = Some w' →
  free w = S (free w') ∧ store w' = store w
  ∧ seq_locks w' = seq_locks w ∧ ticket_locks w' = ticket_locks w
  ∧ emitted w' = emitted w.
Proof.
  unfold acquired. destruct (free w) as [|n] eqn:Hf; [done|].
  by intros [= <-].
Qed.

Lemma acquired_None (w : world) : acquired w = None ↔ free w = 0%nat.
Proof. unfold acquired. by destruct (free w). Qed.

(** A step of a thread inside the try block of call-next: the statement
    is sent, and the handler goes on with its answer. *)
Lemma step_in_call {A : Type} (i : nat) (s : stmt A) (q : A → prog response)
    (c : conn) (w : world) :
  step_thread i {| code := in_call (exec s ≫= q); connection := c; faults := [] |} w
  = match exec_stmt i s c w with
    | Some (o, c', w') =>
        Some ({| code := in_call match o with Ok a => q a | Failed => Throw end;
                 connection := c'; faults := [] |}, w')
    | None => None
    end.
Proof.
  unfold step_thread, in_call. cbn.
  destruct (exec_stmt i s c w) as [[[[a|] c'] w']|]; reflexivity.
Qed.

(** The last step: the connection goes back to the pool. *)
Lemma step_release (i : nat) (r : response) (c : conn) (w : world) :
  step_thread i {| code := in_call (Ret r); connection := c; faults := [] |} w
  = Some ({| code := Ret r; connection := c; faults := [] |}, released w).
Proof. reflexivity. Qed.

Section thread_step.

Context (d0 : db) (reqs : list (call_request * Z)) (phs : list phase)
  (w : world) (i : nat) (req : call_request) (now : Z).
Context (Hinv : invariant d0 reqs phs w).
Context (Hreq : reqs !! i = Some (req, now)).
Context (Hcid : JS.truthy (call_counter_id req) = true).

(** A step that changes no table and gives the thread nothing new; it
    leaves the locks, or releases those of the thread. *)
Lemma quiet_step (ph ph' : phase) (w' : world) :
  phs !! i = Some ph →
  (free w' + connections ph' = free w + connections ph)%nat →
  store w' = store w →
  (ticket_locks w' = ticket_locks w
   ∧ ∀ id, locks_row id ph' = locks_row id ph)
  ∨ (ticket_locks w' = filter (λ kv, kv.2 ≠ i) (ticket_locks w)
     ∧ ∀ id, locks_row id ph' = false) →
  (∀ id, served_row id ph' = served_row id ph) →
  saw_empty ph' = saw_empty ph →
  (∀ st id row, ph' = Holding st id row →
                ∃ st0, ph = Holding st0 id row ∧ committed st = committed st0) →
  invariant d0 reqs (<[i := ph']> phs) w'.
Proof.
  intros Hph Hfree Hst Hlk Hserved Hsaw Hsame.
  apply (invariant_step d0 reqs phs w w' i req now ph ph' Hinv Hreq Hph);
    rewrite ?Hst; try done.
  - destruct Hlk as [[Hlk Hlocks]|[Hlk Hlocks]].
    + by apply (locks_kept d0 reqs phs w Hinv w' i ph ph').
    + by apply (locks_released w w' i ph').
  - intros id. by rewrite Hserved.
  - intros st id row ->. destruct (Hsame _ _ _ eq_refl) as (st0 & -> & Hc).
    destruct (inv_claim _ _ _ _ Hinv _ _ _ _ _ _ Hreq Hph) as (Hrow & Hm & Hcom).
    split; [done|]. split; [done|]. split.
    + intros Hc'. apply Hcom. congruence.
    + intros j stj rowj Hj. symmetry. by eapply (inv_distinct _ _ _ _ Hinv).
  - intros Hs. left. congruence.
Qed.

Lemma step_start (th' : thread response) (w' : world) :
  phs !! i = Some Start →
  step_thread i (thread_at d0 req now Start) w = Some (th', w') →
  ∃ ph', th' = thread_at d0 req now ph'
         ∧ invariant d0 reqs (<[i := ph']> phs) w'
         ∧ (remaining ph' < remaining Start)%nat.
Proof.
  intros Hph. unfold thread_at. cbn [code_at conn_at].
  rewrite call_next_start by done. rewrite step_connect.
  destruct (acquired w) as [w1|] eqn:Hacq; [|done].
  apply acquired_free in Hacq as (Hf & Hst & Hsl & Htl & Hev).
  intros [= <- <-]. exists Connected. split; [done|]. split; [|simpl; lia].
  apply (quiet_step Start); try done; [cbn; lia|by left].
Qed.

Lemma step_connected (th' : thread response) (w' : world) :
  phs !! i = Some Connected →
  step_thread i (thread_at d0 req now Connected) w = Some (th', w') →
  ∃ ph', th' = thread_at d0 req now ph'
         ∧ invariant d0 reqs (<[i := ph']> phs) w'
         ∧ (remaining ph' < remaining Connected)%nat.
Proof.
  intros Hph. unfold thread_at. cbn [code_at conn_at].
  unfold call_begin at 1. rewrite step_in_call. cbn.
  intros [= <- <-]. exists Begun. split; [done|]. split; [|simpl; lia].
  apply (quiet_step Connected); try done. by left.
Qed.

Lemma step_begun (th' : thread response) (w' : world) :
  phs !! i = Some Begun →
  step_thread i (thread_at d0 req now Begun) w = Some (th', w') →
  ∃ ph', th' = thread_at d0 req now ph'
         ∧ invariant d0 reqs (<[i := ph']> phs) w'
         ∧ (remaining ph' < remaining Begun)%nat.
Proof.
  intros Hph. unfold thread_at. cbn [code_at conn_at].
  unfold call_select at 1. rewrite step_in_call. cbn.
  change (foldr apply_write (store w) []) with (store w).
  assert (counter_branch (store w) (default "" (call_counter_id req))
          = counter_branch d0 (default "" (call_counter_id req))) as Hbr
    by (apply counter_branch_tables, Hinv).
  destruct (select_next (store w) _ _) as [id|] eqn:Hsel.
  - destruct (lockable i w (TicketRow id)) eqn:Hfree; [|done].
    intros [= <- <-].
    destruct (select_next_Some _ _ _ _ Hsel) as (row & Hrow & Hm & _).
    assert (¬ Exists (λ ph, served_row id ph = true) phs) as Hunserved.
    { intros Hex.
      by rewrite (served_not_waiting d0 reqs phs w Hinv id _ _ row Hex Hrow) in Hm. }
    assert (tickets d0 !! id = Some row) as Hd0
      by (by rewrite <-(inv_store _ _ _ _ Hinv id Hunserved)).
    exists (Holding Locked id row). split; [done|]. split; [|simpl; lia].
    apply (invariant_step d0 reqs phs w _ i req now Begun _ Hinv Hreq Hph);
      try done.
    + by apply (locks_acquired d0 reqs phs w Hinv _ i Begun _ Hph Locked id row).
    + intros st id' row' [= <- <- <-]. split; [done|].
      split; [by rewrite <-Hbr|]. split; [done|].
      intros j stj rowj Hj. destruct (holds stj) eqn:Hst.
      * pose proof (held_lock d0 reqs phs w Hinv j stj id rowj Hj Hst) as Hl.
        unfold lockable, holder in Hfree. rewrite Hl in Hfree.
        by apply Nat.eqb_eq in Hfree.
      * destruct Hunserved. apply Exists_lookup. exists j, (Holding stj id rowj).
        split; [done|]. simpl. unfold committed. rewrite Hst.
        by rewrite bool_decide_eq_true_2.
  - intros [= <- <-]. exists Empty. split; [done|]. split; [|simpl; lia].
    rewrite select_next_None in Hsel.
    apply (invariant_step d0 reqs phs w _ i req now Begun _ Hinv Hreq Hph);
      try done.
    + by apply (locks_kept d0 reqs phs w Hinv w i Begun Empty).
    + intros _. right. intros id row Hrow Hm.
      destruct (decide (Exists (λ ph, served_row id ph = true) phs)) as [|Hno];
        [done|].
      rewrite <-(inv_store _ _ _ _ Hinv id Hno) in Hrow.
      rewrite Hbr in Hsel. by rewrite (Hsel _ _ Hrow) in Hm.
Qed.

Lemma step_holding (st : stage) (id : string) (row : ticket)
    (th' : thread response) (w' : world) :
  phs !! i = Some (Holding st id row) →
  step_thread i (thread_at d0 req now (Holding st id row)) w = Some (th', w') →
  ∃ ph', th' = thread_at d0 req now ph'
         ∧ invariant d0 reqs (<[i := ph']> phs) w'
         ∧ (remaining ph' < remaining (Holding st id row))%nat.
Proof.
  intros Hph. unfold thread_at. cbn [code_at conn_at].
  destruct (inv_claim _ _ _ _ Hinv _ _ _ _ _ _ Hreq Hph) as (Hd0 & Hm & Hcom).
  destruct st.
  - (* UPDATE *)
    pose proof (held_row d0 reqs phs w Hinv i _ id row Hph eq_refl) as Hrow.
    pose proof (held_lock d0 reqs phs w Hinv i _ id row Hph eq_refl) as Hl.
    unfold call_update at 1. rewrite step_in_call. cbn.
    change (foldr apply_write (store w) []) with (store w). rewrite Hrow.
    unfold locking, lockable, holder. cbn. rewrite Hl, Nat.eqb_refl.
    intros [= <- <-]. exists (Holding Updated id row).
    split; [done|]. split; [|simpl; lia].
    apply (quiet_step (Holding Locked id row)); try done.
    + left. split; [cbn; by apply insert_id|done].
    + intros ??? [= <- <- <-]. by exists Locked.
  - (* COMMIT *)
    pose proof (held_row d0 reqs phs w Hinv i _ id row Hph eq_refl) as Hrow.
    unfold call_commit at 1. rewrite step_in_call. cbn.
    intros [= <- <-]. exists (Holding Committed id row).
    split; [done|]. split; [|simpl; lia].
    apply (invariant_step d0 reqs phs w _ i req now _ _ Hinv Hreq Hph);
      try done.
    + by apply (locks_released w _ i (Holding Committed id row)).
    + intros id' Hs. cbn in Hs. cbn.
      rewrite lookup_alter_ne; [done|]. intros <-.
      by rewrite bool_decide_eq_true_2 in Hs.
    + intros ??? [= <- <- <-]. split; [done|]. split; [done|]. split.
      * intros _. cbn. by rewrite lookup_alter_eq, Hrow.
      * intros j stj rowj Hj. symmetry. by eapply (inv_distinct _ _ _ _ Hinv).
  - (* the re-read *)
    unfold call_reread at 1. rewrite step_in_call. cbn.
    rewrite (Hcom eq_refl).
    rewrite (join_tables (store w) d0) by apply Hinv.
    intros [= <- <-]. exists (Holding Reread id row).
    split; [done|]. split; [|simpl; lia].
    apply (quiet_step (Holding Committed id row)); try done.
    + by left.
    + intros ??? [= <- <- <-]. by exists Committed.
  - (* ticket:updated *)
    unfold call_emit_updated at 1. unfold emitTicketUpdated at 1.
    rewrite step_in_call. cbn.
    intros [= <- <-]. exists (Holding EmittedUpdated id row).
    split; [done|]. split; [|simpl; lia].
    apply (quiet_step (Holding Reread id row)); try done.
    + by left.
    + intros ??? [= <- <- <-]. by exists Reread.
  - (* ticket:called *)
    unfold call_emit_called at 1. unfold emitTicketCalled at 1.
    rewrite step_in_call. cbn.
    intros [= <- <-]. exists (Holding EmittedCalled id row).
    split; [done|]. split; [|simpl; lia].
    apply (quiet_step (Holding EmittedUpdated id row)); try done.
    + by left.
    + intros ??? [= <- <- <-]. by exists EmittedUpdated.
  - (* release *)
    unfold call_answer at 1. rewrite step_release.
    intros [= <- <-]. exists (Holding Answered id row).
    split; [done|]. split; [|simpl; lia].
    apply (quiet_step (Holding EmittedCalled id row)); try done.
    + cbn. lia.
    + by left.
    + intros ??? [= <- <- <-]. by exists EmittedCalled.
  - done.
Qed.

Lemma step_empty (ph : phase) (th' : thread response) (w' : world) :
  phs !! i = Some ph → saw_empty ph = true →
  step_thread i (thread_at d0 req now ph) w = Some (th', w') →
  ∃ ph', th' = thread_at d0 req now ph'
         ∧ invariant d0 reqs (<[i := ph']> phs) w'
         ∧ (remaining ph' < remaining ph)%nat.
Proof.
  intros Hph Hsaw. unfold thread_at.
  destruct ph; try done; cbn [code_at conn_at].
  - unfold call_commit_empty at 1. rewrite step_in_call. cbn.
    intros [= <- <-]. exists EmptyCommitted.
    split; [done|]. split; [|simpl; lia].
    apply (quiet_step Empty); try done. by right.
  - unfold call_no_ticket at 1. rewrite step_release.
    intros [= <- <-]. exists AnsweredEmpty.
    split; [done|]. split; [|simpl; lia].
    apply (quiet_step EmptyCommitted); try done; [cbn; lia|by left].
Qed.

(** Every step of a thread takes it to its next program point, keeps
    the invariant and leaves it fewer statements to send. *)
Lemma thread_step (ph : phase) (th' : thread response) (w' : world) :
  phs !! i = Some ph →
  step_thread i (thread_at d0 req now ph) w = Some (th', w') →
  ∃ ph', th' = thread_at d0 req now ph'
         ∧ invariant d0 reqs (<[i := ph']> phs) w'
         ∧ (remaining ph' < remaining ph)%nat.
Proof.
  intros Hph Hstep. destruct ph.
  - by apply step_start.
  - by apply step_connected.
  - by apply step_begun.
  - by apply step_holding.
  - by apply (step_empty Empty).
  - by apply (step_empty EmptyCommitted).
  - done.
Qed.

End thread_step.

Global Instance ended_dec (th : thread response) : Decision (ended th).
Proof. unfold ended. destruct (code th); apply _. Defined.

Lemma sum_list_insert (l : list nat) (i x y : nat) :
  l !! i = Some x → (y < x)%nat →
  (sum_list (<[i := y]> l) < sum_list l)%nat.
Proof.
  revert i. induction l as [|z l IH]; intros [|i] Hi Hlt; simplify_eq/=.
  - lia.
  - specialize (IH _ Hi Hlt). lia.
Qed.

(** ** Systems of threads that move along program points

    Requests of one kind, each thread at one of the program points of
    its handler; an invariant of the program points and the shared world
    that every step keeps; a count of the statements a thread has left,
    that every step lowers; and a thread that cannot step waits for one
    that can. *)
Section phased.

Context {Req Phase : Type}.
Context (thread_at : Req → Phase → thread response).
Context (inv : list Req → list Phase → world → Prop).
Context (remaining : Phase → nat).

Hypothesis thread_steps : ∀ reqs phs w i r ph th' w',
  inv reqs phs w → reqs !! i = Some r → phs !! i = Some ph →
  step_thread i (thread_at r ph) w = Some (th', w') →
  ∃ ph', th' = thread_at r ph'
         ∧ inv reqs (<[i := ph']> phs) w'
         ∧ (remaining ph' < remaining ph)%nat.

Hypothesis thread_waits : ∀ reqs phs w i r ph,
  inv reqs phs w → reqs !! i = Some r → phs !! i = Some ph →
  remaining ph ≠ 0%nat →
  is_Some (step_thread i (thread_at r ph) w)
  ∨ ∃ j r' ph', reqs !! j = Some r' ∧ phs !! j = Some ph'
                ∧ is_Some (step_thread j (thread_at r' ph') w).

Hypothesis thread_ends : ∀ reqs phs w i r ph,
  inv reqs phs w → reqs !! i = Some r → phs !! i = Some ph →
  remaining ph = 0%nat → ended (thread_at r ph).

(** A step of the system keeps it coherent and uses up statements. *)
Lemma phased_step (reqs : list Req) (s s' : system) (phs : list Phase)
    (m : nat) :
  at_points thread_at inv remaining reqs s phs m → step s s' →
  ∃ phs' m', at_points thread_at inv remaining reqs s' phs' m' ∧ (m' < m)%nat.
Proof.
  intros (Hth & Hinv & Hm) Hstep.
  destruct Hstep as [s i th th' w' Hi Hstep].
  rewrite Hth in Hi.
  apply lookup_zip_with_Some in Hi as (r & ph & -> & Hreq & Hph).
  destruct (thread_steps reqs phs (shared s) i r ph th' w' Hinv Hreq Hph Hstep)
    as (ph' & -> & Hinv' & Hlt).
  exists (<[i := ph']> phs), (sum_list (remaining <$> <[i := ph']> phs)).
  split; [split; [|split]|].
  - cbn. rewrite Hth.
    rewrite <-(list_insert_id reqs i r) at 2 by done.
    by rewrite <-insert_zip_with.
  - done.
  - done.
  - rewrite <-Hm, list_fmap_insert.
    apply sum_list_insert with (remaining ph); [|done].
    by rewrite list_lookup_fmap, Hph.
Qed.

Lemma phased_rtc (reqs : list Req) (s0 s : system) (phs0 : list Phase)
    (m0 : nat) :
  at_points thread_at inv remaining reqs s0 phs0 m0 → rtc step s0 s →
  ∃ phs m, at_points thread_at inv remaining reqs s phs m.
Proof.
  intros Hco0 Hrun. revert s Hrun. apply rtc_ind_r; [eauto|].
  intros s s' _ Hstep (phs & m & Hco).
  destruct (phased_step _ _ _ _ _ Hco Hstep) as (phs' & m' & Hco' & _). eauto.
Qed.

(** A run of [n] steps has used up [n] statements at least. *)
Lemma phased_nsteps (reqs : list Req) (s0 : system) (phs0 : list Phase)
    (m0 n : nat) (s : system) :
  at_points thread_at inv remaining reqs s0 phs0 m0 → nsteps step n s0 s →
  ∃ phs m, at_points thread_at inv remaining reqs s phs m ∧ (n + m ≤ m0)%nat.
Proof.
  intros Hco0. revert s. induction n as [|n IH]; intros s Hrun.
  - inversion Hrun; subst. eexists _, _. split; [done|lia].
  - apply nsteps_inv_r in Hrun as (s1 & Hrun & Hstep).
    destruct (IH _ Hrun) as (phs & m & Hco & Hle).
    destruct (phased_step _ _ _ _ _ Hco Hstep) as (phs' & m' & Hco' & Hlt).
    exists phs', m'. split; [done|lia].
Qed.

(** No deadlock: while a thread has not ended, some thread can step. *)
Lemma phased_progress (reqs : list Req) (s : system) (phs : list Phase)
    (m : nat) :
  at_points thread_at inv remaining reqs s phs m → ¬ quiescent s → ∃ s', step s s'.
Proof.
  intros (Hth & Hinv & Hm) Hq.
  apply not_Forall_Exists in Hq; [|apply _].
  apply Exists_lookup in Hq as (i & th & Hi & Hne). simpl in Hne.
  pose proof Hi as Hi'. rewrite Hth in Hi'.
  apply lookup_zip_with_Some in Hi' as (r & ph & -> & Hreq & Hph).
  assert (remaining ph ≠ 0%nat) as Hrem.
  { intros Hz. apply Hne. by eapply thread_ends. }
  destruct (thread_waits reqs phs (shared s) i r ph Hinv Hreq Hph Hrem)
    as [[[th' w'] Hstep]|(j & r' & ph' & Hreq' & Hph' & [[th' w'] Hstep])].
  - eexists. by eapply (step_of s i).
  - eexists. eapply (step_of s j); [|done].
    rewrite Hth, lookup_zip_with, Hreq', Hph'. done.
Qed.

(** Every run can be completed, whatever the schedule did so far. *)
Lemma phased_finishes (reqs : list Req) (m : nat) :
  ∀ s phs, at_points thread_at inv remaining reqs s phs m → ∃ fin, rtc step s fin ∧ quiescent fin.
Proof.
  induction (lt_wf m) as [m _ IH]. intros s phs Hco.
  destruct (decide (quiescent s)) as [Hq|Hq]; [by exists s|].
  destruct (phased_progress _ _ _ _ Hco Hq) as [s' Hstep].
  destruct (phased_step _ _ _ _ _ Hco Hstep) as (phs' & m' & Hco' & Hlt).
  destruct (IH m' Hlt _ _ Hco') as (fin & Hrun & Hfin).
  exists fin. split; [|done]. by eapply rtc_l.
Qed.

End phased.

(** ** Runs of concurrent call-next requests *)

Section progress.

Context (d0 : db) (reqs : list (call_request * Z)) (phs : list phase)
  (w : world) (i : nat) (req : call_request) (now : Z).
Context (Hinv : invariant d0 reqs phs w).
Context (Hreq : reqs !! i = Some (req, now)).
Context (Hcid : JS.truthy (call_counter_id req) = true).

(** A thread that has not ended can take its step, unless it is about
    to select a row that another thread holds locked, or to take a
    connection while none is free. *)
Lemma thread_progress (ph : phase) :
  phs !! i = Some ph → remaining ph ≠ 0%nat →
  is_Some (step_thread i (thread_at d0 req now ph) w)
  ∨ (ph = Begun
     ∧ ∃ j st id row, j ≠ i ∧ phs !! j = Some (Holding st id row)
                      ∧ holds st = true)
  ∨ (ph = Start ∧ free w = 0%nat).
Proof.
  intros Hph Hrem. unfold thread_at. destruct ph as [| | |st id row| | |];
    cbn [code_at conn_at]; try done.
  - rewrite call_next_start by done. rewrite step_connect.
    destruct (acquired w) as [w1|] eqn:Hacq; [left; eauto|].
    right. right. split; [done|]. by apply acquired_None.
  - left. unfold call_begin at 1. rewrite step_in_call. cbn. eauto.
  - unfold call_select at 1. rewrite step_in_call. cbn.
    change (foldr apply_write (store w) []) with (store w).
    destruct (select_next (store w) _ _) as [id|]; [|left; eauto].
    destruct (lockable i w (TicketRow id)) eqn:Hfree; [left; eauto|].
    right. left. split; [done|]. unfold lockable, holder in Hfree.
    destruct (ticket_locks w !! id) as [j|] eqn:Hl; [|done].
    apply Nat.eqb_neq in Hfree.
    apply (inv_locks _ _ _ _ Hinv) in Hl as (ph & Hj & Hl).
    destruct ph as [| | |st id' row| | |]; try done. simpl in Hl.
    apply andb_prop in Hl as [Hst _]. by exists j, st, id', row.
  - destruct (inv_claim _ _ _ _ Hinv _ _ _ _ _ _ Hreq Hph) as (Hd0 & Hm & Hcom).
    left. destruct st.
    + pose proof (held_row d0 reqs phs w Hinv i _ id row Hph eq_refl) as Hrow.
      pose proof (held_lock d0 reqs phs w Hinv i _ id row Hph eq_refl) as Hl.
      unfold call_update at 1. rewrite step_in_call. cbn.
      change (foldr apply_write (store w) []) with (store w). rewrite Hrow.
      unfold locking, lockable, holder. cbn. rewrite Hl, Nat.eqb_refl. eauto.
    + unfold call_commit at 1. rewrite step_in_call. cbn. eauto.
    + unfold call_reread at 1. rewrite step_in_call. cbn. eauto.
    + unfold call_emit_updated at 1. unfold emitTicketUpdated at 1.
      rewrite step_in_call. cbn. eauto.
    + unfold call_emit_called at 1. unfold emitTicketCalled at 1.
      rewrite step_in_call. cbn. eauto.
    + unfold call_answer at 1. rewrite step_release. eauto.
    + done.
  - left. unfold call_commit_empty at 1. rewrite step_in_call. cbn. eauto.
  - left. unfold call_no_ticket at 1. rewrite step_release. eauto.
Qed.

(** The threads that have ended are those with no statement left. *)
Lemma ended_remaining (ph : phase) :
  ended (thread_at d0 req now ph) ↔ remaining ph = 0%nat.
Proof.
  unfold ended, thread_at. destruct ph as [| | |st id row| | |];
    cbn [code code_at remaining]; try done.
  by destruct st.
Qed.

End progress.

Section call_system.

Context (d0 : db).

Lemma request_truthy (reqs : list (call_request * Z)) (i : nat)
    (req : call_request) (now : Z) :
  Forall (λ rq, JS.truthy (call_counter_id rq.1) = true) reqs →
  reqs !! i = Some (req, now) → JS.truthy (call_counter_id req) = true.
Proof.
  intros Hcid Hi. by apply (proj1 (Forall_lookup _ _) Hcid i (req, now)).
Qed.

Lemma call_thread_steps reqs phs w i r ph th' w' :
  call_invariant d0 reqs phs w → reqs !! i = Some r → phs !! i = Some ph →
  step_thread i (call_thread d0 r ph) w = Some (th', w') →
  ∃ ph', th' = call_thread d0 r ph'
         ∧ call_invariant d0 reqs (<[i := ph']> phs) w'
         ∧ (remaining ph' < remaining ph)%nat.
Proof.
  intros [Hcid Hinv] Hreq Hph Hstep. destruct r as [req now].
  destruct (thread_step d0 reqs phs w i req now Hinv Hreq
              (request_truthy _ _ _ _ Hcid Hreq) ph th' w' Hph Hstep)
    as (ph' & -> & Hinv' & Hlt).
  exists ph'. split; [done|]. split; [by split|done].
Qed.

Lemma call_thread_waits reqs phs w i r ph :
  call_invariant d0 reqs phs w → reqs !! i = Some r → phs !! i = Some ph →
  remaining ph ≠ 0%nat →
  is_Some (step_thread i (call_thread d0 r ph) w)
  ∨ ∃ j r' ph', reqs !! j = Some r' ∧ phs !! j = Some ph'
                ∧ is_Some (step_thread j (call_thread d0 r' ph') w).
Proof.
  intros [Hcid Hinv] Hreq Hph Hrem. destruct r as [req now].
  (* a thread that holds a row lock can step *)
  assert (∀ j st id row, phs !! j = Some (Holding st id row) → holds st = true →
            ∃ r', reqs !! j = Some r'
                  ∧ is_Some (step_thread j (call_thread d0 r' (Holding st id row)) w))
    as Hholder.
  { intros j st id row Hphj Hst.
    destruct (phase_request d0 reqs phs w Hinv j _ Hphj) as (reqj & nowj & Hreqj).
    exists (reqj, nowj). split; [done|].
    destruct (thread_progress d0 reqs phs w j reqj nowj Hinv Hreqj
                (request_truthy _ _ _ _ Hcid Hreqj) _ Hphj)
      as [Hs|[[? _]|[? _]]]; [by destruct st|done|done|done]. }
  destruct (thread_progress d0 reqs phs w i req now Hinv Hreq
              (request_truthy _ _ _ _ Hcid Hreq) ph Hph Hrem)
    as [Hs|[(-> & j & st & id & row & Hj & Hphj & Hst)|[-> Hnone]]].
  - by left.
  - right. destruct (Hholder j st id row Hphj Hst) as (r' & Hr' & Hs).
    by exists j, r', (Holding st id row).
  - (* no connection is free: a thread that has one can step, or waits
       for a thread that can *)
    right. pose proof (inv_free _ _ _ _ Hinv) as Hf. rewrite Hnone in Hf.
    destruct (sum_list_positive (connections <$> phs)) as (j & x & Hx & Hpos).
    { cbn in Hf. rewrite Hf. done. }
    rewrite list_lookup_fmap in Hx.
    destruct (phs !! j) as [phj|] eqn:Hphj; [|done]. injection Hx as <-.
    destruct (phase_request d0 reqs phs w Hinv j _ Hphj) as (reqj & nowj & Hreqj).
    assert (remaining phj ≠ 0%nat ∧ phj ≠ Start) as [Hremj Hns].
    { destruct phj as [| | |[] ? ?| | |]; done. }
    destruct (thread_progress d0 reqs phs w j reqj nowj Hinv Hreqj
                (request_truthy _ _ _ _ Hcid Hreqj) phj Hphj Hremj)
      as [Hs|[(-> & j' & st & id & row & _ & Hphj' & Hst)|[-> _]]].
    + exists j, (reqj, nowj), phj. done.
    + destruct (Hholder j' st id row Hphj' Hst) as (r' & Hr' & Hs).
      by exists j', r', (Holding st id row).
    + done.
Qed.

Lemma call_thread_ends reqs phs w i r ph :
  call_invariant d0 reqs phs w → reqs !! i = Some r → phs !! i = Some ph →
  remaining ph = 0%nat → ended (call_thread d0 r ph).
Proof.
  intros [Hcid Hinv] Hreq Hph Hz. destruct r as [req now].
  by apply (ended_remaining d0 req now).
Qed.

Context (evs : list event) (reqs : list (call_request * Z)).
Context (Hcid : Forall (λ rq, JS.truthy (call_counter_id rq.1) = true) reqs).

Lemma boot_threads :
  threads (boot d0 evs (calls reqs))
  = zip_with (call_thread d0) reqs (replicate (length reqs) Start).
Proof.
  unfold boot, calls. cbn. clear Hcid.
  induction reqs as [|rq l IH]; [done|]. cbn. by rewrite IH.
Qed.

Lemma boot_coherent :
  coherent d0 reqs (boot d0 evs (calls reqs)) (replicate (length reqs) Start)
    (10 * length reqs).
Proof.
  split; [apply boot_threads|]. split; [split; [done|]|].
  - split; cbn; try done.
    + by rewrite length_replicate.
    + rewrite fmap_replicate, sum_list_replicate. cbn.
      unfold connectionLimit. lia.
    + intros id j. rewrite lookup_empty. split; [done|].
      intros (ph & Hph & Hl). apply lookup_replicate in Hph as [-> _]. done.
    + intros i req now st id row _ Hph.
      apply lookup_replicate in Hph as [? _]. done.
    + intros i j sti stj id rowi rowj Hph.
      apply lookup_replicate in Hph as [? _]. done.
    + intros i req now ph _ Hph Hsaw.
      apply lookup_replicate in Hph as [-> _]. done.
  - rewrite fmap_replicate, sum_list_replicate. simpl. lia.
Qed.

Lemma reachable_coherent (s : system) :
  rtc step (boot d0 evs (calls reqs)) s → ∃ phs m, coherent d0 reqs s phs m.
Proof.
  apply (phased_rtc (call_thread d0) (call_invariant d0) remaining
           call_thread_steps reqs _ s _ _ boot_coherent).
Qed.

End call_system.

Lemma elem_of_keys {A} (m : gmap string A) (id : string) :
  id ∈ (map_to_list m).*1 ↔ is_Some (m !! id).
Proof.
  rewrite list_elem_of_fmap. split.
  - intros ([id' x] & -> & Hin). apply elem_of_map_to_list in Hin. eauto.
  - intros [x Hx]. exists (id, x). split; [done|]. by apply elem_of_map_to_list.
Qed.

Section answers.

Context (d0 : db).

Lemma thread_called_id (req : call_request) (now : Z) (ph : phase) :
  called_id (answer (thread_at d0 req now ph)) = got ph.
Proof.
  unfold answer, thread_at. destruct ph as [| | |st id row| | |];
    cbn [code code_at got]; try done.
  by destruct st.
Qed.

Lemma thread_no_ticket (req : call_request) (now : Z) (ph : phase) :
  no_ticket (answer (thread_at d0 req now ph)) = got_none ph.
Proof.
  unfold answer, thread_at. destruct ph as [| | |st id row| | |];
    cbn [code code_at got_none]; try done.
  by destruct st.
Qed.

Lemma threads_called (reqs : list (call_request * Z)) (phs : list phase) :
  omap called_id
    (answer <$> zip_with (call_thread d0) reqs phs)
  = omap got (take (length reqs) phs).
Proof.
  revert phs. induction reqs as [|rq reqs IH]; intros [|ph phs]; try done.
  cbn. unfold call_thread at 1. rewrite thread_called_id, IH. done.
Qed.

Lemma threads_no_ticket (reqs : list (call_request * Z)) (phs : list phase) :
  length (filter (λ a, no_ticket a = true)
            (answer <$> zip_with (call_thread d0) reqs phs))
  = length (filter (λ ph, got_none ph = true) (take (length reqs) phs)).
Proof.
  revert phs. induction reqs as [|rq reqs IH]; intros [|ph phs]; try done.
  cbn [zip_with fmap list_fmap length take].
  unfold call_thread at 1. rewrite !filter_cons, thread_no_ticket.
  destruct (got_none ph); simpl; by rewrite IH.
Qed.

End answers.

(** Threads that all ended have answered with a ticket or with the empty
    queue. *)
Lemma ended_count (phs : list phase) :
  Forall (λ ph, remaining ph = 0%nat) phs →
  length phs
  = (length (omap got phs) + length (filter (λ ph, got_none ph = true) phs))%nat.
Proof.
  induction 1 as [|ph phs Hph _ IH]; [done|].
  rewrite filter_cons. cbn [omap list_omap length].
  destruct ph as [| | |[] id row| | |]; try done; simpl; lia.
Qed.

Lemma got_lookup (phs : list phase) (id : string) :
  id ∈ omap got phs ↔ ∃ i row, phs !! i = Some (Holding Answered id row).
Proof.
  rewrite list_elem_of_omap. split.
  - intros (ph & Hin & Hgot). apply list_elem_of_lookup in Hin as [i Hi].
    destruct ph as [| | |[] id' row| | |]; try done. simplify_eq/=. eauto.
  - intros (i & row & Hi). exists (Holding Answered id row). split; [|done].
    apply list_elem_of_lookup. eauto.
Qed.

(** Distinct threads have distinct tickets. *)
Lemma got_NoDup (phs : list phase) :
  (∀ i j sti stj id rowi rowj,
     phs !! i = Some (Holding sti id rowi) →
     phs !! j = Some (Holding stj id rowj) → i = j) →
  NoDup (omap got phs).
Proof.
  induction phs as [|ph phs IH]; intros Hdist; [constructor|].
  assert (NoDup (omap got phs)) as Htail.
  { apply IH. intros i j ????? Hi Hj.
    assert (S i = S j) by (by eapply Hdist). lia. }
  cbn. destruct (got ph) as [id|] eqn:Hgot; [|done].
  constructor; [|done].
  intros (j & row & Hj)%got_lookup.
  destruct ph as [| | |[] id' row'| | |]; try done. simplify_eq/=.
  assert (0 = S j)%nat by (by eapply (Hdist 0%nat (S j))). lia.
Qed.

Section final.

Context (d0 : db) (reqs : list (call_request * Z)) (b : string)
  (sf : option string).
Context (Hpool : Forall (λ rq,
  JS.truthy (call_counter_id rq.1) = true
  ∧ counter_branch d0 (default "" (call_counter_id rq.1)) = Some b
  ∧ call_service_id rq.1 = sf) reqs).
Context (s : system) (phs : list phase) (m : nat).
Context (Hco : coherent d0 reqs s phs m).

Lemma request_pool (i : nat) (req : call_request) (now : Z) (row : ticket) :
  reqs !! i = Some (req, now) →
  matches (counter_branch d0 (default "" (call_counter_id req)))
    (call_service_id req) row
  = matches (Some b) sf row.
Proof.
  intros Hi.
  destruct (proj1 (Forall_lookup _ _) Hpool i (req, now) Hi) as (_ & Hb & Hs).
  simpl in *. by rewrite Hb, Hs.
Qed.

(** A ticket a thread got is a ticket of the pool. *)
Lemma claim_in_pool (i : nat) (st : stage) (id : string) (row : ticket) :
  phs !! i = Some (Holding st id row) → pool d0 b sf !! id = Some row.
Proof.
  intros Hi. destruct Hco as (_ & (_ & Hinv) & _).
  destruct (phase_request d0 reqs phs (shared s) Hinv i _ Hi) as (req & now & Hr).
  destruct (inv_claim _ _ _ _ Hinv _ _ _ _ _ _ Hr Hi) as (Hrow & Hm & _).
  apply map_lookup_filter_Some. split; [done|]. simpl.
  by rewrite <-(request_pool i req now).
Qed.

Lemma called_NoDup : NoDup (omap called_id (answer <$> threads s)).
Proof.
  destruct Hco as (Hth & (_ & Hinv) & _).
  rewrite Hth, threads_called, <-(inv_length _ _ _ _ Hinv), firstn_all.
  apply got_NoDup. apply Hinv.
Qed.

Context (Hq : quiescent s).

Lemma all_ended : Forall (λ ph, remaining ph = 0%nat) phs.
Proof.
  destruct Hco as (Hth & (_ & Hinv) & _).
  apply Forall_lookup. intros i ph Hi.
  destruct (phase_request d0 reqs phs (shared s) Hinv i _ Hi) as (req & now & Hr).
  apply (ended_remaining d0 req now).
  apply (proj1 (Forall_lookup _ _) Hq i). rewrite Hth, lookup_zip_with, Hr, Hi. done.
Qed.

Lemma served_got (id : string) :
  Exists (λ ph, served_row id ph = true) phs → id ∈ omap got phs.
Proof.
  intros (j & ph & Hj & Hs)%Exists_lookup.
  pose proof (proj1 (Forall_lookup _ _) all_ended j ph Hj) as Hend.
  destruct ph as [| | |[] id' row| | |]; try done. simpl in Hs.
  apply bool_decide_eq_true in Hs. subst id'.
  apply got_lookup. eauto.
Qed.

(** The tickets the threads answered with are the tickets of the pool,
    as many as the pool has when there are at least as many requests. *)
Lemma called_pool (K M : nat) :
  size (pool d0 b sf) = K → length reqs = (K + M)%nat →
  length (omap got phs) = K
  ∧ length (filter (λ ph, got_none ph = true) phs) = M
  ∧ ∀ id, is_Some (pool d0 b sf !! id) → id ∈ omap got phs.
Proof.
  intros HK Hlen. destruct Hco as (Hth & (_ & Hinv) & _).
  pose proof (ended_count phs all_ended) as Hcount.
  rewrite (inv_length _ _ _ _ Hinv), Hlen in Hcount.
  assert (NoDup (omap got phs)) as Hnd by (apply got_NoDup, Hinv).
  assert (omap got phs ⊆+ (map_to_list (pool d0 b sf)).*1) as Hsub.
  { apply NoDup_submseteq; [done|]. intros id (i & row & Hi)%got_lookup.
    apply elem_of_keys. rewrite (claim_in_pool i _ id row Hi). eauto. }
  pose proof (submseteq_length _ _ Hsub) as Hle.
  rewrite length_fmap, length_map_to_list, HK in Hle.
  assert (length (filter (λ ph, got_none ph = true) phs) ≠ 0%nat →
          (K ≤ length (omap got phs))%nat) as Hfull.
  { intros Hne.
    assert (∃ i, phs !! i = Some AnsweredEmpty) as [i Hi].
    { destruct (filter (λ ph, got_none ph = true) phs) as [|ph l] eqn:Hf; [done|].
      assert (ph ∈ filter (λ ph, got_none ph = true) phs) as Hin
        by (rewrite Hf; left).
      apply list_elem_of_filter in Hin as [Hg Hin].
      destruct ph; try done. by apply list_elem_of_lookup in Hin. }
    destruct (phase_request d0 reqs phs (shared s) Hinv i _ Hi) as (req & now & Hr).
    assert ((map_to_list (pool d0 b sf)).*1 ⊆+ omap got phs) as Hsup.
    { apply NoDup_submseteq; [apply NoDup_fst_map_to_list|].
      intros id [row Hrow]%elem_of_keys.
      apply map_lookup_filter_Some in Hrow as [Hrow Hm]. simpl in Hm.
      apply served_got.
      apply (inv_empty _ _ _ _ Hinv i req now AnsweredEmpty Hr Hi eq_refl id row Hrow).
      by rewrite (request_pool i req now). }
    pose proof (submseteq_length _ _ Hsup) as Hge.
    by rewrite length_fmap, length_map_to_list, HK in Hge. }
  assert (length (omap got phs) = K) as HgotK.
  { destruct (decide (length (filter (λ ph, got_none ph = true) phs) = 0%nat));
      [lia|]. specialize (Hfull ltac:(done)). lia. }
  split; [done|]. split; [lia|].
  intros id Hid. apply elem_of_keys in Hid.
  assert (omap got phs ≡ₚ (map_to_list (pool d0 b sf)).*1) as Hperm.
  { apply submseteq_length_Permutation; [done|].
    rewrite length_fmap, length_map_to_list. lia. }
  by rewrite Hperm.
Qed.

End final.

Lemma schedule_steps (order : list nat) (s : system) :
  rtc step s (schedule order s).
Proof.
  revert s. induction order as [|i order IH]; intros s; [done|].
  cbn [schedule].
  destruct (threads s !! i) as [th|] eqn:Hi; [|apply IH].
  destruct (step_thread i th (shared s)) as [[th' w']|] eqn:Hstep; [|apply IH].
  eapply rtc_l; [|apply IH]. by eapply (step_of s i).
Qed.

(** ** Concurrent creation requests *)

Lemma post_ticket_start (req : create_request) (today ticketId : string)
    (now : Z) :
  JS.truthy (req_service_id req) = true →
  JS.truthy (req_branch_id req) = true →
  post_ticket req today ticketId now
  = (exec GetConnection;;
     in_post (post_begin req (default "" (req_service_id req))
                (default "" (req_branch_id req)) today ticketId now)).
Proof. intros Hs Hb. unfold post_ticket. by rewrite Hs, Hb. Qed.

(** A step of a thread inside the try block of the creation. *)
Lemma step_in_post {A : Type} (i : nat) (s : stmt A) (q : A → prog response)
    (c : conn) (w : world) :
  step_thread i {| code := in_post (exec s ≫= q); connection := c; faults := [] |} w
  = match exec_stmt i s c w with
    | Some (o, c', w') =>
        Some ({| code := in_post match o with Ok a => q a | Failed => Throw end;
                 connection := c'; faults := [] |}, w')
    | None => None
    end.
Proof.
  unfold step_thread, in_post. cbn.
  destruct (exec_stmt i s c w) as [[[[a|] c'] w']|]; reflexivity.
Qed.

(** The first step of a [query] inside the try block: a connection of
    the pool is taken, when one is free. *)
Lemma step_in_post_query {A : Type} (i : nat) (s : stmt A)
    (q : A → prog response) (c : conn) (w : world) :
  step_thread i {| code := in_post (query s ≫= q); connection := c; faults := [] |} w
  = match acquired w with
    | Some w' =>
        Some ({| code := in_post (exec s ≫= q); connection := c; faults := [] |}, w')
    | None => None
    end.
Proof. unfold step_thread, in_post. cbn. by destruct (acquired w). Qed.

Lemma step_post_release (i : nat) (r : response) (c : conn) (w : world) :
  step_thread i {| code := in_post (Ret r); connection := c; faults := [] |} w
  = Some ({| code := Ret r; connection := c; faults := [] |}, released w).
Proof. reflexivity. Qed.

(** A connection taken and given back leaves the world as it was. *)
Lemma released_acquired (w w' : world) :
  acquired w = Some w' → released w' = w.
Proof.
  unfold acquired, released. destruct w as [d sl tl [|n] ev]; cbn; [done|].
  by intros [= <-].
Qed.

Lemma omap_insert_same {A B : Type} (f : A → option B) (l : list A) (i : nat)
    (x x' : A) :
  l !! i = Some x → f x' = f x → omap f (<[i := x']> l) = omap f l.
Proof.
  revert i. induction l as [|y l IH]; intros [|i] Hi Hf; try done.
  - injection Hi as ->. cbn. by rewrite Hf.
  - cbn in *. specialize (IH _ Hi Hf). destruct (f y); [f_equal|]; apply IH.
Qed.

Lemma omap_insert_new {A B : Type} (f : A → option B) (l : list A) (i : nat)
    (x x' : A) (n : B) :
  l !! i = Some x → f x = None → f x' = Some n →
  omap f (<[i := x']> l) ≡ₚ n :: omap f l.
Proof.
  revert i. induction l as [|y l IH]; intros [|i] Hi Hx Hx'; try done.
  - injection Hi as ->. cbn. by rewrite Hx, Hx'.
  - cbn in *. specialize (IH _ Hi Hx Hx'). destruct (f y).
    + etrans; [apply perm_skip, IH|apply perm_swap].
    + apply IH.
Qed.

(** A property of the phase of thread [j] after thread [i] moved. *)
Lemma lookup_insert_alloc (phs : list alloc_phase) (i j : nat)
    (ph ph' : alloc_phase) (P : alloc_phase → Prop) :
  phs !! i = Some ph →
  (∃ x, <[i := ph']> phs !! j = Some x ∧ P x)
  ↔ (j = i ∧ P ph') ∨ (j ≠ i ∧ ∃ x, phs !! j = Some x ∧ P x).
Proof.
  intros Hi. apply lookup_lt_Some in Hi as Hlt.
  destruct (decide (j = i)) as [->|Hne].
  - rewrite list_lookup_insert_eq by done. split.
    + intros (x & [= <-] & HP). by left.
    + intros [[_ HP]|[? _]]; [eauto|done].
  - rewrite list_lookup_insert_ne by done. split.
    + intros H. by right.
    + intros [[? _]|[_ H]]; done.
Qed.

Lemma upsert_lookup (d : db) (k : seq_key) :
  ticket_sequences (apply_write (WUpsertSequence k) d) !! k = Some (current d k).
Proof.
  unfold current. cbn. destruct (ticket_sequences d !! k) eqn:E; cbn.
  - done.
  - by rewrite lookup_insert_eq.
Qed.

Lemma update_lookup (d : db) (k : seq_key) (n : nat) :
  ticket_sequences (apply_write (WUpdateSequence n k)
                      (apply_write (WUpsertSequence k) d)) !! k = Some n.
Proof.
  change (alter (λ _, n) k (ticket_sequences (apply_write (WUpsertSequence k) d)) !! k
          = Some n).
  rewrite lookup_alter_eq, upsert_lookup. done.
Qed.

(** The locks of the threads at program points with property [P], when
    thread [i] moves: it keeps its locks, gives them all back, or takes
    one more. *)
Section locks.

Context {K : Type} `{Countable K}.
Context (Q : K → nat → Prop) (P : alloc_phase → Prop).
Context (phs : list alloc_phase) (i : nat) (ph ph' : alloc_phase).
Context (m m' : gmap K nat).
Context (Hm : ∀ k j, m !! k = Some j ↔ Q k j ∧ ∃ x, phs !! j = Some x ∧ P x).
Context (Hph : phs !! i = Some ph).

Lemma alloc_locks_kept :
  m' = m → (P ph' ↔ P ph) →
  ∀ k j, m' !! k = Some j
         ↔ Q k j ∧ ∃ x, <[i := ph']> phs !! j = Some x ∧ P x.
Proof.
  intros -> HP k j. rewrite Hm, (lookup_insert_alloc phs i j ph ph' P Hph).
  split.
  - intros (HQ & x & Hx & HPx). split; [done|].
    destruct (decide (j = i)) as [->|Hne]; [left|right; eauto].
    split; [done|]. apply HP. congruence.
  - intros (HQ & [[-> HP']|(Hne & x & Hx & HPx)]); (split; [done|]); eauto.
    exists ph. split; [done|]. by apply HP.
Qed.

Lemma alloc_locks_released :
  m' = filter (λ kv, kv.2 ≠ i) m → ¬ P ph' →
  ∀ k j, m' !! k = Some j
         ↔ Q k j ∧ ∃ x, <[i := ph']> phs !! j = Some x ∧ P x.
Proof.
  intros -> HP k j.
  rewrite map_lookup_filter_Some, Hm, (lookup_insert_alloc phs i j ph ph' P Hph).
  cbn. split.
  - intros ((HQ & Hx) & Hne). split; [done|]. by right.
  - intros (HQ & [[_ HP']|(Hne & Hx)]); done.
Qed.

Lemma alloc_locks_acquired (k0 : K) :
  m' = <[k0 := i]> m → (∀ j, m !! k0 = Some j → j = i) →
  Q k0 i → (∀ k, Q k i → k = k0) → P ph' →
  ∀ k j, m' !! k = Some j
         ↔ Q k j ∧ ∃ x, <[i := ph']> phs !! j = Some x ∧ P x.
Proof.
  intros -> Hfree HQ0 Hfun HP k j.
  rewrite (lookup_insert_alloc phs i j ph ph' P Hph).
  destruct (decide (k = k0)) as [->|Hne].
  - rewrite lookup_insert_eq. split.
    + intros [= <-]. split; [done|]. by left.
    + intros (HQ & [[-> _]|(Hne & Hx)]); [done|].
      destruct Hne. apply Hfree, Hm. done.
  - rewrite lookup_insert_ne by done. rewrite Hm. split.
    + intros (HQ & Hx). split; [done|]. right. split; [|done].
      intros ->. by apply Hne, Hfun.
    + intros (HQ & [[-> _]|(_ & Hx)]); [|done].
      destruct Hne. by apply Hfun.
Qed.

End locks.

Section alloc_step.

Context (d0 : db) (today : string) (k : seq_key)
  (jobs : list (create_request * string * Z)) (phs : list alloc_phase)
  (w : world) (i : nat) (job : create_request * string * Z).
Context (Hinv : alloc_invariant d0 today k jobs phs w).
Context (Hjob : jobs !! i = Some job).

Lemma job_valid :
  JS.truthy (req_service_id job.1.1) = true
  ∧ JS.truthy (req_branch_id job.1.1) = true
  ∧ key_of job.1.1 today = k.
Proof.
  pose proof (alloc_valid _ _ _ _ _ _ Hinv) as Hv.
  rewrite Forall_lookup in Hv. exact (Hv i job Hjob).
Qed.

(** The foreign keys of the job's ticket hold. *)
Lemma job_references :
  references (services (store w)) (branches (store w))
    (default "" (req_service_id job.1.1)) (default "" (req_branch_id job.1.1))
  = true.
Proof.
  destruct job_valid as (_ & _ & Hk).
  rewrite (alloc_services _ _ _ _ _ _ Hinv), (alloc_branches _ _ _ _ _ _ Hinv).
  apply references_rows.
  - replace (default "" (req_service_id job.1.1)) with k.1.1 by (by rewrite <-Hk).
    apply Hinv.
  - replace (default "" (req_branch_id job.1.1)) with k.1.2 by (by rewrite <-Hk).
    apply Hinv.
Qed.

(** The connections with the threads, when thread [i] moves. *)
Lemma alloc_free_step (ph ph' : alloc_phase) (w' : world) :
  phs !! i = Some ph →
  (free w' + alloc_connections ph' = free w + alloc_connections ph)%nat →
  (free w' + sum_list (alloc_connections <$> <[i := ph']> phs))%nat
  = connectionLimit.
Proof.
  intros Hph Hfree. pose proof (alloc_free _ _ _ _ _ _ Hinv) as Hf.
  pose proof (sum_list_insert_eq (alloc_connections <$> phs) i
                (alloc_connections ph) (alloc_connections ph')) as Hsum.
  rewrite list_lookup_fmap, Hph in Hsum. specialize (Hsum eq_refl).
  rewrite list_fmap_insert. lia.
Qed.

Lemma job_id : jobs.*1.*2 !! i = Some job.1.2.
Proof. by rewrite !list_lookup_fmap, Hjob. Qed.

Lemma job_unique (j : nat) (job' : create_request * string * Z) :
  jobs !! j = Some job' → job'.1.2 = job.1.2 → j = i.
Proof.
  intros Hj Hid.
  apply (NoDup_lookup (jobs.*1.*2) j i job.1.2).
  - apply Hinv.
  - by rewrite !list_lookup_fmap, Hj, <-Hid.
  - apply job_id.
Qed.

Lemma job_fresh : tickets d0 !! job.1.2 = None.
Proof.
  pose proof (alloc_fresh _ _ _ _ _ _ Hinv) as Hf.
  rewrite Forall_lookup in Hf. exact (Hf i _ job_id).
Qed.

(** A step that leaves the tables alone. *)
Lemma alloc_same_store (ph ph' : alloc_phase) (w' : world) :
  phs !! i = Some ph → store w' = store w →
  (free w' + alloc_connections ph' = free w + alloc_connections ph)%nat →
  (∀ k' j, seq_locks w' !! k' = Some j
           ↔ k' = k ∧ ∃ x, <[i := ph']> phs !! j = Some x ∧ in_section x = true) →
  (∀ id j, ticket_locks w' !! id = Some j
           ↔ jobs.*1.*2 !! j = Some id
             ∧ ∃ x, <[i := ph']> phs !! j = Some x ∧ inserted x = true) →
  done_with ph' = done_with ph →
  (∀ n, reading ph' = Some n → reading ph = Some n ∨ n = current (store w) k) →
  alloc_invariant d0 today k jobs (<[i := ph']> phs) w'.
Proof.
  intros Hph Hst Hfree Hseq Htk Hdone Hread.
  pose proof (omap_insert_same done_with phs i ph ph' Hph Hdone) as Hom.
  pose proof (alloc_free_step ph ph' w' Hph Hfree) as Hfree'.
  apply lookup_lt_Some in Hph as Hlt.
  constructor; rewrite ?Hst, ?Hom; try apply Hinv; try done.
  - rewrite length_insert. apply Hinv.
  - intros j x n Hx Hr. destruct (decide (j = i)) as [->|Hne].
    + rewrite list_lookup_insert_eq in Hx by done. injection Hx as <-.
      destruct (Hread n Hr) as [Hr'|]; [|done].
      by apply (alloc_reading _ _ _ _ _ _ Hinv i ph n).
    + rewrite list_lookup_insert_ne in Hx by done.
      by apply (alloc_reading _ _ _ _ _ _ Hinv j x n).
  - intros j job' x n Hj Hx Hd. destruct (decide (j = i)) as [->|Hne].
    + rewrite list_lookup_insert_eq in Hx by done. injection Hx as <-.
      apply (alloc_row _ _ _ _ _ _ Hinv i job' ph n); congruence.
    + rewrite list_lookup_insert_ne in Hx by done.
      by apply (alloc_row _ _ _ _ _ _ Hinv j job' x n).
  - intros id Hno. apply (alloc_rows _ _ _ _ _ _ Hinv).
    intros j job' x n Hj Hx Hd. destruct (decide (j = i)) as [->|Hne].
    + apply (Hno i job' ph' n); [done| |congruence].
      by rewrite list_lookup_insert_eq.
    + apply (Hno j job' x n); [done| |done].
      by rewrite list_lookup_insert_ne.
Qed.

(** A step that changes nothing the threads share. *)
Lemma alloc_quiet (ph ph' : alloc_phase) (w' : world) :
  phs !! i = Some ph → store w' = store w →
  (free w' + alloc_connections ph' = free w + alloc_connections ph)%nat →
  seq_locks w' = seq_locks w → ticket_locks w' = ticket_locks w →
  in_section ph' = in_section ph → inserted ph' = inserted ph →
  done_with ph' = done_with ph →
  (∀ n, reading ph' = Some n → reading ph = Some n ∨ n = current (store w) k) →
  alloc_invariant d0 today k jobs (<[i := ph']> phs) w'.
Proof.
  intros Hph Hst Hfree Hseq Htk Hsec Hins Hdone Hread.
  apply (alloc_same_store ph); try done.
  - apply (alloc_locks_kept (λ k' _, k' = k) (λ x, in_section x = true)
             phs i ph ph' (seq_locks w)); try done.
    + apply Hinv.
    + by rewrite Hsec.
  - apply (alloc_locks_kept (λ id j, jobs.*1.*2 !! j = Some id)
             (λ x, inserted x = true) phs i ph ph' (ticket_locks w)); try done.
    + apply Hinv.
    + by rewrite Hins.
Qed.

(** The thread in the section is the only one there. *)
Lemma section_unique (j : nat) (ph phj : alloc_phase) :
  phs !! i = Some ph → in_section ph = true →
  phs !! j = Some phj → in_section phj = true → j = i.
Proof.
  intros Hph Hs Hj Hsj.
  assert (seq_locks w !! k = Some i) as Hi
    by (apply Hinv; eauto).
  assert (seq_locks w !! k = Some j) as Hj'
    by (apply Hinv; eauto).
  congruence.
Qed.

End alloc_step.

Section alloc_moves.

Context (d0 : db) (today : string) (k : seq_key)
  (jobs : list (create_request * string * Z)) (phs : list alloc_phase)
  (w : world) (i : nat) (job : create_request * string * Z).
Context (Hinv : alloc_invariant d0 today k jobs phs w).
Context (Hjob : jobs !! i = Some job).

Lemma move_start (w1 : world) :
  phs !! i = Some AStart → acquired w = Some w1 →
  step_thread i (alloc_thread d0 today job AStart) w
  = Some (alloc_thread d0 today job AConnected, w1)
  ∧ alloc_invariant d0 today k jobs (<[i := AConnected]> phs) w1.
Proof.
  intros Hph Hacq. destruct (job_valid _ _ _ _ _ _ _ _ Hinv Hjob) as (Hs & Hb & Hk).
  split.
  - unfold alloc_thread. cbn [alloc_code alloc_conn].
    rewrite post_ticket_start by done. by rewrite step_connect, Hacq.
  - apply acquired_free in Hacq as (Hf & Hst & Hsl & Htl & Hev).
    apply (alloc_quiet _ _ _ _ _ _ _ Hinv AStart); try done. cbn. lia.
Qed.

(** No connection is free: the thread waits. *)
Lemma wait_start :
  acquired w = None →
  step_thread i (alloc_thread d0 today job AStart) w = None.
Proof.
  intros Hacq. destruct (job_valid _ _ _ _ _ _ _ _ Hinv Hjob) as (Hs & Hb & Hk).
  unfold alloc_thread. cbn [alloc_code alloc_conn].
  rewrite post_ticket_start by done. by rewrite step_connect, Hacq.
Qed.

Lemma move_connected :
  phs !! i = Some AConnected →
  step_thread i (alloc_thread d0 today job AConnected) w
  = Some (alloc_thread d0 today job ABegun, w)
  ∧ alloc_invariant d0 today k jobs (<[i := ABegun]> phs) w.
Proof.
  intros Hph. split.
  - unfold alloc_thread. cbn [alloc_code alloc_conn].
    unfold post_begin at 1. by rewrite step_in_post.
  - by apply (alloc_quiet _ _ _ _ _ _ _ Hinv AConnected).
Qed.

Lemma move_begun :
  phs !! i = Some ABegun →
  step_thread i (alloc_thread d0 today job ABegun) w
  = Some (alloc_thread d0 today job APrefixed, w)
  ∧ alloc_invariant d0 today k jobs (<[i := APrefixed]> phs) w.
Proof.
  intros Hph. split.
  - unfold alloc_thread. cbn [alloc_code alloc_conn].
    unfold post_prefix at 1. rewrite step_in_post. cbn [exec_stmt].
    cbn [view pending foldr].
    rewrite (alloc_services _ _ _ _ _ _ Hinv), head_prefix. done.
  - by apply (alloc_quiet _ _ _ _ _ _ _ Hinv ABegun).
Qed.

Lemma move_prefixed :
  phs !! i = Some APrefixed →
  lockable i w (SequenceRow k) = true →
  step_thread i (alloc_thread d0 today job APrefixed) w
  = Some (alloc_thread d0 today job AUpserted, lock i (SequenceRow k) w)
  ∧ alloc_invariant d0 today k jobs (<[i := AUpserted]> phs)
      (lock i (SequenceRow k) w).
Proof.
  intros Hph Hfree.
  destruct (job_valid _ _ _ _ _ _ _ _ Hinv Hjob) as (Hs & Hb & Hk).
  split.
  - unfold alloc_thread. cbn [alloc_code alloc_conn].
    unfold post_upsert at 1. rewrite step_in_post. cbn [exec_stmt].
    change (default "" (req_service_id job.1.1),
            default "" (req_branch_id job.1.1), today)
      with (key_of job.1.1 today).
    rewrite Hk. unfold locking. cbn [in_txn pending]. by rewrite Hfree.
  - apply (alloc_same_store _ _ _ _ _ _ _ Hinv APrefixed); try done.
    + apply (alloc_locks_acquired (λ k' _, k' = k) (λ x, in_section x = true)
               phs i APrefixed AUpserted (seq_locks w) _
               (alloc_seq_locks _ _ _ _ _ _ Hinv) Hph k); try done.
      intros j Hj. unfold lockable, holder in Hfree. rewrite Hj in Hfree.
      by apply Nat.eqb_eq in Hfree.
    + apply (alloc_locks_kept (λ id j, jobs.*1.*2 !! j = Some id)
               (λ x, inserted x = true) phs i APrefixed AUpserted
               (ticket_locks w)); try done.
      apply Hinv.
Qed.

Lemma wait_prefixed :
  lockable i w (SequenceRow k) = false →
  step_thread i (alloc_thread d0 today job APrefixed) w = None.
Proof.
  intros Hfree.
  destruct (job_valid _ _ _ _ _ _ _ _ Hinv Hjob) as (Hs & Hb & Hk).
  unfold alloc_thread. cbn [alloc_code alloc_conn].
  unfold post_upsert at 1. rewrite step_in_post. cbn [exec_stmt].
  change (default "" (req_service_id job.1.1),
          default "" (req_branch_id job.1.1), today)
    with (key_of job.1.1 today).
  rewrite Hk. unfold locking. cbn [in_txn pending]. by rewrite Hfree.
Qed.

Lemma section_lock (ph : alloc_phase) :
  phs !! i = Some ph → in_section ph = true →
  seq_locks w !! k = Some i ∧ lockable i w (SequenceRow k) = true.
Proof.
  intros Hph Hs.
  assert (seq_locks w !! k = Some i) as Hl by (apply Hinv; eauto).
  split; [done|]. unfold lockable, holder. rewrite Hl. apply Nat.eqb_refl.
Qed.

Lemma section_relock (ph : alloc_phase) :
  phs !! i = Some ph → in_section ph = true →
  seq_locks (lock i (SequenceRow k) w) = seq_locks w.
Proof.
  intros Hph Hs. cbn. apply insert_id. by apply (section_lock ph).
Qed.

Lemma move_upserted :
  phs !! i = Some AUpserted →
  let n := current (store w) k in
  let w' := lock i (SequenceRow k) w in
  step_thread i (alloc_thread d0 today job AUpserted) w
  = Some (alloc_thread d0 today job (ASelected n), w')
  ∧ alloc_invariant d0 today k jobs (<[i := ASelected n]> phs) w'.
Proof.
  intros Hph n w'.
  destruct (job_valid _ _ _ _ _ _ _ _ Hinv Hjob) as (Hs & Hb & Hk).
  destruct (section_lock AUpserted Hph eq_refl) as [Hl Hfree].
  split.
  - unfold alloc_thread. cbn [alloc_code alloc_conn].
    unfold post_select at 1. rewrite step_in_post. cbn [exec_stmt].
    change (default "" (req_service_id job.1.1),
            default "" (req_branch_id job.1.1), today)
      with (key_of job.1.1 today).
    rewrite Hk. cbn [view pending foldr]. rewrite upsert_lookup.
    unfold locking. cbn [in_txn pending]. by rewrite Hfree.
  - apply (alloc_quiet _ _ _ _ _ _ _ Hinv AUpserted); try done.
    + by apply (section_relock AUpserted).
    + intros m [= <-]. by right.
Qed.

Lemma move_selected (n : nat) :
  phs !! i = Some (ASelected n) →
  let w' := lock i (SequenceRow k) w in
  step_thread i (alloc_thread d0 today job (ASelected n)) w
  = Some (alloc_thread d0 today job (AUpdated n), w')
  ∧ alloc_invariant d0 today k jobs (<[i := AUpdated n]> phs) w'.
Proof.
  intros Hph w'.
  destruct (job_valid _ _ _ _ _ _ _ _ Hinv Hjob) as (Hs & Hb & Hk).
  destruct (section_lock (ASelected n) Hph eq_refl) as [Hl Hfree].
  split.
  - unfold alloc_thread. cbn [alloc_code alloc_conn].
    unfold post_update at 1. cbn [head default]. rewrite step_in_post.
    cbn [exec_stmt].
    change (default "" (req_service_id job.1.1),
            default "" (req_branch_id job.1.1), today)
      with (key_of job.1.1 today).
    rewrite Hk. cbn [view pending foldr]. rewrite upsert_lookup.
    unfold locking. cbn [in_txn pending]. by rewrite Hfree.
  - apply (alloc_quiet _ _ _ _ _ _ _ Hinv (ASelected n)); try done.
    + by apply (section_relock (ASelected n)).
    + intros m [= <-]. by left.
Qed.

(** Nobody else has taken the row of the thread's uuid: no other thread
    brings the same uuid. *)
Lemma ticket_row_free (ph : alloc_phase) :
  phs !! i = Some ph → inserted ph = false →
  ticket_locks w !! job.1.2 = None.
Proof.
  intros Hph Hins. destruct (ticket_locks w !! job.1.2) as [j|] eqn:Hl; [|done].
  apply (alloc_ticket_locks _ _ _ _ _ _ Hinv) in Hl as (Hj & x & Hx & Hxi).
  rewrite !list_lookup_fmap in Hj.
  destruct (jobs !! j) as [job'|] eqn:Hjob'; [|done]. injection Hj as Hid.
  assert (j = i) as -> by (by eapply job_unique).
  congruence.
Qed.

Lemma ticket_row_absent (ph : alloc_phase) :
  phs !! i = Some ph → done_with ph = None →
  tickets (store w) !! job.1.2 = None.
Proof.
  intros Hph Hd.
  rewrite (alloc_rows _ _ _ _ _ _ Hinv).
  - by eapply job_fresh.
  - intros j job' x n Hj Hx Hdx Hid.
    assert (j = i) as -> by (by eapply job_unique).
    congruence.
Qed.

Lemma move_updated (n : nat) :
  phs !! i = Some (AUpdated n) →
  let w' := lock i (TicketRow job.1.2) w in
  step_thread i (alloc_thread d0 today job (AUpdated n)) w
  = Some (alloc_thread d0 today job (AInserted n), w')
  ∧ alloc_invariant d0 today k jobs (<[i := AInserted n]> phs) w'.
Proof.
  intros Hph w'.
  destruct (job_valid _ _ _ _ _ _ _ _ Hinv Hjob) as (Hs & Hb & Hk).
  pose proof (ticket_row_free (AUpdated n) Hph eq_refl) as Hfree.
  pose proof (ticket_row_absent (AUpdated n) Hph eq_refl) as Hnone.
  assert (lockable i w (TicketRow job.1.2) = true) as Hlk
    by (unfold lockable, holder; by rewrite Hfree).
  split.
  - unfold alloc_thread. cbn [alloc_code alloc_conn].
    unfold post_insert at 1. rewrite step_in_post. cbn [exec_stmt].
    rewrite Hlk. cbn [view pending foldr].
    change (tickets (apply_write _ (apply_write _ (store w))))
      with (tickets (store w)).
    change (services (apply_write _ (apply_write _ (store w))))
      with (services (store w)).
    change (branches (apply_write _ (apply_write _ (store w))))
      with (branches (store w)).
    rewrite Hnone.
    change (service_id (values _ _ ?a _ _)) with a.
    change (branch_id (values _ _ _ ?a _)) with a.
    rewrite (job_references _ _ _ _ _ _ _ _ Hinv Hjob).
    unfold locking. cbn [in_txn pending]. by rewrite Hlk.
  - apply (alloc_same_store _ _ _ _ _ _ _ Hinv (AUpdated n)); try done.
    + apply (alloc_locks_kept (λ k' _, k' = k) (λ x, in_section x = true)
               phs i (AUpdated n) (AInserted n) (seq_locks w)); try done.
      apply Hinv.
    + apply (alloc_locks_acquired (λ id j, jobs.*1.*2 !! j = Some id)
               (λ x, inserted x = true)
               phs i (AUpdated n) (AInserted n) (ticket_locks w) _
               (alloc_ticket_locks _ _ _ _ _ _ Hinv) Hph job.1.2); try done.
      * intros j Hj. congruence.
      * by eapply job_id.
      * intros id Hid. erewrite job_id in Hid by done. congruence.
    + intros m [= <-]. by left.
Qed.

Lemma move_inserted (n : nat) :
  phs !! i = Some (AInserted n) →
  let w' := unlock_all i
              (with_store (view (alloc_conn d0 today job (AInserted n)) w) w) in
  step_thread i (alloc_thread d0 today job (AInserted n)) w
  = Some (alloc_thread d0 today job (ACommitted n), w')
  ∧ alloc_invariant d0 today k jobs (<[i := ACommitted n]> phs) w'.
Proof.
  intros Hph w'.
  destruct (job_valid _ _ _ _ _ _ _ _ Hinv Hjob) as (Hs & Hb & Hk).
  apply lookup_lt_Some in Hph as Hlt.
  pose proof (alloc_reading _ _ _ _ _ _ Hinv i _ n Hph eq_refl) as Hn.
  pose proof (omap_insert_new done_with phs i (AInserted n) (ACommitted n) n
                Hph eq_refl eq_refl) as Hom.
  split.
  - unfold alloc_thread. cbn [alloc_code]. unfold post_commit at 1.
    by rewrite step_in_post.
  - subst w'. cbn [alloc_conn view pending foldr]. rewrite Hk.
    set (d' := apply_write _ _).
    assert (current d' k = (n + 1)%nat) as Hcur
      by (unfold current; subst d';
          change (ticket_sequences (apply_write (WInsertTicket ?a ?b) ?d))
            with (ticket_sequences d);
          by rewrite update_lookup).
    assert (tickets d' = <[job.1.2 := row_of d0 job.1.1 n job.2]> (tickets (store w)))
      as Htk by done.
    assert (∀ j job', jobs !! j = Some job' → j ≠ i →
                      tickets d' !! job'.1.2 = tickets (store w) !! job'.1.2) as Hother.
    { intros j job' Hj Hne. rewrite Htk, lookup_insert_ne; [done|].
      intros Hid. apply Hne. by eapply job_unique. }
    constructor; try apply Hinv.
    + rewrite length_insert. apply Hinv.
    + by apply (alloc_free_step _ _ _ _ _ _ _ Hinv (AInserted n)).
    + apply (alloc_locks_released (λ k' _, k' = k) (λ x, in_section x = true)
               phs i (AInserted n) (ACommitted n) (seq_locks w)); try done.
      apply Hinv.
    + apply (alloc_locks_released (λ id j, jobs.*1.*2 !! j = Some id)
               (λ x, inserted x = true)
               phs i (AInserted n) (ACommitted n) (ticket_locks w)); try done.
      apply Hinv.
    + rewrite Hom. cbn [length store unlock_all with_store]. rewrite Hcur, Hn.
      rewrite (alloc_current _ _ _ _ _ _ Hinv). lia.
    + intros k' Hk'. cbn [store unlock_all with_store]. subst d'.
      change (ticket_sequences (apply_write (WInsertTicket ?a ?b) ?d))
        with (ticket_sequences d).
      change (ticket_sequences (apply_write (WUpdateSequence ?a ?b) ?d))
        with (alter (λ _, a) b (ticket_sequences d)).
      rewrite lookup_alter_ne by done.
      rewrite <-(alloc_others _ _ _ _ _ _ Hinv k' Hk').
      cbn [apply_write with_sequences ticket_sequences].
      destruct (ticket_sequences (store w) !! k); [done|].
      by rewrite lookup_insert_ne.
    + intros j x m Hx Hr. destruct (decide (j = i)) as [->|Hne].
      * rewrite list_lookup_insert_eq in Hx by done. by injection Hx as <-.
      * rewrite list_lookup_insert_ne in Hx by done.
        destruct Hne. eapply section_unique; try done.
        by destruct x.
    + rewrite Hom. cbn [length]. rewrite seq_S, <-Permutation_cons_append.
      rewrite Hn, (alloc_current _ _ _ _ _ _ Hinv).
      apply perm_skip, Hinv.
    + intros j job' x m Hj Hx Hd. cbn [store unlock_all with_store].
      destruct (decide (j = i)) as [->|Hne].
      * rewrite list_lookup_insert_eq in Hx by done. injection Hx as <-.
        injection Hd as <-. assert (job' = job) as -> by congruence.
        by rewrite Htk, lookup_insert_eq.
      * rewrite list_lookup_insert_ne in Hx by done.
        rewrite (Hother j job' Hj Hne).
        by apply (alloc_row _ _ _ _ _ _ Hinv j job' x m).
    + intros id Hno. cbn [store unlock_all with_store].
      rewrite Htk, lookup_insert_ne.
      * apply (alloc_rows _ _ _ _ _ _ Hinv).
        intros j job' x m Hj Hx Hd. apply (Hno j job' x m); [done| |done].
        rewrite list_lookup_insert_ne; [done|]. intros ->.
        rewrite Hph in Hx. by injection Hx as <-.
      * apply (Hno i job (ACommitted n) n); [done| |done].
        by rewrite list_lookup_insert_eq.
Qed.

Lemma move_committed (n : nat) (w1 : world) :
  phs !! i = Some (ACommitted n) → acquired w = Some w1 →
  step_thread i (alloc_thread d0 today job (ACommitted n)) w
  = Some (alloc_thread d0 today job (AAcquired n), w1)
  ∧ alloc_invariant d0 today k jobs (<[i := AAcquired n]> phs) w1.
Proof.
  intros Hph Hacq. split.
  - unfold alloc_thread. cbn [alloc_code alloc_conn].
    unfold post_reread at 1. by rewrite step_in_post_query, Hacq.
  - apply acquired_free in Hacq as (Hf & Hst & Hsl & Htl & Hev).
    apply (alloc_quiet _ _ _ _ _ _ _ Hinv (ACommitted n)); try done. cbn. lia.
Qed.

(** No connection is free for the re-read: the thread waits, with its
    own connection in hand. *)
Lemma wait_committed (n : nat) :
  acquired w = None →
  step_thread i (alloc_thread d0 today job (ACommitted n)) w = None.
Proof.
  intros Hacq. unfold alloc_thread. cbn [alloc_code alloc_conn].
  unfold post_reread at 1. by rewrite step_in_post_query, Hacq.
Qed.

Lemma move_acquired (n : nat) :
  phs !! i = Some (AAcquired n) →
  step_thread i (alloc_thread d0 today job (AAcquired n)) w
  = Some (alloc_thread d0 today job (AReread n), released w)
  ∧ alloc_invariant d0 today k jobs (<[i := AReread n]> phs) (released w).
Proof.
  intros Hph. split.
  - unfold alloc_thread. cbn [alloc_code alloc_conn].
    unfold post_fetch at 1. rewrite step_in_post. cbn [exec_stmt on pool_done].
    change (view idle w) with (store w).
    rewrite (alloc_row _ _ _ _ _ _ Hinv i job _ n Hjob Hph eq_refl).
    cbn [head mbind option_bind]. unfold created_json.
    rewrite (join_tables (store w) d0); [done|apply Hinv..].
  - apply (alloc_quiet _ _ _ _ _ _ _ Hinv (AAcquired n)); try done. cbn. lia.
Qed.

Lemma move_reread (n : nat) :
  phs !! i = Some (AReread n) →
  let w' := log (ticket_created
                   (Plain (join d0 job.1.2 (row_of d0 job.1.1 n job.2)))) w in
  step_thread i (alloc_thread d0 today job (AReread n)) w
  = Some (alloc_thread d0 today job (AEmitted n), w')
  ∧ alloc_invariant d0 today k jobs (<[i := AEmitted n]> phs) w'.
Proof.
  intros Hph w'. split.
  - unfold alloc_thread. cbn [alloc_code alloc_conn].
    unfold post_emit at 1. unfold created_json.
    cbn [fmap option_fmap option_map emitTicketCreated].
    by rewrite step_in_post.
  - by apply (alloc_quiet _ _ _ _ _ _ _ Hinv (AReread n)).
Qed.

Lemma move_emitted (n : nat) :
  phs !! i = Some (AEmitted n) →
  step_thread i (alloc_thread d0 today job (AEmitted n)) w
  = Some (alloc_thread d0 today job (AAnswered n), released w)
  ∧ alloc_invariant d0 today k jobs (<[i := AAnswered n]> phs) (released w).
Proof.
  intros Hph. split.
  - unfold alloc_thread. cbn [alloc_code alloc_conn]. unfold post_answer.
    by rewrite step_post_release.
  - apply (alloc_quiet _ _ _ _ _ _ _ Hinv (AEmitted n)); try done. cbn. lia.
Qed.

(** Every creation thread that has not answered sends its next
    statement and keeps the invariant, unless it is at the upsert and
    another thread holds the sequence row, or it asks for a connection
    and none is free. *)
Lemma alloc_move (ph : alloc_phase) :
  phs !! i = Some ph → alloc_remaining ph ≠ 0%nat →
  (ph = APrefixed ∧ lockable i w (SequenceRow k) = false
   ∧ step_thread i (alloc_thread d0 today job ph) w = None)
  ∨ ((ph = AStart ∨ ∃ n, ph = ACommitted n) ∧ free w = 0%nat
     ∧ step_thread i (alloc_thread d0 today job ph) w = None)
  ∨ ∃ ph' w',
      step_thread i (alloc_thread d0 today job ph) w
      = Some (alloc_thread d0 today job ph', w')
      ∧ alloc_invariant d0 today k jobs (<[i := ph']> phs) w'
      ∧ (alloc_remaining ph' < alloc_remaining ph)%nat.
Proof.
  intros Hph Hrem. destruct ph as [| | | | |n|n|n|n|n|n|n|n].
  - destruct (acquired w) as [w1|] eqn:Hacq.
    + right. right. eexists _, _. split; [apply (move_start w1 Hph Hacq)|].
      split; [apply (move_start w1 Hph Hacq)|simpl; lia].
    + right. left. split; [by left|]. split; [by apply acquired_None|].
      by apply wait_start.
  - right. right. eexists _, _. split; [apply (move_connected Hph)|].
    split; [apply (move_connected Hph)|simpl; lia].
  - right. right. eexists _, _. split; [apply (move_begun Hph)|].
    split; [apply (move_begun Hph)|simpl; lia].
  - destruct (lockable i w (SequenceRow k)) eqn:Hfree.
    + right. right. eexists _, _. split; [apply (move_prefixed Hph Hfree)|].
      split; [apply (move_prefixed Hph Hfree)|simpl; lia].
    + left. split; [done|]. split; [done|]. by apply wait_prefixed.
  - right. right. eexists _, _. split; [apply (move_upserted Hph)|].
    split; [apply (move_upserted Hph)|simpl; lia].
  - right. right. eexists _, _. split; [apply (move_selected n Hph)|].
    split; [apply (move_selected n Hph)|simpl; lia].
  - right. right. eexists _, _. split; [apply (move_updated n Hph)|].
    split; [apply (move_updated n Hph)|simpl; lia].
  - right. right. eexists _, _. split; [apply (move_inserted n Hph)|].
    split; [apply (move_inserted n Hph)|simpl; lia].
  - destruct (acquired w) as [w1|] eqn:Hacq.
    + right. right. eexists _, _. split; [apply (move_committed n w1 Hph Hacq)|].
      split; [apply (move_committed n w1 Hph Hacq)|simpl; lia].
    + right. left. split; [right; by exists n|].
      split; [by apply acquired_None|]. by apply wait_committed.
  - right. right. eexists _, _. split; [apply (move_acquired n Hph)|].
    split; [apply (move_acquired n Hph)|simpl; lia].
  - right. right. eexists _, _. split; [apply (move_reread n Hph)|].
    split; [apply (move_reread n Hph)|simpl; lia].
  - right. right. eexists _, _. split; [apply (move_emitted n Hph)|].
    split; [apply (move_emitted n Hph)|simpl; lia].
  - done.
Qed.

End alloc_moves.

Lemma sum_list_above (l : list nat) :
  (length l < sum_list l)%nat → ∃ j x, l !! j = Some x ∧ (2 ≤ x)%nat.
Proof.
  induction l as [|x l IH]; cbn; [lia|]. intros Hlt.
  destruct (decide (2 ≤ x)%nat) as [Hx|Hx]; [by exists 0%nat, x|].
  destruct IH as (j & y & Hj & Hy); [lia|]. by exists (S j), y.
Qed.

Section alloc_system.

Context (d0 : db) (today : string) (k : seq_key).

Lemma alloc_thread_steps jobs phs w i job ph th' w' :
  alloc_invariant d0 today k jobs phs w →
  jobs !! i = Some job → phs !! i = Some ph →
  step_thread i (alloc_thread d0 today job ph) w = Some (th', w') →
  ∃ ph', th' = alloc_thread d0 today job ph'
         ∧ alloc_invariant d0 today k jobs (<[i := ph']> phs) w'
         ∧ (alloc_remaining ph' < alloc_remaining ph)%nat.
Proof.
  intros Hinv Hjob Hph Hstep.
  destruct (decide (alloc_remaining ph = 0%nat)) as [Hz|Hnz].
  { by destruct ph. }
  destruct (alloc_move d0 today k jobs phs w i job Hinv Hjob ph Hph Hnz)
    as [(_ & _ & Hnone)|[(_ & _ & Hnone)|(ph' & w'' & Heq & Hinv' & Hlt)]];
    [congruence|congruence|].
  rewrite Heq in Hstep. injection Hstep as <- <-. eauto.
Qed.

(** A thread that holds the sequence row, or a second connection, can
    take its step. *)
Lemma alloc_holder_steps jobs phs w j ph :
  alloc_invariant d0 today k jobs phs w → phs !! j = Some ph →
  in_section ph = true ∨ alloc_connections ph = 2%nat →
  ∃ job, jobs !! j = Some job
         ∧ is_Some (step_thread j (alloc_thread d0 today job ph) w).
Proof.
  intros Hinv Hph Hholds.
  destruct (lookup_lt_is_Some_2 jobs j) as [job Hjob].
  { rewrite <-(alloc_length _ _ _ _ _ _ Hinv). by eapply lookup_lt_Some. }
  exists job. split; [done|].
  destruct (alloc_move d0 today k jobs phs w j job Hinv Hjob ph Hph)
    as [(-> & _)|[([->|[n ->]] & _)|(ph' & w' & Heq & _)]];
    [by destruct ph, Hholds|by destruct Hholds..|eauto].
Qed.

(** With fewer requests than connections, a thread that cannot step
    waits for one that can: for the thread that holds the sequence row,
    or for a thread that has taken its second connection. *)
Lemma alloc_thread_waits jobs phs w i job ph :
  (length jobs < connectionLimit)%nat →
  alloc_invariant d0 today k jobs phs w →
  jobs !! i = Some job → phs !! i = Some ph →
  alloc_remaining ph ≠ 0%nat →
  is_Some (step_thread i (alloc_thread d0 today job ph) w)
  ∨ ∃ j job' ph', jobs !! j = Some job' ∧ phs !! j = Some ph'
                  ∧ is_Some (step_thread j (alloc_thread d0 today job' ph') w).
Proof.
  intros Hfew Hinv Hjob Hph Hnz.
  destruct (alloc_move d0 today k jobs phs w i job Hinv Hjob ph Hph Hnz)
    as [(-> & Hheld & _)|[(_ & Hnone & _)|(ph' & w' & Heq & _)]]; [| |left; eauto].
  - right. unfold lockable, holder in Hheld.
    destruct (seq_locks w !! k) as [j|] eqn:Hl; [|done].
    apply (alloc_seq_locks _ _ _ _ _ _ Hinv) in Hl as (_ & x & Hx & Hsec).
    destruct (alloc_holder_steps jobs phs w j x Hinv Hx) as (job' & Hjob' & Hs);
      [by left|].
    by exists j, job', x.
  - right. pose proof (alloc_free _ _ _ _ _ _ Hinv) as Hf. rewrite Hnone in Hf.
    destruct (sum_list_above (alloc_connections <$> phs)) as (j & x & Hx & Htwo).
    { rewrite length_fmap, (alloc_length _ _ _ _ _ _ Hinv). cbn in Hf. lia. }
    rewrite list_lookup_fmap in Hx.
    destruct (phs !! j) as [phj|] eqn:Hphj; [|done]. injection Hx as <-.
    destruct (alloc_holder_steps jobs phs w j phj Hinv Hphj) as (job' & Hjob' & Hs).
    { right. destruct phj; cbn in *; lia. }
    by exists j, job', phj.
Qed.

Lemma alloc_thread_ends jobs phs w i (job : create_request * string * Z) ph :
  alloc_invariant d0 today k jobs phs w →
  jobs !! i = Some job → phs !! i = Some ph →
  alloc_remaining ph = 0%nat → ended (alloc_thread d0 today job ph).
Proof. intros _ _ _ Hz. by destruct ph. Qed.

(** A thread that has ended has answered. *)
Lemma alloc_ended (job : create_request * string * Z) ph :
  ended (alloc_thread d0 today job ph) → ∃ n, ph = AAnswered n.
Proof.
  unfold ended, alloc_thread. destruct ph; cbn [code alloc_code]; try done.
  eauto.
Qed.

Context (evs : list event) (jobs : list (create_request * string * Z)).
Context (Hvalid : Forall (λ job,
  JS.truthy (req_service_id job.1.1) = true
  ∧ JS.truthy (req_branch_id job.1.1) = true
  ∧ key_of job.1.1 today = k) jobs).
Context (Hids : NoDup (jobs.*1.*2)).
Context (Hfresh : Forall (λ id, tickets d0 !! id = None) (jobs.*1.*2)).
Context (Hservice : is_Some (services d0 !! k.1.1)).
Context (Hbranch : is_Some (branches d0 !! k.1.2)).

Lemma alloc_boot_threads :
  threads (boot d0 evs (creations today jobs))
  = zip_with (alloc_thread d0 today) jobs (replicate (length jobs) AStart).
Proof.
  unfold boot, creations. cbn. clear Hvalid Hids Hfresh Hservice Hbranch.
  induction jobs as [|job l IH]; [done|]. cbn. by rewrite IH.
Qed.

Lemma omap_replicate_start (n : nat) :
  omap done_with (replicate n AStart) = [].
Proof. induction n as [|n IH]; [done|]. cbn. apply IH. Qed.

Lemma alloc_boot_coherent :
  alloc_coherent d0 today k jobs (boot d0 evs (creations today jobs))
    (replicate (length jobs) AStart) (12 * length jobs).
Proof.
  split; [apply alloc_boot_threads|]. split.
  - split; rewrite ?omap_replicate_start; cbn; try done.
    + by rewrite length_replicate.
    + rewrite fmap_replicate, sum_list_replicate. cbn.
      unfold connectionLimit. lia.
    + intros k' j. rewrite lookup_empty. split; [done|].
      intros (_ & ph & Hph & Hs). apply lookup_replicate in Hph as [-> _]. done.
    + intros id j. rewrite lookup_empty. split; [done|].
      intros (_ & ph & Hph & Hs). apply lookup_replicate in Hph as [-> _]. done.
    + intros i ph n Hph. apply lookup_replicate in Hph as [-> _]. done.
    + intros i job ph n _ Hph. apply lookup_replicate in Hph as [-> _]. done.
  - rewrite fmap_replicate, sum_list_replicate. simpl. lia.
Qed.

Lemma alloc_reachable (s : system) :
  rtc step (boot d0 evs (creations today jobs)) s →
  ∃ phs m, alloc_coherent d0 today k jobs s phs m.
Proof.
  apply (phased_rtc (alloc_thread d0 today) (alloc_invariant d0 today k)
           alloc_remaining alloc_thread_steps jobs _ s _ _ alloc_boot_coherent).
Qed.

End alloc_system.

Lemma omap_insert_length {A B : Type} (f : A → option B) (l : list A) (i : nat)
    (x x' : A) :
  l !! i = Some x → (is_Some (f x) → is_Some (f x')) →
  (length (omap f l) ≤ length (omap f (<[i := x']> l)))%nat.
Proof.
  intros Hi Hf. destruct (f x) as [b|] eqn:Hx.
  - destruct (Hf ltac:(eauto)) as [b' Hx'].
    clear Hf. revert i Hi. induction l as [|y l IH]; intros [|i] Hi; try done.
    + injection Hi as ->. cbn. by rewrite Hx, Hx'.
    + cbn in *. specialize (IH _ Hi).
      destruct (f y); cbn; [apply le_n_S|]; apply IH.
  - destruct (f x') as [b'|] eqn:Hx'.
    + rewrite (omap_insert_new f l i x x' b' Hi Hx Hx'). cbn. lia.
    + by rewrite (omap_insert_same f l i x x' Hi); [|congruence].
Qed.

Lemma done_remaining (ph : alloc_phase) :
  is_Some (done_with ph) ↔ (alloc_remaining ph ≤ 4)%nat.
Proof.
  destruct ph; cbn; split; try lia; try (by intros [? [=]]); eauto.
Qed.

(** The phases of threads that have all answered. *)
Lemma all_answered (phs : list alloc_phase) :
  Forall (λ ph, ∃ n, ph = AAnswered n) phs →
  phs = AAnswered <$> omap done_with phs.
Proof.
  induction 1 as [|ph l [n ->] _ IH]; [done|]. cbn. by rewrite <-IH.
Qed.

(** Two lists read side by side. *)
Lemma omap_zipped {A B C D : Type} (f : A → option C) (g : B → option D)
    (h : A → D → C) (c : C → string) (e : D → string) (l : list A) :
  ∀ phs : list B, length phs = length l →
    (∀ i x ph, l !! i = Some x → phs !! i = Some ph →
               f x = h x <$> g ph ∧ ∀ n, c (h x n) = e n) →
    c <$> omap f l = e <$> omap g phs.
Proof.
  induction l as [|x l IH]; intros [|ph phs] Hlen Hf; try done.
  cbn. destruct (Hf 0%nat x ph eq_refl eq_refl) as [-> Hc].
  injection Hlen as Hlen.
  specialize (IH phs Hlen (λ i, Hf (S i))).
  destruct (g ph) as [n|]; cbn; [|done]. by rewrite Hc, IH.
Qed.

Section alloc_results.

Context (d0 : db) (today : string) (k : seq_key)
  (jobs : list (create_request * string * Z)).

(** No step of a run lowers a stored value. *)
Lemma alloc_monotone (s s' : system) (phs : list alloc_phase) (m : nat)
    (k' : seq_key) :
  alloc_coherent d0 today k jobs s phs m → step s s' →
  (current (store (shared s)) k' ≤ current (store (shared s')) k')%nat.
Proof.
  intros (Hth & Hinv & _) Hstep.
  destruct Hstep as [s i th th' w' Hi Hstep]. cbn [shared].
  rewrite Hth in Hi.
  apply lookup_zip_with_Some in Hi as (job & ph & -> & Hjob & Hph).
  destruct (alloc_thread_steps d0 today k jobs phs (shared s) i job ph th' w'
              Hinv Hjob Hph Hstep) as (ph' & _ & Hinv' & Hlt).
  destruct (decide (k' = k)) as [->|Hne].
  - rewrite (alloc_current _ _ _ _ _ _ Hinv), (alloc_current _ _ _ _ _ _ Hinv').
    apply Nat.add_le_mono_l, (omap_insert_length done_with phs i ph ph' Hph).
    rewrite !done_remaining. lia.
  - unfold current.
    by rewrite (alloc_others _ _ _ _ _ _ Hinv k' Hne),
               (alloc_others _ _ _ _ _ _ Hinv' k' Hne).
Qed.

(** The number on the answer of a thread that read [n]. *)
Lemma alloc_answer_number (job : create_request * string * Z) (n : nat) :
  key_of job.1.1 today = k →
  issued_number (answer (alloc_thread d0 today job (AAnswered n)))
  = Some (ticketNumber (JS.or_default (services d0 !! k.1.1 ≫= svc_prefix) "TKT")
            (n + 1)).
Proof. intros <-. reflexivity. Qed.

(** When all threads have ended, each has a ticket number, and the
    numbers are those after the first stored value, each once. *)
Lemma alloc_numbers (s : system) (phs : list alloc_phase) (m : nat) :
  alloc_coherent d0 today k jobs s phs m → quiescent s →
  let prefix := JS.or_default (services d0 !! k.1.1 ≫= svc_prefix) "TKT" in
  ∃ ns : list nat,
    ns ≡ₚ seq (current d0 k + 1) (length jobs)
    ∧ issued_number <$> (answer <$> threads s)
      = (λ n, Some (ticketNumber prefix n)) <$> ns
    ∧ current (store (shared s)) k = (current d0 k + length jobs)%nat
    ∧ ∀ i job n, jobs !! i = Some job → ns !! i = Some n →
        ∃ row, tickets (store (shared s)) !! job.1.2 = Some row
               ∧ ticket_number row = ticketNumber prefix n.
Proof.
  intros (Hth & Hinv & _) Hq prefix.
  pose proof (alloc_length _ _ _ _ _ _ Hinv) as Hlen.
  assert (Forall (λ ph, ∃ n, ph = AAnswered n) phs) as Hans.
  { apply Forall_lookup. intros i ph Hph.
    destruct (lookup_lt_is_Some_2 jobs i) as [job Hjob].
    { rewrite <-Hlen. by eapply lookup_lt_Some. }
    apply (alloc_ended d0 today job ph).
    unfold quiescent in Hq. rewrite Forall_lookup in Hq. apply (Hq i).
    by rewrite Hth, lookup_zip_with, Hjob, Hph. }
  apply all_answered in Hans. set (ns0 := omap done_with phs) in *.
  assert (length ns0 = length jobs) as Hlen0.
  { rewrite <-Hlen. rewrite Hans at 1. by rewrite length_fmap. }
  exists (S <$> ns0). split; [|split; [|split]].
  - rewrite Nat.add_1_r, <-fmap_S_seq. apply fmap_Permutation.
    rewrite <-Hlen0. apply Hinv.
  - rewrite Hth, Hans. apply list_eq. intros i.
    rewrite !list_lookup_fmap, lookup_zip_with, list_lookup_fmap.
    destruct (jobs !! i) as [job|] eqn:Hjob; cbn.
    + destruct (ns0 !! i) as [n|] eqn:Hn; cbn; [|done].
      rewrite alloc_answer_number, Nat.add_1_r; [done|].
      pose proof (alloc_valid _ _ _ _ _ _ Hinv) as Hv.
      rewrite Forall_lookup in Hv. apply (Hv i job Hjob).
    + apply lookup_ge_None in Hjob. rewrite <-Hlen0 in Hjob.
      apply lookup_ge_None in Hjob. by rewrite Hjob.
  - rewrite (alloc_current _ _ _ _ _ _ Hinv). fold ns0. by rewrite Hlen0.
  - intros i job n Hjob Hn. rewrite list_lookup_fmap in Hn.
    destruct (ns0 !! i) as [n0|] eqn:Hn0; [|done]. injection Hn as <-.
    exists (row_of d0 job.1.1 n0 job.2). split.
    + apply (alloc_row _ _ _ _ _ _ Hinv i job (AAnswered n0) n0); [done| |done].
      by rewrite Hans, list_lookup_fmap, Hn0.
    + pose proof (alloc_valid _ _ _ _ _ _ Hinv) as Hv.
      rewrite Forall_lookup in Hv. destruct (Hv i job Hjob) as (_ & _ & <-).
      cbn. by rewrite Nat.add_1_r.
Qed.

(** In every state of a run, the tickets of the run that are in the
    table carry the numbers after the first stored value up to the
    stored value, each once. *)
Lemma alloc_stored (s : system) (phs : list alloc_phase) (m : nat) :
  alloc_coherent d0 today k jobs s phs m →
  let prefix := JS.or_default (services d0 !! k.1.1 ≫= svc_prefix) "TKT" in
  let d := store (shared s) in
  ticket_number <$> omap (λ job, tickets d !! job.1.2) jobs
  ≡ₚ ticketNumber prefix <$> seq (current d0 k + 1) (current d k - current d0 k).
Proof.
  intros (Hth & Hinv & _) prefix d. subst d.
  pose proof (alloc_valid _ _ _ _ _ _ Hinv) as Hv. rewrite Forall_lookup in Hv.
  rewrite (omap_zipped (λ job : create_request * string * Z,
                          tickets (store (shared s)) !! job.1.2) done_with
             (λ job n, row_of d0 job.1.1 n job.2) ticket_number
             (λ n, ticketNumber prefix (S n)) jobs) with (phs := phs).
  - rewrite (alloc_current _ _ _ _ _ _ Hinv).
    replace (current d0 k + length (omap done_with phs) - current d0 k)%nat
      with (length (omap done_with phs)) by lia.
    rewrite Nat.add_1_r, <-fmap_S_seq, <-list_fmap_compose.
    apply fmap_Permutation, Hinv.
  - apply Hinv.
  - intros i job ph Hjob Hph. split.
    2:{ intros n. destruct (Hv i job Hjob) as (_ & _ & Hk). subst prefix.
        rewrite <-Hk. cbn. by rewrite Nat.add_1_r. }
    destruct (done_with ph) as [n|] eqn:Hd; cbn.
    + by apply (alloc_row _ _ _ _ _ _ Hinv i job ph n).
    + rewrite (alloc_rows _ _ _ _ _ _ Hinv).
      * pose proof (alloc_fresh _ _ _ _ _ _ Hinv) as Hfr.
        rewrite Forall_lookup in Hfr. apply (Hfr i).
        by rewrite !list_lookup_fmap, Hjob.
      * intros i' job' ph' n Hjob' Hph' Hd' Heq.
        assert (i' = i) as ->.
        { apply (NoDup_lookup (jobs.*1.*2) i' i job.1.2 (alloc_ids _ _ _ _ _ _ Hinv)).
          - by rewrite !list_lookup_fmap, Hjob', <-Heq.
          - by rewrite !list_lookup_fmap, Hjob. }
        congruence.
Qed.

End alloc_results.

(** With fewer creations than connections, every run can be completed,
    and no state of a run is a deadlock. *)
Lemma alloc_completes (d0 : db) (today : string) (k : seq_key)
    (jobs : list (create_request * string * Z)) (s : system)
    (phs : list alloc_phase) (m : nat) :
  (length jobs < connectionLimit)%nat →
  alloc_coherent d0 today k jobs s phs m →
  (∃ fin, rtc step s fin ∧ quiescent fin)
  ∧ (¬ quiescent s → ∃ s', step s s').
Proof.
  intros Hfew (Hth & Hinv & Hm).
  set (few := λ (jobs : list (create_request * string * Z))
                (phs : list alloc_phase) (w : world),
         (length jobs < connectionLimit)%nat
         ∧ alloc_invariant d0 today k jobs phs w).
  assert (at_points (alloc_thread d0 today) few alloc_remaining jobs s phs m)
    as Hco by done.
  assert (∀ reqs phs w i r ph th' w',
            few reqs phs w → reqs !! i = Some r → phs !! i = Some ph →
            step_thread i (alloc_thread d0 today r ph) w = Some (th', w') →
            ∃ ph', th' = alloc_thread d0 today r ph'
                   ∧ few reqs (<[i := ph']> phs) w'
                   ∧ (alloc_remaining ph' < alloc_remaining ph)%nat) as Hsteps.
  { intros reqs phs' w i r ph th' w' [Hlt Hi] Hr Hph Hstep.
    destruct (alloc_thread_steps d0 today k reqs phs' w i r ph th' w'
                Hi Hr Hph Hstep) as (ph' & -> & Hi' & Hrem).
    exists ph'. split; [done|]. split; [by split|done]. }
  assert (∀ reqs phs w i r ph,
            few reqs phs w → reqs !! i = Some r → phs !! i = Some ph →
            alloc_remaining ph ≠ 0%nat →
            is_Some (step_thread i (alloc_thread d0 today r ph) w)
            ∨ ∃ j r' ph', reqs !! j = Some r' ∧ phs !! j = Some ph'
                          ∧ is_Some (step_thread j (alloc_thread d0 today r' ph') w))
    as Hwaits.
  { intros reqs phs' w i r ph [Hlt Hi]. by apply (alloc_thread_waits d0 today k). }
  assert (∀ reqs phs w i r ph,
            few reqs phs w → reqs !! i = Some r → phs !! i = Some ph →
            alloc_remaining ph = 0%nat → ended (alloc_thread d0 today r ph))
    as Hends.
  { intros reqs phs' w i r ph [Hlt Hi]. by apply (alloc_thread_ends d0 today k reqs phs' w). }
  split.
  - apply (phased_finishes (alloc_thread d0 today) few alloc_remaining
             Hsteps Hwaits Hends jobs m s phs Hco).
  - apply (phased_progress (alloc_thread d0 today) few alloc_remaining
             Hwaits Hends jobs s phs m Hco).
Qed.

(** ** A run of creations that takes every connection of the pool *)

Section rush.

Context (d0 : db) (today : string) (k : seq_key)
  (jobs : list (create_request * string * Z)).

(** A step of a creation thread is a step of the system. *)
Lemma alloc_system_step (s : system) (phs : list alloc_phase) (m i : nat)
    (job : create_request * string * Z) (ph ph' : alloc_phase) (w' : world) :
  alloc_coherent d0 today k jobs s phs m →
  jobs !! i = Some job → phs !! i = Some ph →
  step_thread i (alloc_thread d0 today job ph) (shared s)
  = Some (alloc_thread d0 today job ph', w')
  ∧ alloc_invariant d0 today k jobs (<[i := ph']> phs) w' →
  ∃ s' m', step s s'
           ∧ alloc_coherent d0 today k jobs s' (<[i := ph']> phs) m'.
Proof.
  intros (Hth & Hinv & Hm) Hjob Hph [Hstep Hinv'].
  exists {| threads := <[i := alloc_thread d0 today job ph']> (threads s);
            shared := w' |}, (sum_list (alloc_remaining <$> <[i := ph']> phs)).
  split.
  - apply (step_of s i (alloc_thread d0 today job ph)); [|done].
    by rewrite Hth, lookup_zip_with, Hjob, Hph.
  - split; [|split; [done|done]]. cbn. rewrite Hth.
    rewrite <-(list_insert_id jobs i job) at 2 by done.
    by rewrite <-insert_zip_with.
Qed.

(** One more step of thread [i], from the program point it has reached. *)
Lemma alloc_advance (s0 s : system) (phs : list alloc_phase) (m i : nat)
    (job : create_request * string * Z) (ph ph' : alloc_phase) (w' : world) :
  (i < length phs)%nat →
  rtc step s0 s →
  alloc_coherent d0 today k jobs s (<[i := ph]> phs) m →
  jobs !! i = Some job →
  (alloc_invariant d0 today k jobs (<[i := ph]> phs) (shared s) →
   <[i := ph]> phs !! i = Some ph →
   step_thread i (alloc_thread d0 today job ph) (shared s)
   = Some (alloc_thread d0 today job ph', w')
   ∧ alloc_invariant d0 today k jobs (<[i := ph']> (<[i := ph]> phs)) w') →
  ∃ s' m', rtc step s0 s'
           ∧ alloc_coherent d0 today k jobs s' (<[i := ph']> phs) m'.
Proof.
  intros Hlt Hrun Hco Hjob Hmove.
  assert (<[i := ph]> phs !! i = Some ph) as Hph
    by (by apply list_lookup_insert_eq).
  destruct (alloc_system_step s _ m i job ph ph' w' Hco Hjob Hph
              (Hmove (proj1 (proj2 Hco)) Hph)) as (s' & m' & Hstep & Hco').
  rewrite list_insert_insert_eq in Hco'.
  exists s', m'. split; [|done]. by eapply rtc_r.
Qed.

(** A thread at its start, with a connection free and nobody between
    upsert and commit, runs alone up to its COMMIT. *)
Lemma alloc_rush (s : system) (phs : list alloc_phase) (m i : nat) :
  alloc_coherent d0 today k jobs s phs m →
  phs !! i = Some AStart →
  free (shared s) ≠ 0%nat →
  Forall (λ ph, in_section ph = false) phs →
  ∃ s' n m', rtc step s s'
             ∧ alloc_coherent d0 today k jobs s' (<[i := ACommitted n]> phs) m'.
Proof.
  intros Hco Hph Hfree Hout.
  pose proof Hco as (_ & Hinv & _).
  apply lookup_lt_Some in Hph as Hlt.
  destruct (lookup_lt_is_Some_2 jobs i) as [job Hjob].
  { by rewrite <-(alloc_length _ _ _ _ _ _ Hinv). }
  destruct (acquired (shared s)) as [w1|] eqn:Hacq; last first.
  { by apply acquired_None in Hacq. }
  (* the connection *)
  destruct (alloc_system_step s phs m i job AStart AConnected w1 Hco Hjob Hph
              (move_start d0 today k jobs phs (shared s) i job Hinv Hjob w1
                 Hph Hacq)) as (s1 & m1 & Hstep1 & Hco1).
  assert (rtc step s s1) as Hrun1 by (by apply rtc_once).
  (* BEGIN *)
  destruct (alloc_advance s s1 phs m1 i job AConnected ABegun (shared s1)
              Hlt Hrun1 Hco1 Hjob) as (s2 & m2 & Hrun2 & Hco2).
  { intros Hi Hp. by apply move_connected. }
  (* the prefix *)
  destruct (alloc_advance s s2 phs m2 i job ABegun APrefixed (shared s2)
              Hlt Hrun2 Hco2 Hjob) as (s3 & m3 & Hrun3 & Hco3).
  { intros Hi Hp. by apply move_begun. }
  (* the upsert: nobody holds the sequence row *)
  destruct (alloc_advance s s3 phs m3 i job APrefixed AUpserted
              (lock i (SequenceRow k) (shared s3)) Hlt Hrun3 Hco3 Hjob)
    as (s4 & m4 & Hrun4 & Hco4).
  { intros Hi Hp. apply move_prefixed; [done|done|done|].
    unfold lockable, holder.
    destruct (seq_locks (shared s3) !! k) as [j|] eqn:Hl; [|done].
    apply (alloc_seq_locks _ _ _ _ _ _ Hi) in Hl as (_ & ph & Hj & Hsec).
    destruct (decide (j = i)) as [->|Hne].
    - rewrite Hp in Hj. by injection Hj as <-.
    - rewrite list_lookup_insert_ne in Hj by done.
      rewrite Forall_lookup in Hout. by rewrite (Hout j ph Hj) in Hsec. }
  (* the SELECT, the UPDATE, the INSERT and the COMMIT *)
  destruct (alloc_advance s s4 phs m4 i job AUpserted
              (ASelected (current (store (shared s4)) k))
              (lock i (SequenceRow k) (shared s4)) Hlt Hrun4 Hco4 Hjob)
    as (s5 & m5 & Hrun5 & Hco5).
  { intros Hi Hp. by apply move_upserted. }
  set (n := current (store (shared s4)) k) in *.
  destruct (alloc_advance s s5 phs m5 i job (ASelected n) (AUpdated n)
              (lock i (SequenceRow k) (shared s5)) Hlt Hrun5 Hco5 Hjob)
    as (s6 & m6 & Hrun6 & Hco6).
  { intros Hi Hp. by apply move_selected. }
  destruct (alloc_advance s s6 phs m6 i job (AUpdated n) (AInserted n)
              (lock i (TicketRow job.1.2) (shared s6)) Hlt Hrun6 Hco6 Hjob)
    as (s7 & m7 & Hrun7 & Hco7).
  { intros Hi Hp. by apply move_updated. }
  destruct (alloc_advance s s7 phs m7 i job (AInserted n) (ACommitted n)
              (unlock_all i
                 (with_store (view (alloc_conn d0 today job (AInserted n))
                                (shared s7)) (shared s7)))
              Hlt Hrun7 Hco7 Hjob) as (s8 & m8 & Hrun8 & Hco8).
  { intros Hi Hp. by apply move_inserted. }
  by exists s8, n, m8.
Qed.

(** The connections of threads of which the first have committed and
    the others have not started. *)
Lemma committed_connections (ns : list nat) (r : nat) :
  sum_list (alloc_connections <$> ((ACommitted <$> ns) ++ replicate r AStart)%list)
  = length ns.
Proof.
  induction ns as [|n ns IH]; cbn.
  - rewrite fmap_replicate, sum_list_replicate. cbn. lia.
  - by rewrite IH.
Qed.

Lemma committed_outside (ns : list nat) (r : nat) :
  Forall (λ ph, in_section ph = false) ((ACommitted <$> ns) ++ replicate r AStart)%list.
Proof.
  apply Forall_app. split.
  - apply Forall_fmap. by apply Forall_true.
  - by apply Forall_replicate.
Qed.

(** Creation after creation runs up to its COMMIT, as long as a
    connection is left. *)
Lemma alloc_rushes (s0 : system) (m0 : nat) :
  alloc_coherent d0 today k jobs s0 (replicate (length jobs) AStart) m0 →
  ∀ i, (i ≤ connectionLimit)%nat → (i ≤ length jobs)%nat →
    ∃ s ns m,
      rtc step s0 s ∧ length ns = i
      ∧ alloc_coherent d0 today k jobs s
          ((ACommitted <$> ns) ++ replicate (length jobs - i) AStart)%list m.
Proof.
  intros Hco0. induction i as [|i IH]; intros Hlim Hlen.
  - exists s0, [], m0. split; [done|]. split; [done|].
    by rewrite Nat.sub_0_r.
  - destruct IH as (s & ns & m & Hrun & Hns & Hco); [lia..|].
    pose proof Hco as (_ & Hinv & _).
    assert (((ACommitted <$> ns) ++ replicate (length jobs - i) AStart)%list !! i
            = Some AStart) as Hph.
    { rewrite lookup_app_r by (rewrite length_fmap; lia).
      rewrite length_fmap, Hns, Nat.sub_diag.
      apply lookup_replicate. split; [done|lia]. }
    destruct (alloc_rush s _ m i Hco Hph) as (s' & n & m' & Hrun' & Hco').
    { pose proof (alloc_free _ _ _ _ _ _ Hinv) as Hf.
      rewrite committed_connections, Hns in Hf. lia. }
    { apply committed_outside. }
    exists s', (ns ++ [n])%list, m'. split; [by etrans|].
    split; [rewrite length_app; cbn; lia|].
    replace ((ACommitted <$> (ns ++ [n])%list) ++ replicate (length jobs - S i) AStart)%list
      with (<[i := ACommitted n]>
              ((ACommitted <$> ns) ++ replicate (length jobs - i) AStart)%list);
      [done|].
    rewrite insert_app_r_alt by (rewrite length_fmap; lia).
    rewrite length_fmap, Hns, Nat.sub_diag.
    replace (length jobs - i)%nat with (S (length jobs - S i)) by lia.
    cbn. by rewrite fmap_app, <-app_assoc.
Qed.

(** With every connection held by a creation that has committed, no
    thread can take a step. *)
Lemma alloc_stuck (s : system) (ns : list nat) (r m : nat) :
  length ns = connectionLimit →
  alloc_coherent d0 today k jobs s ((ACommitted <$> ns) ++ replicate r AStart)%list m →
  (∀ s', ¬ step s s')
  ∧ Forall (λ th, ¬ ended th ∧ answer th = None) (threads s)
  ∧ free (shared s) = 0%nat
  ∧ current (store (shared s)) k = (current d0 k + connectionLimit)%nat.
Proof.
  intros Hns (Hth & Hinv & _).
  pose proof (alloc_free _ _ _ _ _ _ Hinv) as Hf.
  rewrite committed_connections, Hns in Hf.
  assert (free (shared s) = 0%nat) as Hfree by lia.
  assert (∀ i ph, ((ACommitted <$> ns) ++ replicate r AStart)%list !! i = Some ph →
                  ph = AStart ∨ ∃ n, ph = ACommitted n) as Hphs.
  { intros i ph Hph. apply lookup_app_Some in Hph as [Hph|[_ Hph]].
    - rewrite list_lookup_fmap in Hph.
      destruct (ns !! i) as [n|]; [|done]. injection Hph as <-. eauto.
    - apply lookup_replicate in Hph as [-> _]. by left. }
  split; [|split; [|split; [done|]]].
  - intros s' Hstep. destruct Hstep as [s i th th' w' Hi Hstep].
    rewrite Hth in Hi.
    apply lookup_zip_with_Some in Hi as (job & ph & -> & Hjob & Hph).
    assert (acquired (shared s) = None) as Hacq by (by apply acquired_None).
    destruct (Hphs i ph Hph) as [->|[n ->]].
    + by rewrite (wait_start d0 today k jobs _ (shared s) i job Hinv Hjob Hacq)
        in Hstep.
    + by rewrite (wait_committed d0 today (shared s) i job n Hacq) in Hstep.
  - rewrite Hth. apply Forall_lookup. intros i th Hi.
    apply lookup_zip_with_Some in Hi as (job & ph & -> & Hjob & Hph).
    split.
    + intros Hend. destruct (alloc_ended d0 today job ph Hend) as [n ->].
      by destruct (Hphs i _ Hph) as [?|[? ?]].
    + by destruct (Hphs i ph Hph) as [->|[n ->]].
  - rewrite (alloc_current _ _ _ _ _ _ Hinv). f_equal.
    rewrite omap_app.
    replace (omap done_with (replicate r AStart)) with (@nil nat)
      by (symmetry; apply omap_replicate_start).
    rewrite app_nil_r, <-Hns. clear. induction ns as [|n ns IH]; [done|].
    cbn. by rewrite IH.
Qed.

End rush.

(** * The properties of the specification *)

(** C1.  The sequence value of a key starts at 0 while the key has no
    row; each allocation stores the current value plus one and numbers
    its ticket with it; no request of the ticket routes ever lowers a
    stored value; N creations for one key of an existing service and
    branch, served one after the other, get the values 1..N, each once.
    N such creations served at the same time with distinct fresh uuids,
    no statement failing, in any interleaving of their statements: no
    step lowers a stored value; in every state of the run the tickets of
    the run that are in the table carry the numbers after the first
    stored value up to the stored value, each once; and when all have
    answered, the answers carry the N values after the first stored
    one, each once.  Every creation holds its connection while it takes
    a second one of the pool to read its ticket back: when there are
    fewer creations than connections in the pool, every run can be
    completed and no state of a run is a deadlock. *)
Theorem sequence_allocation (t : nat) (today sid bid : string)
    (jobs : list (create_request * string * Z)) (d : db) (evs : list event) :
  sid ≠ "" → bid ≠ "" →
  is_Some (services d !! sid) → is_Some (branches d !! bid) →
  Forall (λ job, req_service_id job.1.1 = Some sid
                 ∧ req_branch_id job.1.1 = Some bid) jobs →
  NoDup (jobs.*1.*2) →
  Forall (λ id, tickets d !! id = None) (jobs.*1.*2) →
  let k := (sid, bid, today) in
  let prefix := JS.or_default (services d !! sid ≫= svc_prefix) "TKT" in
  let rs := (issue t today k jobs (at_rest d evs)).1 in
  let numbers := seq (current d k + 1) (length jobs) in
  (rs.*2 = numbers
   ∧ issued_number <$> rs.*1 = (λ n, Some (ticketNumber prefix n)) <$> numbers
   ∧ (ticket_sequences d !! k = None → rs.*2 = seq 1 (length jobs))
   ∧ NoDup (rs.*2)
   ∧ (∀ (q : request) (fs : list bool) r c w (k' : seq_key),
        run t (handler q) idle fs (at_rest d evs) = Finished r c w →
        (current d k' ≤ current (store w) k')%nat))
  ∧ (∀ n s, nsteps step n (boot d evs (creations today jobs)) s →
            (n ≤ 12 * length jobs)%nat)
  ∧ ∀ s, rtc step (boot d evs (creations today jobs)) s →
      let d' := store (shared s) in
      (∀ s' k', step s s' →
                (current d' k' ≤ current (store (shared s')) k')%nat)
      ∧ ticket_number <$> omap (λ job, tickets d' !! job.1.2) jobs
        ≡ₚ ticketNumber prefix <$> seq (current d k + 1) (current d' k - current d k)
      ∧ (quiescent s →
         ∃ ns : list nat,
           ns ≡ₚ numbers
           ∧ issued_number <$> (answer <$> threads s)
             = (λ n, Some (ticketNumber prefix n)) <$> ns
           ∧ current d' k = (current d k + length jobs)%nat
           ∧ ∀ i job n, jobs !! i = Some job → ns !! i = Some n →
               ∃ row, tickets d' !! job.1.2 = Some row
                      ∧ ticket_number row = ticketNumber prefix n)
      ∧ ((length jobs < connectionLimit)%nat →
         (∃ fin, rtc step s fin ∧ quiescent fin)
         ∧ (¬ quiescent s → ∃ s', step s s')).
Proof.
  intros Hsid Hbid Hsv Hbr Hreq Hnd Hfresh k prefix rs numbers.
  split.
  { destruct (issue_numbers t today sid bid jobs Hsid Hbid d evs)
      as (rs' & d' & evs' & Hrun & Hvals & Hnums & _).
    { by apply Forall_forall. }
    { done. }
    { done. }
    { done. }
    { by apply Forall_forall. }
    fold k prefix numbers in Hrun, Hvals, Hnums.
    assert (rs = rs') as -> by (unfold rs; by rewrite Hrun).
    split; [done|]. split; [done|]. split; [|split].
    - intros Hnone. rewrite Hvals. unfold numbers, current. by rewrite Hnone.
    - rewrite Hvals. apply NoDup_seq.
    - intros q fs r c w k' Hq.
      destruct q as [req td id now|id req user now|req now|id now]; cbn [handler] in Hq.
      + destruct (post_ticket_atomic t d evs req td id now fs) as (r' & c' & w' & Hrun' & Hst).
        rewrite Hrun' in Hq. injection Hq as <- <- <-.
        destruct Hst as [->|[_ ->]]; [done|]. apply created_monotone.
      + destruct (patch_ticket_atomic t d evs id req user now fs) as (r' & c' & w' & Hrun' & Hst).
        rewrite Hrun' in Hq. injection Hq as <- <- <-.
        by destruct Hst as [->| ->].
      + destruct (call_next_atomic t d evs req now fs) as (r' & c' & w' & Hrun' & Hst).
        rewrite Hrun' in Hq. injection Hq as <- <- <-.
        by destruct Hst as [->|(id & _ & ->)].
      + destruct (delete_ticket_atomic t d evs id now fs) as (r' & c' & w' & Hrun' & Hst).
        rewrite Hrun' in Hq. injection Hq as <- <- <-.
        by destruct Hst as [->| ->]. }
  assert (Forall (λ job, JS.truthy (req_service_id job.1.1) = true
                         ∧ JS.truthy (req_branch_id job.1.1) = true
                         ∧ key_of job.1.1 today = k) jobs) as Hvalid.
  { eapply Forall_impl; [exact Hreq|]. intros job [Hs Hb]. cbn beta in *.
    unfold key_of. rewrite Hs, Hb. cbn.
    split; [by destruct (String.eqb_spec sid "")|].
    split; [by destruct (String.eqb_spec bid "")|done]. }
  pose proof (alloc_boot_coherent d today k evs jobs Hvalid Hnd Hfresh Hsv Hbr)
    as Hboot.
  split.
  { intros n s Hrun.
    destruct (phased_nsteps (alloc_thread d today) (alloc_invariant d today k)
                alloc_remaining (alloc_thread_steps d today k) jobs _ _ _ n s
                Hboot Hrun) as (phs & m & _ & Hle).
    lia. }
  intros s Hrun d'.
  destruct (alloc_reachable d today k evs jobs Hvalid Hnd Hfresh Hsv Hbr s Hrun)
    as (phs & m & Hco).
  split.
  { intros s' k' Hstep. by eapply alloc_monotone. }
  split.
  { apply (alloc_stored d today k jobs s phs m Hco). }
  split.
  { intros Hq. apply (alloc_numbers d today k jobs s phs m Hco Hq). }
  intros Hfew. by apply (alloc_completes d today k jobs s phs m).
Qed.

Lemma sequence_allocation_witness :
  let fin := schedule turns (boot demo_db [] (creations "2024-01-01" demo_jobs)) in
  (issue 0 "2024-01-01" ("svcA", "B1", "2024-01-01") demo_jobs
     (at_rest demo_db [])).1.*2 = [1; 2; 3]%nat
  ∧ quiescent fin
  ∧ issued_number <$> (answer <$> threads fin)
    = [Some "A-002"; Some "A-003"; Some "A-001"]
  ∧ ∃ ns, ns ≡ₚ [1; 2; 3]%nat
          ∧ issued_number <$> (answer <$> threads fin)
            = (λ n, Some (ticketNumber "A" n)) <$> ns.
Proof.
  intros fin.
  assert (quiescent fin) as Hq.
  { unfold quiescent. apply (bool_decide_unpack _). vm_compute. exact I. }
  destruct (sequence_allocation 0 "2024-01-01" "svcA" "B1"
              demo_jobs demo_db []) as (Hseq & _ & Hruns).
  - discriminate.
  - discriminate.
  - apply (bool_decide_unpack _). vm_compute. exact I.
  - apply (bool_decide_unpack _). vm_compute. exact I.
  - repeat constructor.
  - apply (bool_decide_unpack _). vm_compute. exact I.
  - repeat constructor.
  - split; [exact (proj1 Hseq)|]. split; [exact Hq|].
    split; [vm_compute; reflexivity|].
    destruct (Hruns fin (schedule_steps _ _)) as (_ & _ & Hfin & _).
    destruct (Hfin Hq) as (ns & Hperm & Hnums & _).
    exists ns. split; [exact Hperm|exact Hnums].
Defined.

(** C2.  Call-next requests of one pool (their counters are of one
    branch, their service filter is the same), served at the same time,
    no statement failing, in any interleaving of their statements: every
    run ends, no two requests
    are ever answered with the same ticket, and when the pool has K
    waiting tickets and there are K+M requests, at the end exactly the K
    tickets of the pool are serving, each given to one request, and M
    requests were answered that the queue is empty. *)
Theorem no_double_dispatch (d : db) (evs : list event)
    (reqs : list (call_request * Z)) (b : string) (sf : option string)
    (K M : nat) :
  Forall (λ rq, JS.truthy (call_counter_id rq.1) = true
                ∧ counter_branch d (default "" (call_counter_id rq.1)) = Some b
                ∧ call_service_id rq.1 = sf) reqs →
  size (pool d b sf) = K →
  length reqs = (K + M)%nat →
  (∀ n s, nsteps step n (boot d evs (calls reqs)) s → (n ≤ 10 * (K + M))%nat)
  ∧ ∀ s, rtc step (boot d evs (calls reqs)) s →
      let answers := answer <$> threads s in
      (∃ fin, rtc step s fin ∧ quiescent fin)
      ∧ (¬ quiescent s → ∃ s', step s s')
      ∧ NoDup (omap called_id answers)
      ∧ (quiescent s →
         Forall (λ a, is_Some (called_id a)
                      ∨ a = Some {| http := 200;
                                    json := NoTicket "No tickets in queue" |})
           answers
         ∧ length (omap called_id answers) = K
         ∧ length (filter (λ a, no_ticket a = true) answers) = M
         ∧ (∀ id row, pool d b sf !! id = Some row →
              ∃ i req now,
                reqs !! i = Some (req, now)
                ∧ called_id <$> answers !! i = Some (Some id)
                ∧ tickets (store (shared s)) !! id
                  = Some (serve (default "" (call_counter_id req)) now row))
         ∧ (∀ id, pool d b sf !! id = None →
              tickets (store (shared s)) !! id = tickets d !! id)).
Proof.
  intros Hpool HK Hlen.
  assert (Forall (λ rq, JS.truthy (call_counter_id rq.1) = true) reqs) as Hcid.
  { eapply Forall_impl; [exact Hpool|]. by intros rq (? & _). }
  split.
  { intros n s Hrun.
    destruct (phased_nsteps (call_thread d) (call_invariant d) remaining
                (call_thread_steps d) reqs _ _ _ n s
                (boot_coherent d evs reqs Hcid) Hrun) as (phs & m & _ & Hle).
    rewrite Hlen in Hle. lia. }
  intros s Hrun answers.
  destruct (reachable_coherent d evs reqs Hcid s Hrun) as (phs & m & Hco).
  split.
  { apply (phased_finishes (call_thread d) (call_invariant d) remaining
             (call_thread_steps d) (call_thread_waits d) (call_thread_ends d)
             reqs m s phs Hco). }
  split.
  { apply (phased_progress (call_thread d) (call_invariant d) remaining
             (call_thread_waits d) (call_thread_ends d) reqs s phs m Hco). }
  split; [by eapply called_NoDup|].
  intros Hq. pose proof Hco as (Hth & (_ & Hinv) & _).
  pose proof (all_ended d reqs s phs m Hco Hq) as Hend.
  destruct (called_pool d reqs b sf Hpool s phs m Hco Hq K M HK Hlen)
    as (HgotK & HnoneM & Hall).
  assert (take (length reqs) phs = phs) as Htake.
  { rewrite <-(inv_length _ _ _ _ Hinv). apply firstn_all. }
  split; [|split; [|split; [|split]]].
  - unfold answers. rewrite Hth. apply Forall_lookup. intros i a Ha.
    rewrite list_lookup_fmap, lookup_zip_with in Ha.
    destruct (reqs !! i) as [[req now]|] eqn:Hr; [|done].
    destruct (phs !! i) as [ph|] eqn:Hi; [|done]. simpl in Ha.
    injection Ha as <-.
    pose proof (proj1 (Forall_lookup _ _) Hend i ph Hi) as Hz.
    destruct ph as [| | |[] id row| | |]; try done.
    + left. by eexists.
    + by right.
  - unfold answers. by rewrite Hth, threads_called, Htake.
  - unfold answers. by rewrite Hth, threads_no_ticket, Htake.
  - intros id row Hrow.
    destruct (proj1 (got_lookup phs id) (Hall id ltac:(eauto))) as (i & row' & Hi).
    destruct (phase_request d reqs phs (shared s) Hinv i _ Hi) as (req & now & Hr).
    destruct (inv_claim _ _ _ _ Hinv _ _ _ _ _ _ Hr Hi) as (Hrow' & _ & Hst).
    apply map_lookup_filter_Some in Hrow as [Hrow _].
    assert (row' = row) as -> by congruence.
    exists i, req, now. split; [done|]. split; [|by apply Hst].
    unfold answers. rewrite Hth, list_lookup_fmap, lookup_zip_with, Hr, Hi.
    unfold call_thread.
    cbn [mbind option_bind fmap option_fmap option_map fst snd].
    by rewrite thread_called_id.
  - intros id Hnone. apply (inv_store _ _ _ _ Hinv).
    intros (j & ph & Hj & Hs)%Exists_lookup.
    destruct ph as [| | |st id' row| | |]; try done. simpl in Hs.
    apply andb_prop in Hs as [_ Hid]. apply bool_decide_eq_true in Hid. subst id'.
    by rewrite (claim_in_pool d reqs b sf Hpool s phs m Hco j st id row Hj) in Hnone.
Qed.

Lemma no_double_dispatch_witness :
  let fin := schedule round_robin (boot demo_queue [] (calls demo_calls)) in
  quiescent fin
  ∧ NoDup (omap called_id (answer <$> threads fin))
  ∧ length (omap called_id (answer <$> threads fin)) = 3%nat
  ∧ length (filter (λ a, no_ticket a = true) (answer <$> threads fin)) = 1%nat.
Proof.
  intros fin.
  assert (quiescent fin) as Hq.
  { unfold quiescent. apply (bool_decide_unpack _). vm_compute. exact I. }
  destruct (no_double_dispatch demo_queue [] demo_calls "B1" None 3 1)
    as [_ Hruns].
  - repeat constructor.
  - vm_compute. reflexivity.
  - reflexivity.
  - destruct (Hruns fin (schedule_steps _ _)) as (_ & _ & Hnd & Hfin).
    destruct (Hfin Hq) as (_ & HK & HM & _).
    split; [exact Hq|]. split; [exact Hnd|]. split; [exact HK|exact HM].
Defined.

(** C3, as the code has it.  When a statement of the creation
    transaction fails, from BEGIN up to and including COMMIT (so also the
    INSERT of the ticket or the COMMIT after the increment), the handler
    rolls back and answers 500, and the world is as before the request:
    the same sequence value, no new ticket row, no lock left, the
    connection back in the pool; the next creation gets the number the
    failed one would have got.  The same holds when the INSERT fails
    because the uuid is taken.  The request is for a service and a
    branch that exist; [i] counts the statements of the transaction that
    succeed, after the connection was taken. *)
Theorem creation_rolls_back (t : nat) (d : db) (evs : list event)
    (req : create_request) (today id : string) (now : Z) (i : nat) :
  JS.truthy (req_service_id req) = true →
  JS.truthy (req_branch_id req) = true →
  is_Some (services d !! default "" (req_service_id req)) →
  is_Some (branches d !! default "" (req_branch_id req)) →
  tickets d !! id = None →
  (i < 7)%nat →
  ∃ w,
    run t (post_ticket req today id now) idle (replicate (S i) false ++ [true])
      (at_rest d evs)
    = Finished (Some {| http := 500; json := Error "Failed to create ticket" |})
        idle w
    ∧ w = at_rest d evs
    ∧ current (store w) (key_of req today) = current d (key_of req today)
    ∧ tickets (store w) !! id = None
    ∧ (∀ old, run t (post_ticket req today id now) idle []
                (at_rest (with_tickets (<[id := old]>) d) evs)
              = Finished (Some {| http := 500;
                                  json := Error "Failed to create ticket" |})
                  idle (at_rest (with_tickets (<[id := old]>) d) evs))
    ∧ issued_number
        match run t (post_ticket req today id now) idle [] w with
        | Finished r _ _ => r
        | Waiting => None
        end
      = Some (ticketNumber (prefix_of d req) (current d (key_of req today) + 1)).
Proof.
  intros Hs Hb Hsv Hbr Hid Hi. exists (at_rest d evs).
  split; [by apply post_ticket_fault|]. split; [done|].
  split; [done|]. split; [done|]. split.
  - intros old. apply (post_ticket_duplicate _ _ _ _ _ _ _ old); try done.
    cbn. by rewrite lookup_insert_eq.
  - by rewrite post_ticket_created.
Qed.

Lemma creation_rolls_back_witness :
  ∃ w,
    run 0 (post_ticket (demo_create "svcA") "2024-01-01" "id1" 10) idle
      (replicate 6 false ++ [true]) (at_rest demo_db [])
    = Finished (Some {| http := 500; json := Error "Failed to create ticket" |})
        idle w
    ∧ w = at_rest demo_db [].
Proof.
  destruct (creation_rolls_back 0 demo_db [] (demo_create "svcA")
              "2024-01-01" "id1" 10 5) as (w & Hrun & Hw & _).
  - reflexivity.
  - reflexivity.
  - apply (bool_decide_unpack _). vm_compute. exact I.
  - apply (bool_decide_unpack _). vm_compute. exact I.
  - reflexivity.
  - lia.
  - exists w. split; [exact Hrun|exact Hw].
Defined.

(** C3 as stated fails: the re-read of the created ticket is a step of
    the creation after the increment, and when it fails the caller gets
    the 500 of a failed creation although the transaction is committed:
    the sequence value has moved from 0 to 1 and the ticket row exists. *)
Lemma creation_failure_after_commit :
  ∃ c w,
    run 0 (post_ticket (demo_create "svcA") "2024-01-01" "id1" 10) idle
      (replicate 9 false ++ [true]) (at_rest demo_db [])
    = Finished (Some {| http := 500; json := Error "Failed to create ticket" |})
        c w
    ∧ current demo_db ("svcA", "B1", "2024-01-01") = 0%nat
    ∧ current (store w) ("svcA", "B1", "2024-01-01") = 1%nat
    ∧ tickets demo_db !! "id1" = None
    ∧ ticket_number <$> tickets (store w) !! "id1" = Some "A-001".
Proof.
  eexists _, _. split; [vm_compute; reflexivity|]. by vm_compute.
Qed.

(** C4.  call-next takes, among the tickets whose status is waiting,
    whose branch is the branch of the counter and, when the request
    names a service, whose service is that one, a ticket of highest
    priority_level (a NULL priority is the lowest), and among those one
    of least created_at.  With waiting tickets of priorities 0, 0 and 2,
    the one of priority 2 is called first whenever it was created, and
    then the older of the other two. *)
Theorem call_next_order (t : nat) (d : db) (evs : list event)
    (req : call_request) (now now' : Z) :
  JS.truthy (call_counter_id req) = true →
  let cid := default "" (call_counter_id req) in
  let in_pool (row : ticket) : Prop :=
    status row = "waiting"
    ∧ (∃ c, counters d !! cid = Some c ∧ ctr_branch_id c = Some (branch_id row))
    ∧ (∀ s, call_service_id req = Some s → s ≠ "" → service_id row = s) in
  (∃ id row, tickets d !! id = Some row ∧ in_pool row) →
  ∃ id row tj w,
    run t (call_next req now) idle [] (at_rest d evs)
    = Finished (Some {| http := 200; json := Called tj |}) idle w
    ∧ j_id (raw tj) = id
    ∧ j_row (raw tj) = serve cid now row
    ∧ tickets d !! id = Some row
    ∧ in_pool row
    ∧ (∀ id' row', tickets d !! id' = Some row' → in_pool row' →
         match priority_level row', priority_level row with
         | Some p', Some p => (p' ≤ p)%Z
         | None, _ => True
         | Some _, None => False
         end
         ∧ (priority_level row' = priority_level row →
            (created_at row ≤ created_at row')%Z))
    ∧ (∀ ia ib ic a b c,
         tickets d !! ia = Some a → tickets d !! ib = Some b →
         tickets d !! ic = Some c →
         in_pool a → in_pool b → in_pool c →
         priority_level a = Some 0%Z → priority_level b = Some 0%Z →
         priority_level c = Some 2%Z →
         (created_at a < created_at b)%Z →
         (∀ id' row', tickets d !! id' = Some row' → in_pool row' →
                      id' ∈ [ia; ib; ic]) →
         id = ic
         ∧ called_id match run t (call_next req now') idle [] w with
                     | Finished r _ _ => r
                     | Waiting => None
                     end = Some ia).
Proof.
  intros Hc cid in_pool (id0 & row0 & Hrow0 & Hpool0).
  assert (∀ row, matches (counter_branch d cid) (call_service_id req) row = true
                 ↔ in_pool row) as Hm.
  { intros row. apply matches_spec. }
  destruct (select_next d cid (call_service_id req)) as [id|] eqn:Hsel; last first.
  { rewrite select_next_None in Hsel. apply Hm in Hpool0.
    by rewrite (Hsel _ _ Hrow0) in Hpool0. }
  destruct (select_next_Some _ _ _ _ Hsel) as (row & Hrow & Hpool & Hmin).
  exists id, row. eexists _, _.
  split; [by apply call_next_served|].
  split; [done|]. split; [done|]. split; [done|]. split; [by apply Hm|].
  assert (∀ id' row', tickets d !! id' = Some row' → in_pool row' →
            match priority_level row', priority_level row with
            | Some p', Some p => (p' ≤ p)%Z
            | None, _ => True
            | Some _, None => False
            end
            ∧ (priority_level row' = priority_level row →
               (created_at row ≤ created_at row')%Z)) as Hbest.
  { intros id' row' Hrow' Hpool'. apply before_spec.
    eapply Hmin; [done|by apply Hm]. }
  split; [done|].
  intros ia ib ic a b c Ha Hb Hc' Hpa Hpb Hpc Hprio_a Hprio_b Hprio_c Hab Hall.
  assert (id = ic) as ->.
  { destruct (Hbest _ _ Hc' Hpc) as [Hle _]. rewrite Hprio_c in Hle.
    specialize (Hall _ _ Hrow (proj1 (Hm _) Hpool)).
    apply elem_of_cons in Hall as [->|Hall].
    { assert (row = a) as -> by congruence. rewrite Hprio_a in Hle. lia. }
    apply elem_of_cons in Hall as [->|Hall].
    { assert (row = b) as -> by congruence. rewrite Hprio_b in Hle. lia. }
    by apply list_elem_of_singleton in Hall. }
  split; [done|].
  assert (row = c) as -> by congruence.
  set (d' := dispatched d cid now ic).
  assert (ia ≠ ic) as Hia.
  { intros ->. assert (a = c) as -> by congruence. congruence. }
  assert (tickets d' !! ia = Some a) as Ha'.
  { unfold d'. by rewrite dispatched_tickets, decide_False. }
  destruct (select_next d' cid (call_service_id req)) as [id'|] eqn:Hsel'; last first.
  { rewrite select_next_None in Hsel'. specialize (Hsel' _ _ Ha').
    change (counter_branch d' cid) with (counter_branch d cid) in Hsel'.
    apply Hm in Hpa. congruence. }
  destruct (select_next_Some _ _ _ _ Hsel') as (row' & Hrow' & Hpool' & Hmin').
  destruct (dispatched_matches _ _ _ _ _ _ _ _ Hrow' Hpool') as (Hne & Hold & Hpold).
  assert (id' = ia) as ->.
  { specialize (Hall _ _ Hold (proj1 (Hm _) Hpold)).
    apply elem_of_cons in Hall as [->|Hall]; [done|].
    apply elem_of_cons in Hall as [->|Hall]; last first.
    { by apply list_elem_of_singleton in Hall. }
    assert (row' = b) as -> by congruence.
    specialize (Hmin' _ _ Ha' (proj2 (Hm a) Hpa)). apply before_spec in Hmin'.
    rewrite Hprio_a, Hprio_b in Hmin'. destruct Hmin' as [_ Hmin'].
    specialize (Hmin' eq_refl). lia. }
  rewrite (call_next_served t d' _ req now' ia a); done.
Qed.

Lemma call_next_order_witness :
  called_id match run 0 (call_next (demo_call "c1") 100) idle []
                    (at_rest demo_queue []) with
            | Finished r _ _ => r
            | Waiting => None
            end = Some "id3".
Proof.
  assert (∀ number p created,
            status (demo_ticket number p created "waiting") = "waiting"
            ∧ (∃ c, counters demo_queue
                    !! default "" (call_counter_id (demo_call "c1")) = Some c
                    ∧ ctr_branch_id c
                      = Some (branch_id (demo_ticket number p created "waiting")))
            ∧ (∀ s, call_service_id (demo_call "c1") = Some s → s ≠ "" →
                    service_id (demo_ticket number p created "waiting") = s))
    as Hin.
  { intros number p created. split; [reflexivity|]. split.
    - eexists. split; [vm_compute; reflexivity|reflexivity].
    - intros s Hs. discriminate Hs. }
  destruct (call_next_order 0 demo_queue [] (demo_call "c1") 100 200)
    as (id & row & tj & w & Hrun & Hid & _ & _ & _ & _ & Hscenario).
  - reflexivity.
  - exists "id1", (demo_ticket "A-001" 0 10 "waiting").
    split; [vm_compute; reflexivity|apply Hin].
  - rewrite Hrun. cbn [called_id http json]. rewrite Hid.
    destruct (Hscenario "id1" "id2" "id3"
                (demo_ticket "A-001" 0 10 "waiting")
                (demo_ticket "A-002" 0 20 "waiting")
                (demo_ticket "A-003" 2 30 "waiting")) as [-> _];
      [vm_compute; reflexivity|vm_compute; reflexivity|vm_compute; reflexivity
      |apply Hin|apply Hin|apply Hin
      |reflexivity|reflexivity|reflexivity|reflexivity| |reflexivity].
    intros id' row' Hrow' _. apply elem_of_map_to_list in Hrow'.
    let l := eval vm_compute in (map_to_list (tickets demo_queue)) in
    assert (map_to_list (tickets demo_queue) = l) as Hl
      by (vm_compute; reflexivity).
    rewrite Hl in Hrow'. clear Hl.
    do 3 (apply elem_of_cons in Hrow' as [Hrow'|Hrow'];
            [injection Hrow' as Hid' _; rewrite Hid';
             apply (bool_decide_unpack _); vm_compute; exact I|]).
    apply elem_of_nil in Hrow'. destruct Hrow'.
Defined.

(** C5, as the code has it.  A ticket that is done, cancelled or skipped
    is left as it is by ticket creation and by call-next, whatever fails;
    the delete leaves it or sets its status to cancelled; the status patch
    leaves its status or, when it names this ticket and carries a status,
    overwrites it with the status supplied, which it does not compare
    with the current one.  So such a ticket is waiting or serving again
    only after a patch that names it and asks for that status. *)
Theorem terminal_tickets (t : nat) (d : db) (evs : list event) (q : request)
    (fs : list bool) (id : string) (row : ticket) r c w :
  tickets d !! id = Some row →
  terminal (status row) →
  run t (handler q) idle fs (at_rest d evs) = Finished r c w →
  ∃ row',
    tickets (store w) !! id = Some row'
    ∧ match q with
      | PostTicket _ _ _ _ => row' = row
      | CallNext _ _ => row' = row
      | DeleteTicket _ _ =>
          status row' = status row ∨ status row' = "cancelled"
      | PatchTicket id' req _ _ =>
          status row' = status row
          ∨ (id' = id ∧ JS.truthy (patch_status req) = true
             ∧ patch_status req = Some (status row'))
      end
    ∧ (status row' = "waiting" ∨ status row' = "serving" →
       ∃ req user now, q = PatchTicket id req user now
                       ∧ patch_status req = Some (status row')).
Proof.
  intros Hrow Hterm Hq.
  assert (status row ≠ "waiting" ∧ status row ≠ "serving") as [Hnw Hns].
  { unfold terminal in Hterm. split; intros Heq; rewrite Heq in Hterm;
      repeat (apply elem_of_cons in Hterm as [Hterm|Hterm]; [discriminate|]);
      by apply elem_of_nil in Hterm. }
  destruct q as [req td id' now|id' req user now|req now|id' now];
    cbn [handler] in Hq.
  - destruct (post_ticket_atomic t d evs req td id' now fs)
      as (r' & c' & w' & Hrun & Hst).
    rewrite Hrun in Hq. injection Hq as <- <- <-.
    exists row. split; [|split; [done|by intros [|]]].
    destruct Hst as [->|[Hnew ->]]; [done|].
    rewrite created_tickets, lookup_insert_ne; [done|]. congruence.
  - destruct (patch_ticket_atomic t d evs id' req user now fs)
      as (r' & c' & w' & Hrun & Hst).
    rewrite Hrun in Hq. injection Hq as <- <- <-.
    destruct Hst as [->| ->].
    { exists row. split; [done|]. split; [by left|by intros [|]]. }
    cbn. rewrite lookup_alter. case_decide as Hid; last first.
    { exists row. split; [done|]. split; [by left|by intros [|]]. }
    subst id'. rewrite Hrow. eexists. split; [reflexivity|].
    rewrite updates_status.
    destruct (JS.truthy (patch_status req)) eqn:Htr.
    + destruct (patch_status req) as [s|] eqn:Hs; [|done]. simpl.
      split; [by right|]. intros _. by exists req, user, now.
    + split; [by left|by intros [|]].
  - destruct (call_next_atomic t d evs req now fs)
      as (r' & c' & w' & Hrun & Hst).
    rewrite Hrun in Hq. injection Hq as <- <- <-.
    exists row. split; [|split; [done|by intros [|]]].
    destruct Hst as [->|(id0 & Hsel & ->)]; [done|].
    destruct (select_next_Some _ _ _ _ Hsel) as (row0 & Hrow0 & Hm & _).
    rewrite dispatched_tickets, decide_False; [done|].
    intros ->. assert (row0 = row) as -> by congruence.
    unfold matches in Hm. apply andb_prop in Hm as [Hm _].
    apply andb_prop in Hm as [Hm _]. by apply String.eqb_eq in Hm.
  - destruct (delete_ticket_atomic t d evs id' now fs)
      as (r' & c' & w' & Hrun & Hst).
    rewrite Hrun in Hq. injection Hq as <- <- <-.
    destruct Hst as [->| ->].
    { exists row. split; [done|]. split; [by left|by intros [|]]. }
    cbn. rewrite lookup_alter. case_decide as Hid; last first.
    { exists row. split; [done|]. split; [by left|by intros [|]]. }
    subst id'. rewrite Hrow. eexists. split; [reflexivity|].
    split; [by right|]. by intros [|].
Qed.

Lemma terminal_tickets_witness :
  ∃ row',
    tickets (store match run 0 (handler (DeleteTicket "id1" 50)) idle []
                           (at_rest demo_done []) with
                   | Finished _ _ w => w
                   | Waiting => at_rest demo_db []
                   end) !! "id1" = Some row'
    ∧ (status row' = "done" ∨ status row' = "cancelled").
Proof.
  destruct (terminal_tickets 0 demo_done [] (DeleteTicket "id1" 50) []
              "id1" (demo_ticket "A-001" 0 10 "done")
              (Some {| http := 200; json := Success |}) idle
              (at_rest (apply_write (WUpdateCancelled 50 "id1") demo_done)
                 [ticket_deleted "id1" "B1"]))
    as (row' & Hrow' & Hst & _).
  - vm_compute. reflexivity.
  - apply (bool_decide_unpack _). vm_compute. exact I.
  - vm_compute. reflexivity.
  - exists row'. split; [|exact Hst].
    rewrite <-Hrow'. vm_compute. reflexivity.
Defined.

(** C5 as stated fails: the status patch takes a done ticket back to
    waiting. *)
Lemma terminal_ticket_reopened :
  ∃ j c w,
    run 0 (patch_ticket "id1" demo_reopen "u1" 50) idle [] (at_rest demo_done [])
    = Finished (Some {| http := 200; json := Ticket (Some j) |}) c w
    ∧ status <$> tickets demo_done !! "id1" = Some "done"
    ∧ terminal "done"
    ∧ status <$> tickets (store w) !! "id1" = Some "waiting".
Proof.
  eexists _, _, _. split; [vm_compute; reflexivity|].
  split; [vm_compute; reflexivity|].
  split; [apply (bool_decide_unpack _); vm_compute; exact I|].
  vm_compute; reflexivity.
Qed.

(** C6.  When no waiting ticket matches the branch and service filter,
    call-next commits, changes no table, emits nothing, and answers 200
    with no ticket and the message "No tickets in queue". *)
Theorem empty_queue_is_not_an_error (t : nat) (d : db) (evs : list event)
    (req : call_request) (now : Z) :
  JS.truthy (call_counter_id req) = true →
  (∀ id row, tickets d !! id = Some row →
             matches (counter_branch d (default "" (call_counter_id req)))
               (call_service_id req) row = false) →
  run t (call_next req now) idle [] (at_rest d evs)
  = Finished (Some {| http := 200; json := NoTicket "No tickets in queue" |})
      idle (at_rest d evs).
Proof.
  intros Hc Hnone. apply call_next_empty; [done|]. by apply select_next_None.
Qed.

Lemma empty_queue_is_not_an_error_witness :
  run 0 (call_next (demo_call "c1") 100) idle [] (at_rest demo_db [])
  = Finished (Some {| http := 200; json := NoTicket "No tickets in queue" |})
      idle (at_rest demo_db []).
Proof.
  apply (empty_queue_is_not_an_error 0 demo_db [] (demo_call "c1") 100).
  - reflexivity.
  - intros id row Hrow. vm_compute in Hrow. discriminate Hrow.
Defined.

(** C7.  Every ticket number is the service prefix, a dash, and the
    allocated sequence value in decimal, with zeros in front up to three
    digits; a value of 1000 or more is written in full.  The first three
    tickets of a service with prefix A are A-001, A-002, A-003 in creation
    order.  The tickets are issued for a service and a branch that
    exist. *)
Theorem ticket_number_format (t : nat) (today sid bid : string)
    (jobs : list (create_request * string * Z)) (d : db) (evs : list event) :
  sid ≠ "" → bid ≠ "" →
  is_Some (services d !! sid) → is_Some (branches d !! bid) →
  Forall (λ job, req_service_id job.1.1 = Some sid
                 ∧ req_branch_id job.1.1 = Some bid) jobs →
  NoDup (jobs.*1.*2) →
  Forall (λ id, tickets d !! id = None) (jobs.*1.*2) →
  let k := (sid, bid, today) in
  let prefix := JS.or_default (services d !! sid ≫= svc_prefix) "TKT" in
  let numbers := issued_number <$> (issue t today k jobs (at_rest d evs)).1.*1 in
  numbers
  = (λ next, Some (prefix +:+ "-"
                   +:+ JS.repeat_string (3 - String.length (JS.String_ next)) "0"
                   +:+ JS.String_ next))
      <$> seq (current d k + 1) (length jobs)
  ∧ (∀ i, (i < length jobs)%nat → (1000 ≤ current d k + 1 + i)%nat →
          numbers !! i
          = Some (Some (prefix +:+ "-" +:+ JS.String_ (current d k + 1 + i))))
  ∧ (prefix = "A" → current d k = 0%nat → length jobs = 3%nat →
     numbers = [Some "A-001"; Some "A-002"; Some "A-003"]).
Proof.
  intros Hsid Hbid Hsv Hbr Hreq Hnd Hfresh k prefix numbers.
  destruct (issue_numbers t today sid bid jobs Hsid Hbid d evs)
    as (rs & d' & evs' & Hrun & _ & Hnums & _).
  { by apply Forall_forall. }
  { done. }
  { done. }
  { done. }
  { by apply Forall_forall. }
  fold k prefix in Hrun, Hnums.
  assert (numbers = (λ n, Some (ticketNumber prefix n))
                      <$> seq (current d k + 1) (length jobs)) as ->.
  { unfold numbers. by rewrite Hrun. }
  split; [|split].
  - apply list_fmap_ext. intros _ next _. unfold ticketNumber.
    by rewrite padStart_char.
  - intros i Hi Hbig. rewrite list_lookup_fmap, lookup_seq_lt by done. simpl.
    unfold ticketNumber. rewrite padStart_long; [done|].
    assert (10 ^ 3 ≤ current d k + 1 + i)%nat as Hpow by (simpl; lia).
    pose proof (String_length 3 _ Hpow). lia.
  - intros -> -> ->. reflexivity.
Qed.

Lemma ticket_number_format_witness :
  issued_number
    <$> (issue 0 "2024-01-01" ("svcA", "B1", "2024-01-01") demo_jobs
           (at_rest demo_db [])).1.*1
  = [Some "A-001"; Some "A-002"; Some "A-003"].
Proof.
  refine (proj2 (proj2 (ticket_number_format 0 "2024-01-01" "svcA" "B1"
                          demo_jobs demo_db [] _ _ _ _ _ _ _)) _ _ _).
  - discriminate.
  - discriminate.
  - apply (bool_decide_unpack _). vm_compute. exact I.
  - apply (bool_decide_unpack _). vm_compute. exact I.
  - repeat constructor.
  - apply (bool_decide_unpack _). vm_compute. exact I.
  - repeat constructor.
  - reflexivity.
  - reflexivity.
  - reflexivity.
Defined.

(** C8.  Dispatching a ticket sets its status to serving, its
    counter_id to the given counter and its called_at and started_at to
    now; every other column of the row, every other row and every other
    table stay as they were. *)
Theorem call_next_frame (t : nat) (d : db) (evs : list event)
    (req : call_request) (now : Z) (id : string) :
  JS.truthy (call_counter_id req) = true →
  select_next d (default "" (call_counter_id req)) (call_service_id req) = Some id →
  let cid := default "" (call_counter_id req) in
  ∃ row row' tj d' evs',
    run t (call_next req now) idle [] (at_rest d evs)
    = Finished (Some {| http := 200; json := Called tj |}) idle (at_rest d' evs')
    ∧ tickets d !! id = Some row
    ∧ tickets d' !! id = Some row'
    ∧ (status row' = "serving" ∧ counter_id row' = Some cid
       ∧ called_at row' = Some now ∧ started_at row' = Some now)
    ∧ (ticket_number row' = ticket_number row
       ∧ service_id row' = service_id row
       ∧ branch_id row' = branch_id row
       ∧ priority_level row' = priority_level row
       ∧ customer_name row' = customer_name row
       ∧ customer_phone row' = customer_phone row
       ∧ notes row' = notes row
       ∧ issued_by row' = issued_by row
       ∧ served_by row' = served_by row
       ∧ created_at row' = created_at row
       ∧ ended_at row' = ended_at row)
    ∧ (∀ id', id' ≠ id → tickets d' !! id' = tickets d !! id')
    ∧ services d' = services d
    ∧ counters d' = counters d
    ∧ branches d' = branches d
    ∧ ticket_sequences d' = ticket_sequences d.
Proof.
  intros Hc Hsel cid.
  destruct (select_next_Some _ _ _ _ Hsel) as (row & Hrow & _).
  exists row, (serve cid now row). eexists _, _, _.
  split; [by apply call_next_served|].
  split; [done|]. split.
  { rewrite dispatched_tickets, decide_True by done. by rewrite Hrow. }
  split; [done|]. split; [by repeat split|]. split; [|done].
  intros id' Hne. by rewrite dispatched_tickets, decide_False.
Qed.

Lemma call_next_frame_witness :
  ∃ row',
    tickets (store match run 0 (call_next (demo_call "c1") 100) idle []
                           (at_rest (with_demo_tickets
                              [("id1", demo_ticket "A-001" 0 10 "waiting")]) [])
                   with
                   | Finished _ _ w => w
                   | Waiting => at_rest demo_db []
                   end) !! "id1" = Some row'
    ∧ status row' = "serving" ∧ ticket_number row' = "A-001".
Proof.
  destruct (call_next_frame 0
              (with_demo_tickets [("id1", demo_ticket "A-001" 0 10 "waiting")]) []
              (demo_call "c1") 100 "id1")
    as (row & row' & tj & d' & evs' & Hrun & Hrow & Hrow' & (Hst & _) & (Hnum & _) & _).
  - reflexivity.
  - reflexivity.
  - exists row'. rewrite Hrun. split; [exact Hrow'|]. split; [exact Hst|].
    rewrite Hnum. vm_compute in Hrow. by injection Hrow as <-.
Defined.




(** C10.  A call-next request whose counter_id names no counter gets no
    not-found error: the subquery yields no branch, no ticket matches, and
    the answer is the 200 of an empty queue, with nothing changed. *)
Theorem unknown_counter_is_empty_queue (t : nat) (d : db) (evs : list event)
    (req : call_request) (now : Z) :
  JS.truthy (call_counter_id req) = true →
  counters d !! default "" (call_counter_id req) = None →
  counter_branch d (default "" (call_counter_id req)) = None
  ∧ (∀ row, matches None (call_service_id req) row = false)
  ∧ run t (call_next req now) idle [] (at_rest d evs)
    = Finished (Some {| http := 200; json := NoTicket "No tickets in queue" |})
        idle (at_rest d evs)
  ∧ run t (call_next req now) idle [] (at_rest (with_tickets (λ _, ∅) d) evs)
    = Finished (Some {| http := 200; json := NoTicket "No tickets in queue" |})
        idle (at_rest (with_tickets (λ _, ∅) d) evs).
Proof.
  intros Hc Hctr.
  assert (counter_branch d (default "" (call_counter_id req)) = None) as Hbr
    by (unfold counter_branch; by rewrite Hctr).
  assert (∀ row, matches None (call_service_id req) row = false) as Hm.
  { intros row. unfold matches. by rewrite andb_false_r. }
  split; [done|]. split; [done|]. split.
  - apply call_next_empty; [done|]. apply select_next_None.
    intros id row _. by rewrite Hbr.
  - apply call_next_empty; [done|]. apply select_next_None.
    intros id row Hrow. cbn in Hrow. by rewrite lookup_empty in Hrow.
Qed.

Lemma unknown_counter_is_empty_queue_witness :
  run 0 (call_next (demo_call "nowhere") 100) idle []
    (at_rest (with_demo_tickets [("id1", demo_ticket "A-001" 0 10 "waiting")]) [])
  = Finished (Some {| http := 200; json := NoTicket "No tickets in queue" |})
      idle (at_rest (with_demo_tickets [("id1", demo_ticket "A-001" 0 10 "waiting")]) []).
Proof.
  refine (proj1 (proj2 (proj2 (unknown_counter_is_empty_queue 0
            (with_demo_tickets [("id1", demo_ticket "A-001" 0 10 "waiting")]) []
            (demo_call "nowhere") 100 _ _))));
    reflexivity.
Defined.

(** * Further properties of the routes *)

(** ** Reading a ticket *)

(** A read of a ticket, in a world with a free connection: it takes the
    connection for its statement and gives it back, takes no lock and
    waits for none, and leaves the world as it is. *)
Lemma get_ticket_outcomes (t : nat) (id : string) (c : conn) (fs : list bool)
    (w : world) :
  free w ≠ 0%nat →
  ∃ r,
    run t (get_ticket id) c fs w = Finished (Some r) c w
    ∧ (r = match tickets (store w) !! id with
           | Some row =>
               {| http := 200; json := Ticket (Some (join (store w) id row)) |}
           | None => {| http := 404; json := Error "Ticket not found" |}
           end
       ∨ (r = {| http := 500; json := Error "Failed to fetch ticket" |}
          ∧ (fs !! 0%nat = Some true ∨ fs !! 1%nat = Some true))).
Proof.
  destruct w as [d sl tl [|n] ev]; [done|]. intros _.
  unfold get_ticket, query.
  destruct fs as [|[|] [|[|] fs]]; cbn;
    destruct (tickets d !! id) as [row|] eqn:Hrow; cbn;
    eexists; (split; [reflexivity|auto]).
Qed.

(** With no connection free the read waits, unless taking the
    connection fails. *)
Lemma get_ticket_waits (t : nat) (id : string) (c : conn) (fs : list bool)
    (w : world) :
  free w = 0%nat →
  run t (get_ticket id) c fs w
  = if decide (head fs = Some true)
    then Finished (Some {| http := 500; json := Error "Failed to fetch ticket" |})
           c w
    else Waiting.
Proof.
  destruct w as [d sl tl [|n] ev]; [|done]. intros _.
  unfold get_ticket, query. by destruct fs as [|[|] fs].
Qed.

(** X1.  POST /tickets answers 400 exactly for a body whose service_id
    or branch_id is absent or empty.  The handler takes its connection
    before it looks at the body: with a connection free, such a request
    is answered with no statement sent to the tables, no lock waited
    for and nothing changed, the connection given back; with none free
    it waits; and when the connection cannot be had, the handler throws
    outside its try block and answers nothing.  A body with both fields
    is answered 201 or 500, whatever fails. *)
Theorem creation_is_validated (t : nat) (req : create_request)
    (today id : string) (now : Z) :
  let valid := JS.truthy (req_service_id req) && JS.truthy (req_branch_id req) in
  let bad := {| http := 400;
                json := Error "service_id and branch_id are required" |} in
  (valid = false →
   ∀ c w,
     (free w ≠ 0%nat →
      run t (post_ticket req today id now) c [] w = Finished (Some bad) c w)
     ∧ (free w = 0%nat → run t (post_ticket req today id now) c [] w = Waiting)
     ∧ run t (post_ticket req today id now) c [true] w = Finished None c w)
  ∧ (valid = true →
     ∀ d evs fs r c w,
       run t (post_ticket req today id now) idle fs (at_rest d evs)
       = Finished r c w →
       ∀ x, r = Some x → http x = 201%nat ∨ http x = 500%nat).
Proof.
  intros valid bad. subst valid bad. split.
  - intros Hv c w. unfold post_ticket.
    destruct w as [d sl tl [|n] ev];
      by destruct (JS.truthy (req_service_id req)),
                  (JS.truthy (req_branch_id req)).
  - intros Hv d evs fs r c w Hrun x ->.
    apply andb_prop in Hv as [Hs Hb].
    destruct (post_ticket_outcomes t d evs req today id now fs Hs Hb)
      as (r' & c' & w' & Hrun' & Hr & _).
    rewrite Hrun' in Hrun. injection Hrun as -> _ _.
    destruct Hr as [[= ->]|[[= ->]|[=]]]; auto.
Qed.

Lemma creation_is_validated_witness :
  run 0 (post_ticket (demo_create "") "2024-01-01" "id1" 10) idle []
    (at_rest demo_queue [])
  = Finished (Some {| http := 400;
                      json := Error "service_id and branch_id are required" |})
      idle (at_rest demo_queue [])
  ∧ run 0 (post_ticket (demo_create "") "2024-01-01" "id1" 10) idle []
      (with_free 0 (at_rest demo_queue []))
    = Waiting
  ∧ ∀ fs r c w,
      run 0 (post_ticket (demo_create "svcA") "2024-01-01" "id9" 10) idle fs
        (at_rest demo_queue []) = Finished r c w →
      ∀ x, r = Some x → http x = 201%nat ∨ http x = 500%nat.
Proof.
  split; [|split].
  - apply (proj1 (creation_is_validated 0 (demo_create "") "2024-01-01" "id1" 10)
             eq_refl idle (at_rest demo_queue [])).
    discriminate.
  - apply (proj1 (creation_is_validated 0 (demo_create "") "2024-01-01" "id1" 10)
             eq_refl idle (with_free 0 (at_rest demo_queue []))).
    reflexivity.
  - apply (proj2 (creation_is_validated 0 (demo_create "svcA") "2024-01-01" "id9" 10)).
    reflexivity.
Defined.

(** X2.  POST /tickets/call-next answers 400 exactly for a body whose
    counter_id is absent or empty.  The handler takes its connection
    before it looks at the body: with a connection free the 400 comes
    with nothing changed and the connection given back, with none free
    the request waits, and when the connection cannot be had the handler
    throws outside its try block.  With a counter_id the answer is 200
    or 500, whatever fails. *)
Theorem call_next_is_validated (t : nat) (req : call_request) (now : Z) :
  let bad := {| http := 400; json := Error "counter_id is required" |} in
  (JS.truthy (call_counter_id req) = false →
   ∀ c w,
     (free w ≠ 0%nat → run t (call_next req now) c [] w = Finished (Some bad) c w)
     ∧ (free w = 0%nat → run t (call_next req now) c [] w = Waiting)
     ∧ run t (call_next req now) c [true] w = Finished None c w)
  ∧ (JS.truthy (call_counter_id req) = true →
     ∀ d evs fs r c w,
       run t (call_next req now) idle fs (at_rest d evs) = Finished r c w →
       ∀ x, r = Some x → http x = 200%nat ∨ http x = 500%nat).
Proof.
  intros bad. subst bad. split.
  - intros Hv c w. unfold call_next. rewrite Hv.
    by destruct w as [d sl tl [|n] ev].
  - intros Hv d evs fs r c w Hrun x ->.
    destruct (call_next_outcomes t d evs req now fs Hv)
      as (r' & c' & w' & Hrun' & Hr & _).
    rewrite Hrun' in Hrun. injection Hrun as -> _ _.
    destruct (select_next d _ _).
    + destruct Hr as (row & _ & [[= ->]|[[= ->]|[=]]] & _); auto.
    + destruct Hr as ([[= ->]|[[= ->]|[=]]] & _); auto.
Qed.

Lemma call_next_is_validated_witness :
  run 0 (call_next (demo_call "") 100) idle [] (at_rest demo_queue [])
  = Finished (Some {| http := 400; json := Error "counter_id is required" |})
      idle (at_rest demo_queue [])
  ∧ run 0 (call_next (demo_call "") 100) idle []
      (with_free 0 (at_rest demo_queue []))
    = Waiting
  ∧ ∀ fs r c w,
      run 0 (call_next (demo_call "c1") 100) idle fs (at_rest demo_queue [])
      = Finished r c w →
      ∀ x, r = Some x → http x = 200%nat ∨ http x = 500%nat.
Proof.
  split; [|split].
  - apply (proj1 (call_next_is_validated 0 (demo_call "") 100) eq_refl idle
             (at_rest demo_queue [])).
    discriminate.
  - apply (proj1 (call_next_is_validated 0 (demo_call "") 100) eq_refl idle
             (with_free 0 (at_rest demo_queue []))).
    reflexivity.
  - apply (proj2 (call_next_is_validated 0 (demo_call "c1") 100)). reflexivity.
Defined.

Lemma updates_nil (req : patch_request) (user : string) :
  updates req user = []
  ↔ JS.truthy (patch_status req) || JS.truthy (patch_counter_id req)
    || JS.truthy (patch_notes req) = false.
Proof.
  unfold updates.
  destruct (JS.truthy (patch_status req)), (JS.truthy (patch_counter_id req)),
    (JS.truthy (patch_notes req)); cbn; split; try done;
    destruct (String.eqb _ "serving"); try done; destruct (bool_decide _); done.
Qed.

(** X3.  PATCH /tickets/:id answers 400 exactly when none of status,
    counter_id and notes is given (absent or empty), before any
    statement is sent, with nothing changed.  With a field given it has
    no not-found answer: for an id that names no ticket the UPDATE
    changes nothing, the re-read finds nothing, the emitter throws on
    the ticket it is not given, and the answer is 500 with nothing
    changed and nothing published; whatever fails, the answer is 200 or
    500. *)
Theorem patch_is_validated (t : nat) (id : string) (req : patch_request)
    (user : string) (now : Z) :
  let given := JS.truthy (patch_status req) || JS.truthy (patch_counter_id req)
               || JS.truthy (patch_notes req) in
  (given = false →
   ∀ c w, run t (patch_ticket id req user now) c [] w
          = Finished (Some {| http := 400; json := Error "No updates provided" |})
              c w)
  ∧ (given = true →
     ∀ d evs,
       (∀ fs r c w,
          run t (patch_ticket id req user now) idle fs (at_rest d evs)
          = Finished r c w →
          ∃ x, r = Some x ∧ (http x = 200%nat ∨ http x = 500%nat))
       ∧ (tickets d !! id = None →
          ∀ fs r c w,
            run t (patch_ticket id req user now) idle fs (at_rest d evs)
            = Finished r c w →
            r = Some {| http := 500; json := Error "Failed to update ticket" |}
            ∧ c = idle ∧ w = at_rest d evs)).
Proof.
  intros given. subst given. split.
  - intros Hv c w. apply updates_nil with (user := user) in Hv.
    unfold patch_ticket. by rewrite Hv.
  - intros Hv d evs.
    assert (updates req user ≠ []) as Hne.
    { intros Hnil. apply updates_nil in Hnil. congruence. }
    split.
    + intros fs r c w Hrun.
      destruct (patch_ticket_outcomes t d evs id req user now fs Hne)
        as (r' & c' & w' & Hrun' & Hr & _).
      rewrite Hrun' in Hrun. injection Hrun as -> _ _.
      destruct (tickets d !! id) as [row|].
      * destruct Hr as ([->| ->] & _); eauto.
      * destruct Hr as (-> & _). eauto.
    + intros Hnone fs r c w Hrun.
      destruct (patch_ticket_outcomes t d evs id req user now fs Hne)
        as (r' & c' & w' & Hrun' & Hr & Hc & Hw).
      rewrite Hrun' in Hrun. injection Hrun as -> -> ->.
      rewrite Hnone in Hr. destruct Hr as (-> & Hst & Hev).
      split; [done|]. split; [done|]. by rewrite Hw, Hst, Hev.
Qed.

Lemma patch_is_validated_witness :
  run 0 (patch_ticket "id1"
           {| patch_status := Some ""; patch_counter_id := None;
              patch_notes := None |} "u1" 50) idle [] (at_rest demo_queue [])
  = Finished (Some {| http := 400; json := Error "No updates provided" |})
      idle (at_rest demo_queue [])
  ∧ run 0 (patch_ticket "nobody" demo_reopen "u1" 50) idle []
      (at_rest demo_queue [])
    = Finished (Some {| http := 500; json := Error "Failed to update ticket" |})
        idle (at_rest demo_queue []).
Proof.
  split.
  - apply (proj1 (patch_is_validated 0 "id1"
                    {| patch_status := Some ""; patch_counter_id := None;
                       patch_notes := None |} "u1" 50)).
    reflexivity.
  - destruct (proj2 (proj2 (patch_is_validated 0 "nobody" demo_reopen "u1" 50)
                       eq_refl demo_queue [])
                ltac:(vm_compute; reflexivity) [] _ _ _
                ltac:(vm_compute; reflexivity)) as (Hr & Hc & Hw).
    vm_compute. reflexivity.
Defined.

(** What the UPDATE of the patch leaves in the row. *)
Lemma updates_columns (now : Z) (req : patch_request) (user : string)
    (row : ticket) :
  let row' := foldl (λ t a, assign now a t) row (updates req user) in
  let s := default "" (patch_status req) in
  let closing := JS.truthy (patch_status req)
                 && bool_decide (s ∈ ["done"; "cancelled"; "skipped"]) in
  (status row' = if JS.truthy (patch_status req) then s else status row)
  ∧ (started_at row' = if JS.truthy (patch_status req) && String.eqb s "serving"
                       then Some now else started_at row)
  ∧ (ended_at row' = if closing then Some now else ended_at row)
  ∧ (served_by row' = if closing then Some user else served_by row)
  ∧ (counter_id row' = if JS.truthy (patch_counter_id req)
                       then patch_counter_id req else counter_id row)
  ∧ (notes row' = if JS.truthy (patch_notes req)
                  then patch_notes req else notes row)
  ∧ ticket_number row' = ticket_number row
  ∧ service_id row' = service_id row
  ∧ branch_id row' = branch_id row
  ∧ priority_level row' = priority_level row
  ∧ customer_name row' = customer_name row
  ∧ customer_phone row' = customer_phone row
  ∧ issued_by row' = issued_by row
  ∧ created_at row' = created_at row
  ∧ called_at row' = called_at row.
Proof.
  unfold updates.
  destruct (patch_status req) as [s|], (patch_counter_id req) as [c|],
    (patch_notes req) as [n|]; cbn;
    try destruct (String.eqb s ""); try destruct (String.eqb c "");
    try destruct (String.eqb n ""); cbn;
    try (destruct (String.eqb_spec s "serving") as [->|];
         [|destruct (bool_decide (s ∈ ["done"; "cancelled"; "skipped"]))]);
    cbn; repeat split; reflexivity.
Qed.

(** X4.  What PATCH /tickets/:id does to the ticket it names, whatever
    fails: the row is left as it was or gets exactly the fields given.
    A status is stored as given, without a look at the current one;
    status serving also sets started_at, and done, cancelled or skipped
    set ended_at and served_by (the user of the request); a counter_id or
    notes that is given replaces the stored one, and an empty one leaves
    it.  The patch never changes ticket_number, service_id, branch_id,
    priority_level, the customer fields, issued_by, created_at or
    called_at, nor another row, nor another table; and a 200 means the
    fields are stored. *)
Theorem patch_frame (t : nat) (d : db) (evs : list event) (id : string)
    (req : patch_request) (user : string) (now : Z) (fs : list bool)
    (row : ticket) r c w :
  tickets d !! id = Some row →
  run t (patch_ticket id req user now) idle fs (at_rest d evs) = Finished r c w →
  let s := default "" (patch_status req) in
  let closing := JS.truthy (patch_status req)
                 && bool_decide (s ∈ ["done"; "cancelled"; "skipped"]) in
  ∃ row',
    tickets (store w) !! id = Some row'
    ∧ (row' = row
       ∨ ((status row' = if JS.truthy (patch_status req) then s else status row)
          ∧ (started_at row'
             = if JS.truthy (patch_status req) && String.eqb s "serving"
               then Some now else started_at row)
          ∧ (ended_at row' = if closing then Some now else ended_at row)
          ∧ (served_by row' = if closing then Some user else served_by row)
          ∧ (counter_id row' = if JS.truthy (patch_counter_id req)
                               then patch_counter_id req else counter_id row)
          ∧ (notes row' = if JS.truthy (patch_notes req)
                          then patch_notes req else notes row)))
    ∧ ((∃ x, r = Some x ∧ http x = 200%nat) →
       row' = foldl (λ t a, assign now a t) row (updates req user))
    ∧ (ticket_number row' = ticket_number row
       ∧ service_id row' = service_id row
       ∧ branch_id row' = branch_id row
       ∧ priority_level row' = priority_level row
       ∧ customer_name row' = customer_name row
       ∧ customer_phone row' = customer_phone row
       ∧ issued_by row' = issued_by row
       ∧ created_at row' = created_at row
       ∧ called_at row' = called_at row)
    ∧ (∀ id', id' ≠ id → tickets (store w) !! id' = tickets d !! id')
    ∧ services (store w) = services d
    ∧ counters (store w) = counters d
    ∧ branches (store w) = branches d
    ∧ ticket_sequences (store w) = ticket_sequences d.
Proof.
  intros Hrow Hrun s closing.
  pose proof (updates_columns now req user row) as Hcols. cbn zeta in Hcols.
  fold s closing in Hcols.
  set (d' := apply_write (WUpdateSet now (updates req user) id) d).
  assert (tickets d' !! id
          = Some (foldl (λ t a, assign now a t) row (updates req user))) as Hnew.
  { subst d'. cbn. by rewrite lookup_alter_eq, Hrow. }
  assert (∀ id', id' ≠ id → tickets d' !! id' = tickets d !! id') as Hothers.
  { intros id' Hne. subst d'. cbn. by rewrite lookup_alter_ne. }
  assert (store w = d ∨ store w = d') as Hst.
  { destruct (patch_ticket_atomic t d evs id req user now fs)
      as (r' & c' & w' & Hrun' & Hst).
    rewrite Hrun' in Hrun. by injection Hrun as <- <- <-. }
  assert ((∃ x, r = Some x ∧ http x = 200%nat) → store w = d') as Hok.
  { intros (x & Hr0 & Hx). subst r.
    destruct (updates req user) as [|a sets] eqn:Hupd.
    - unfold patch_ticket in Hrun. rewrite Hupd in Hrun. cbn in Hrun.
      injection Hrun as <- <- <-. discriminate Hx.
    - destruct (patch_ticket_outcomes t d evs id req user now fs)
        as (r' & c' & w' & Hrun' & Hr & _); [by rewrite Hupd|].
      rewrite Hrun' in Hrun. injection Hrun as -> -> ->.
      rewrite Hrow, Hupd in Hr. destruct Hr as (Hr & _ & _ & Hdone).
      destruct Hr as [Hr|Hr]; [by apply Hdone|].
      injection Hr as ->. discriminate Hx. }
  destruct Hst as [Hst|Hst].
  - exists row. rewrite Hst. split; [done|]. split; [by left|].
    split.
    { intros Hx. specialize (Hok Hx). rewrite Hst in Hok.
      rewrite <-Hok in Hnew. congruence. }
    by repeat split.
  - exists (foldl (λ t a, assign now a t) row (updates req user)).
    rewrite Hst. split; [done|].
    destruct Hcols as (H1 & H2 & H3 & H4 & H5 & H6 & Hframe).
    split; [right; by repeat split|]. split; [done|].
    split; [exact Hframe|]. by repeat split.
Qed.

Lemma patch_frame_witness :
  ∃ r c w row',
    run 0 (patch_ticket "id3"
             {| patch_status := Some "done"; patch_counter_id := None;
                patch_notes := Some "" |} "u1" 50) idle []
      (at_rest (dispatched demo_queue "c1" 40 "id3") [])
    = Finished r c w
    ∧ tickets (store w) !! "id3" = Some row'
    ∧ status row' = "done" ∧ ended_at row' = Some 50%Z
    ∧ served_by row' = Some "u1" ∧ started_at row' = Some 40%Z
    ∧ counter_id row' = Some "c1" ∧ notes row' = None
    ∧ ticket_number row' = "A-003".
Proof.
  eexists _, _, _, _. split; [vm_compute; reflexivity|].
  destruct (patch_frame 0 (dispatched demo_queue "c1" 40 "id3") [] "id3"
              {| patch_status := Some "done"; patch_counter_id := None;
                 patch_notes := Some "" |} "u1" 50 []
              (serve "c1" 40 (demo_ticket "A-003" 2 30 "waiting")) _ _ _
              ltac:(vm_compute; reflexivity) ltac:(vm_compute; reflexivity))
    as (row' & Hrow' & _ & Hdone & _).
  rewrite (Hdone ltac:(eexists; split; [reflexivity|reflexivity])) in Hrow'.
  split; [exact Hrow'|]. vm_compute. repeat split.
Defined.

(** X5.  DELETE /tickets/:id for an id that names no ticket answers 404
    (500 when the look-up throws), and writes and publishes nothing. *)
Theorem delete_unknown_ticket (t : nat) (d : db) (evs : list event)
    (id : string) (now : Z) :
  tickets d !! id = None →
  run t (delete_ticket id now) idle [] (at_rest d evs)
  = Finished (Some {| http := 404; json := Error "Ticket not found" |}) idle
      (at_rest d evs)
  ∧ ∀ fs r c w,
      run t (delete_ticket id now) idle fs (at_rest d evs) = Finished r c w →
      w = at_rest d evs
      ∧ (r = Some {| http := 404; json := Error "Ticket not found" |}
         ∨ r = Some {| http := 500; json := Error "Failed to delete ticket" |}).
Proof.
  intros Hnone. split.
  - unfold delete_ticket. cbn. unfold at_rest. cbn. by rewrite Hnone.
  - intros fs r c w Hrun.
    destruct (delete_ticket_outcomes t d evs id now fs)
      as (r' & c' & w' & Hrun' & Hr).
    rewrite Hrun' in Hrun. injection Hrun as <- <- <-.
    rewrite Hnone in Hr. destruct Hr as ((Hr & Hst & Hev) & _ & ->).
    by rewrite Hst, Hev.
Qed.

Lemma delete_unknown_ticket_witness :
  run 0 (delete_ticket "nobody" 50) idle [] (at_rest demo_queue [])
  = Finished (Some {| http := 404; json := Error "Ticket not found" |}) idle
      (at_rest demo_queue []).
Proof.
  apply (proj1 (delete_unknown_ticket 0 demo_queue [] "nobody" 50
                  ltac:(vm_compute; reflexivity))).
Defined.

(** X6.  DELETE /tickets/:id never removes a row: the ticket stays in
    the table with status cancelled and ended_at set, every other column
    as it was, and every other row and table untouched.  So the ticket
    can still be read (200, cancelled), and a second DELETE answers 200
    again and moves ended_at to its own time. *)
Theorem delete_is_soft (t : nat) (d : db) (evs : list event) (id : string)
    (now now' : Z) (row : ticket) :
  tickets d !! id = Some row →
  ∃ d1 d2 evs1 evs2 row1 row2,
    run t (delete_ticket id now) idle [] (at_rest d evs)
    = Finished (Some {| http := 200; json := Success |}) idle (at_rest d1 evs1)
    ∧ evs1 = ticket_deleted id (branch_id row) :: evs
    ∧ tickets d1 !! id = Some row1
    ∧ status row1 = "cancelled" ∧ ended_at row1 = Some now
    ∧ (ticket_number row1 = ticket_number row
       ∧ service_id row1 = service_id row
       ∧ branch_id row1 = branch_id row
       ∧ priority_level row1 = priority_level row
       ∧ customer_name row1 = customer_name row
       ∧ customer_phone row1 = customer_phone row
       ∧ notes row1 = notes row
       ∧ issued_by row1 = issued_by row
       ∧ counter_id row1 = counter_id row
       ∧ served_by row1 = served_by row
       ∧ created_at row1 = created_at row
       ∧ called_at row1 = called_at row
       ∧ started_at row1 = started_at row)
    ∧ (∀ id', id' ≠ id → tickets d1 !! id' = tickets d !! id')
    ∧ (services d1 = services d ∧ counters d1 = counters d
       ∧ branches d1 = branches d ∧ ticket_sequences d1 = ticket_sequences d)
    ∧ run t (get_ticket id) idle [] (at_rest d1 evs1)
      = Finished (Some {| http := 200; json := Ticket (Some (join d id row1)) |})
          idle (at_rest d1 evs1)
    ∧ run t (delete_ticket id now') idle [] (at_rest d1 evs1)
      = Finished (Some {| http := 200; json := Success |}) idle (at_rest d2 evs2)
    ∧ tickets d2 !! id = Some row2
    ∧ status row2 = "cancelled" ∧ ended_at row2 = Some now'.
Proof.
  intros Hrow.
  set (d1 := apply_write (WUpdateCancelled now id) d).
  assert (tickets d1 !! id = Some (cancel now row)) as Hrow1.
  { subst d1. cbn. by rewrite lookup_alter_eq, Hrow. }
  set (d2 := apply_write (WUpdateCancelled now' id) d1).
  assert (tickets d2 !! id = Some (cancel now' (cancel now row))) as Hrow2.
  { subst d2. cbn [apply_write with_tickets tickets].
    by rewrite lookup_alter_eq, Hrow1. }
  exists d1, d2. eexists _, _, (cancel now row), (cancel now' (cancel now row)).
  split; [by apply delete_ticket_done|]. split; [done|]. split; [done|].
  split; [done|]. split; [done|]. split; [by repeat split|].
  split.
  { intros id' Hne. subst d1. cbn. by rewrite lookup_alter_ne. }
  split; [done|]. split.
  { destruct (get_ticket_outcomes t id idle [] (at_rest d1
                (ticket_deleted id (branch_id row) :: evs)))
      as (r & Hrun & [->|[_ [[=]|[=]]]]); [done|].
    rewrite Hrun. cbn [store at_rest]. rewrite Hrow1. done. }
  split; [by apply delete_ticket_done|]. done.
Qed.

Lemma delete_is_soft_witness :
  ∃ d1 evs1 row1,
    run 0 (delete_ticket "id1" 50) idle [] (at_rest demo_queue [])
    = Finished (Some {| http := 200; json := Success |}) idle (at_rest d1 evs1)
    ∧ tickets d1 !! "id1" = Some row1
    ∧ status row1 = "cancelled" ∧ ended_at row1 = Some 50%Z.
Proof.
  destruct (delete_is_soft 0 demo_queue [] "id1" 50 60
              (demo_ticket "A-001" 0 10 "waiting")
              ltac:(vm_compute; reflexivity))
    as (d1 & d2 & evs1 & evs2 & row1 & row2 & Hrun & _ & Hrow1 & Hs & He & _).
  exists d1, evs1, row1. split; [exact Hrun|]. split; [exact Hrow1|].
  split; [exact Hs|exact He].
Defined.

(** X7.  GET /tickets/:id only reads.  Its one statement goes through
    the pool: in any world in which a connection is free, whatever locks
    other transactions hold, it ends without waiting and leaves the
    tables, the locks, the pool and the caller's connection as they
    were; it answers 404 exactly when the committed table has no row of
    that id, else 200 with the row joined with the names of its
    service, counter and branch; 500 only when taking the connection or
    the statement fails.  In a world in which no connection is free it
    waits, unless taking the connection fails. *)
Theorem get_ticket_reads (t : nat) (id : string) (c : conn) (fs : list bool)
    (w : world) :
  (free w ≠ 0%nat →
   ∃ r,
     run t (get_ticket id) c fs w = Finished (Some r) c w
     ∧ (http r = 200%nat ∨ http r = 404%nat ∨ http r = 500%nat)
     ∧ (http r = 200%nat →
        ∃ row, tickets (store w) !! id = Some row
               ∧ json r = Ticket (Some (join (store w) id row)))
     ∧ (http r = 404%nat → tickets (store w) !! id = None)
     ∧ (http r = 500%nat → fs !! 0%nat = Some true ∨ fs !! 1%nat = Some true)
     ∧ (fs !! 0%nat ≠ Some true → fs !! 1%nat ≠ Some true →
        (http r = 404%nat ↔ tickets (store w) !! id = None)))
  ∧ (free w = 0%nat →
     run t (get_ticket id) c fs w
     = if decide (head fs = Some true)
       then Finished (Some {| http := 500;
                              json := Error "Failed to fetch ticket" |}) c w
       else Waiting).
Proof.
  split; [|apply get_ticket_waits].
  intros Hfree.
  destruct (get_ticket_outcomes t id c fs w Hfree) as (r & Hrun & Hr).
  exists r. split; [done|].
  destruct Hr as [->|[-> Hf]];
    destruct (tickets (store w) !! id) as [row|] eqn:Hrow; cbn;
    repeat split; auto; try discriminate; try (intros; congruence); eauto;
    try (intros; destruct Hf; congruence).
Qed.

Lemma get_ticket_reads_witness :
  (∃ r, run 0 (get_ticket "id1") idle [] (at_rest demo_queue [])
        = Finished (Some r) idle (at_rest demo_queue [])
        ∧ (http r = 404%nat ↔ tickets demo_queue !! "id1" = None))
  ∧ run 0 (get_ticket "id1") idle [] (with_free 0 (at_rest demo_queue []))
    = Waiting.
Proof.
  split.
  - destruct (proj1 (get_ticket_reads 0 "id1" idle [] (at_rest demo_queue []))
                ltac:(discriminate)) as (r & Hrun & _ & _ & _ & _ & Hiff).
    exists r. split; [exact Hrun|]. apply Hiff; discriminate.
  - exact (proj2 (get_ticket_reads 0 "id1" idle []
                    (with_free 0 (at_rest demo_queue []))) eq_refl).
Defined.

(** X8.  A ticket that was created can be read back: after a creation
    that answered 201, whatever had failed before, GET /tickets/:id with
    the new id answers 200 with the very ticket of the 201, which is
    waiting, has no counter, and carries the id. *)
Theorem created_ticket_is_readable (t : nat) (d : db) (evs : list event)
    (req : create_request) (today id : string) (now : Z) (fs : list bool)
    (x : response) c w :
  run t (post_ticket req today id now) idle fs (at_rest d evs)
  = Finished (Some x) c w →
  http x = 201%nat →
  ∃ j,
    json x = Ticket (Some j)
    ∧ j_id j = id
    ∧ status (j_row j) = "waiting"
    ∧ counter_id (j_row j) = None
    ∧ tickets (store w) !! id = Some (j_row j)
    ∧ run t (get_ticket id) idle [] w
      = Finished (Some {| http := 200; json := Ticket (Some j) |}) idle w.
Proof.
  intros Hrun Hx.
  destruct (JS.truthy (req_service_id req) && JS.truthy (req_branch_id req))
    eqn:Hv.
  - apply andb_prop in Hv as [Hs Hb].
    destruct (post_ticket_outcomes t d evs req today id now fs Hs Hb)
      as (r' & c' & w' & Hrun' & Hr & _ & _ & Hdone & Hrest).
    rewrite Hrun' in Hrun. injection Hrun as -> -> ->.
    destruct (Hrest ltac:(eauto)) as [_ Hw].
    destruct Hr as [Hr|[Hr|Hr]]; [|injection Hr as ->; discriminate Hx|done].
    destruct (Hdone Hr) as (_ & Hfresh & Hst). injection Hr as ->.
    eexists. split; [reflexivity|]. split; [done|]. split; [done|].
    split; [done|].
    assert (tickets (store w) !! id
            = Some (row_of d req (current d (key_of req today)) now)) as Hrow.
    { rewrite Hst, created_tickets. by rewrite lookup_insert_eq. }
    split; [done|].
    destruct (get_ticket_outcomes t id idle [] w)
      as (r & Hget & [->|[_ [[=]|[=]]]]); [by rewrite Hw|].
    rewrite Hget, Hrow, Hst. done.
  - destruct (post_ticket_invalid t d evs req today id now fs Hv)
      as (r' & c' & w' & Hrun' & Hr & _).
    rewrite Hrun' in Hrun. injection Hrun as -> -> ->.
    destruct Hr as [[= ->]|[=]]. discriminate Hx.
Qed.

Lemma created_ticket_is_readable_witness :
  ∃ j w,
    run 0 (post_ticket (demo_create "svcA") "2024-01-01" "id9" 40) idle []
      (at_rest demo_queue [])
    = Finished (Some {| http := 201; json := Ticket (Some j) |}) idle w
    ∧ run 0 (get_ticket "id9") idle [] w
      = Finished (Some {| http := 200; json := Ticket (Some j) |}) idle w.
Proof.
  eexists _, _. split; [vm_compute; reflexivity|].
  destruct (created_ticket_is_readable 0 demo_queue [] (demo_create "svcA")
              "2024-01-01" "id9" 40 [] _ _ _
              ltac:(vm_compute; reflexivity) eq_refl)
    as (j & Hj & _ & _ & _ & _ & Hget).
  injection Hj as <-. exact Hget.
Defined.

(** X9.  No request of the ticket routes publishes an event for a change
    that is not committed: whatever statements fail, when a run has
    published anything, or answers with a 2xx, the tables hold what the
    request commits; and events are only ever added to those published
    before. *)
Theorem published_after_commit (t : nat) (d : db) (evs : list event)
    (q : request) (fs : list bool) r c w :
  run t (handler q) idle fs (at_rest d evs) = Finished r c w →
  (emitted w ≠ evs ∨ succeeded r = true → store w = effect q d)
  ∧ ∃ new, emitted w = (new ++ evs)%list.
Proof.
  intros Hrun.
  destruct q as [req td id now|id req user now|req now|id now];
    cbn [handler effect] in *.
  - destruct (JS.truthy (req_service_id req) && JS.truthy (req_branch_id req))
      eqn:Hv.
    + apply andb_prop in Hv as [Hs Hb].
      destruct (post_ticket_outcomes t d evs req td id now fs Hs Hb)
        as (r' & c' & w' & Hrun' & Hr & _ & Hev & Hdone & _).
      rewrite Hrun' in Hrun. injection Hrun as -> -> ->. split.
      * intros [Hne|Hok].
        -- destruct Hev as [Hev|(_ & _ & Hst)]; [done|done].
        -- destruct Hr as [Hr|[Hr|Hr]]; [by apply Hdone|subst r; done|subst r; done].
      * destruct Hev as [->|(-> & _)]; [by exists []|by eexists [_]].
    + destruct (post_ticket_invalid t d evs req td id now fs Hv)
        as (r' & c' & w' & Hrun' & Hr & Hst & Hev & _).
      rewrite Hrun' in Hrun. injection Hrun as -> -> ->. split.
      * intros [Hne|Hok]; [done|]. by destruct Hr as [->| ->].
      * exists []. by rewrite Hev.
  - destruct (updates req user) as [|a sets] eqn:Hupd.
    + unfold patch_ticket in Hrun. rewrite Hupd in Hrun. cbn in Hrun.
      injection Hrun as <- <- <-. split; [|by exists []].
      intros [Hne|Hok]; done.
    + destruct (patch_ticket_outcomes t d evs id req user now fs)
        as (r' & c' & w' & Hrun' & Hr & _); [by rewrite Hupd|].
      rewrite Hrun' in Hrun. injection Hrun as -> -> ->.
      rewrite Hupd in *.
      destruct (tickets d !! id) as [row|].
      * destruct Hr as (Hr & Hev & _ & Hdone). split.
        -- intros [Hne|Hok].
           ++ by destruct Hev as [Hev|[_ Hst]].
           ++ destruct Hr as [Hr|Hr]; [by apply Hdone|subst r; done].
        -- destruct Hev as [->|(-> & _)]; [by exists []|by eexists [_]].
      * destruct Hr as (-> & Hst & Hev). split.
        -- intros [Hne|Hok]; done.
        -- exists []. by rewrite Hev.
  - destruct (JS.truthy (call_counter_id req)) eqn:Hv.
    + destruct (call_next_outcomes t d evs req now fs Hv)
        as (r' & c' & w' & Hrun' & Hr & _).
      rewrite Hrun' in Hrun. injection Hrun as -> -> ->.
      destruct (select_next d _ _) as [id|].
      * destruct Hr as (row & Hrow & Hr & _ & Hev & Hdone). split.
        -- intros [Hne|Hok].
           ++ by destruct Hev as [Hev|[Hst _]].
           ++ destruct Hr as [Hr|[Hr|Hr]]; [by apply Hdone|subst r; done|subst r; done].
        -- destruct Hev as [->|(_ & [->| ->])];
             [by exists []|by eexists [_]|by eexists [_; _]].
      * destruct Hr as (_ & Hst & ->). split; [done|by exists []].
    + destruct (call_next_invalid t d evs req now fs Hv)
        as (r' & c' & w' & Hrun' & Hr & Hst & Hev & _).
      rewrite Hrun' in Hrun. injection Hrun as -> -> ->. split.
      * intros [Hne|Hok]; [done|]. by destruct Hr as [->| ->].
      * exists []. by rewrite Hev.
  - destruct (delete_ticket_outcomes t d evs id now fs)
      as (r' & c' & w' & Hrun' & Hr & _).
    rewrite Hrun' in Hrun. injection Hrun as -> -> ->.
    destruct (tickets d !! id) as [row|] eqn:Hrow.
    + destruct Hr as (Hr & Hev & _ & Hdone). split.
      * intros [Hne|Hok].
        -- by destruct Hev as [Hev|[_ Hst]].
        -- destruct Hr as [Hr|Hr]; [by apply Hdone|subst r; done].
      * destruct Hev as [->|(-> & _)]; [by exists []|by eexists [_]].
    + destruct Hr as (Hr & Hst & Hev). split.
      * intros [Hne|Hok]; [done|]. by destruct Hr as [->| ->].
      * exists []. by rewrite Hev.
Qed.

Lemma published_after_commit_witness :
  ∃ r c w,
    run 0 (handler (CallNext (demo_call "c1") 40)) idle
      [false; false; false; false; false; false; false; true] (at_rest demo_queue [])
    = Finished r c w
    ∧ emitted w ≠ []
    ∧ store w = dispatched demo_queue "c1" 40 "id3".
Proof.
  eexists _, _, _. split; [vm_compute; reflexivity|].
  split; [vm_compute; discriminate|].
  refine (proj1 (published_after_commit 0 demo_queue [] (CallNext (demo_call "c1") 40)
                   [false; false; false; false; false; false; false; true] _ _ _ _) _).
  - vm_compute. reflexivity.
  - left. vm_compute. discriminate.
Defined.

(** ** Requests that follow one another *)


(** A ticket that is not waiting is passed over by call-next, whatever
    fails. *)
Lemma call_next_skips (t : nat) (d : db) (evs : list event) (id : string)
    (row : ticket) (req : call_request) (now : Z) (fs : list bool) r c w :
  tickets d !! id = Some row →
  status row ≠ "waiting" →
  run t (call_next req now) idle fs (at_rest d evs) = Finished r c w →
  called_id r ≠ Some id ∧ tickets (store w) !! id = Some row.
Proof.
  intros Hrow Hst Hrun.
  assert (∀ id', select_next d (default "" (call_counter_id req))
                   (call_service_id req) = Some id' → id' ≠ id) as Hother.
  { intros id' Hsel ->.
    destruct (select_next_Some _ _ _ _ Hsel) as (row' & Hrow' & Hm & _).
    assert (row' = row) as -> by congruence.
    unfold matches in Hm. apply andb_prop in Hm as [Hm _].
    apply andb_prop in Hm as [Hm _]. by apply String.eqb_eq in Hm. }
  split.
  - destruct (JS.truthy (call_counter_id req)) eqn:Hv.
    + destruct (call_next_outcomes t d evs req now fs Hv)
        as (r' & c' & w' & Hrun' & Hr & _).
      rewrite Hrun' in Hrun. injection Hrun as -> -> ->.
      destruct (select_next d _ _) as [id'|] eqn:Hsel.
      * destruct Hr as (row' & _ & [->|[->| ->]] & _); cbn; try done.
        intros [= ->]. by apply (Hother id).
      * by destruct Hr as ([->|[->| ->]] & _).
    + destruct (call_next_invalid t d evs req now fs Hv)
        as (r' & c' & w' & Hrun' & Hr & _).
      rewrite Hrun' in Hrun. injection Hrun as -> -> ->.
      by destruct Hr as [->| ->].
  - destruct (call_next_atomic t d evs req now fs)
      as (r' & c' & w' & Hrun' & Hw).
    rewrite Hrun' in Hrun. injection Hrun as -> -> ->.
    destruct Hw as [->|(id' & Hsel & ->)]; [done|].
    rewrite dispatched_tickets, decide_False; [done|]. by apply Hother.
Qed.

(** Only call-next answers with a called ticket. *)
Lemma called_by_call_next (t : nat) (d : db) (evs : list event) (q : request)
    (fs : list bool) r c w (id : string) :
  run t (handler q) idle fs (at_rest d evs) = Finished r c w →
  called_id r = Some id → ∃ req now, q = CallNext req now.
Proof.
  intros Hrun Hid.
  destruct q as [req td id' now|id' req user now|req now|id' now];
    cbn [handler] in Hrun; [| |by eauto|]; exfalso.
  - destruct (JS.truthy (req_service_id req) && JS.truthy (req_branch_id req))
      eqn:Hv.
    + apply andb_prop in Hv as [Hs Hb].
      destruct (post_ticket_outcomes t d evs req td id' now fs Hs Hb)
        as (r' & c' & w' & Hrun' & Hr & _).
      rewrite Hrun' in Hrun. injection Hrun as -> -> ->.
      by destruct Hr as [->|[->| ->]].
    + destruct (post_ticket_invalid t d evs req td id' now fs Hv)
        as (r' & c' & w' & Hrun' & Hr & _).
      rewrite Hrun' in Hrun. injection Hrun as -> -> ->.
      by destruct Hr as [->| ->].
  - destruct (decide (updates req user = [])) as [Hnil|Hne].
    + unfold patch_ticket in Hrun. rewrite Hnil in Hrun. cbn in Hrun.
      by injection Hrun as <- <- <-.
    + destruct (patch_ticket_outcomes t d evs id' req user now fs Hne)
        as (r' & c' & w' & Hrun' & Hr & _).
      rewrite Hrun' in Hrun. injection Hrun as -> -> ->.
      destruct (tickets d !! id') as [row|].
      * by destruct Hr as ([->| ->] & _).
      * by destruct Hr as (-> & _).
  - destruct (delete_ticket_outcomes t d evs id' now fs)
      as (r' & c' & w' & Hrun' & Hr & _).
    rewrite Hrun' in Hrun. injection Hrun as -> -> ->.
    destruct (tickets d !! id') as [row|].
    + by destruct Hr as ([->| ->] & _).
    + by destruct Hr as ([->| ->] & _).
Qed.

(** A request that is answered has given its connection back and holds
    no lock. *)
Lemma handler_rests (t : nat) (d : db) (evs : list event) (q : request)
    (fs : list bool) (x : response) c w :
  run t (handler q) idle fs (at_rest d evs) = Finished (Some x) c w →
  c = idle ∧ w = at_rest (store w) (emitted w).
Proof.
  intros Hrun.
  destruct q as [req td id' now|id' req user now|req now|id' now];
    cbn [handler] in Hrun.
  - destruct (JS.truthy (req_service_id req) && JS.truthy (req_branch_id req))
      eqn:Hv.
    + apply andb_prop in Hv as [Hs Hb].
      destruct (post_ticket_outcomes t d evs req td id' now fs Hs Hb)
        as (r' & c' & w' & Hrun' & _ & _ & _ & _ & Hrest).
      rewrite Hrun' in Hrun. injection Hrun as -> -> ->. apply Hrest. eauto.
    + destruct (post_ticket_invalid t d evs req td id' now fs Hv)
        as (r' & c' & w' & Hrun' & _ & _ & _ & Hrest).
      rewrite Hrun' in Hrun. injection Hrun as -> -> ->.
      destruct (Hrest ltac:(eauto)) as [-> ->]. done.
  - destruct (decide (updates req user = [])) as [Hnil|Hne].
    + unfold patch_ticket in Hrun. rewrite Hnil in Hrun. cbn in Hrun.
      by injection Hrun as <- <- <-.
    + destruct (patch_ticket_outcomes t d evs id' req user now fs Hne)
        as (r' & c' & w' & Hrun' & _ & Hrest).
      rewrite Hrun' in Hrun. by injection Hrun as -> -> ->.
  - destruct (JS.truthy (call_counter_id req)) eqn:Hv.
    + destruct (call_next_outcomes t d evs req now fs Hv)
        as (r' & c' & w' & Hrun' & _ & Hrest).
      rewrite Hrun' in Hrun. injection Hrun as -> -> ->. apply Hrest. eauto.
    + destruct (call_next_invalid t d evs req now fs Hv)
        as (r' & c' & w' & Hrun' & _ & _ & _ & Hrest).
      rewrite Hrun' in Hrun. injection Hrun as -> -> ->.
      destruct (Hrest ltac:(eauto)) as [-> ->]. done.
  - destruct (delete_ticket_outcomes t d evs id' now fs)
      as (r' & c' & w' & Hrun' & _ & Hrest).
    rewrite Hrun' in Hrun. by injection Hrun as -> -> ->.
Qed.

(** A ticket that is not waiting is not waiting after a request,
    whatever fails, unless the request is a status patch that asks to
    put it back in the queue. *)
Lemma stays_out_of_queue (t : nat) (d : db) (evs : list event) (q : request)
    (fs : list bool) (id : string) (row : ticket) r c w :
  tickets d !! id = Some row → status row ≠ "waiting" → ¬ reopens id q →
  run t (handler q) idle fs (at_rest d evs) = Finished r c w →
  ∃ row', tickets (store w) !! id = Some row' ∧ status row' ≠ "waiting".
Proof.
  intros Hrow Hst Hre Hq.
  destruct q as [req td id' now|id' req user now|req now|id' now];
    cbn [handler reopens] in *.
  - destruct (post_ticket_atomic t d evs req td id' now fs)
      as (r' & c' & w' & Hrun & Hw).
    rewrite Hrun in Hq. injection Hq as <- <- <-.
    exists row. split; [|done].
    destruct Hw as [->|[Hnew ->]]; [done|].
    rewrite created_tickets, lookup_insert_ne; [done|]. congruence.
  - destruct (patch_ticket_atomic t d evs id' req user now fs)
      as (r' & c' & w' & Hrun & Hw).
    rewrite Hrun in Hq. injection Hq as <- <- <-.
    destruct Hw as [->| ->]; [by exists row|].
    cbn. rewrite lookup_alter. case_decide as Hid; [|by exists row].
    subst id'. rewrite Hrow. eexists. split; [reflexivity|].
    rewrite updates_status.
    destruct (JS.truthy (patch_status req)) eqn:Htr; [|done].
    destruct (patch_status req) as [s|] eqn:Hs; [|done]. cbn.
    intros ->. by apply Hre.
  - destruct (call_next_atomic t d evs req now fs)
      as (r' & c' & w' & Hrun & Hw).
    rewrite Hrun in Hq. injection Hq as <- <- <-.
    destruct Hw as [->|(id0 & Hsel & ->)]; [by exists row|].
    rewrite dispatched_tickets. case_decide as Hid; [|by exists row].
    subst id0. rewrite Hrow. by eexists.
  - destruct (delete_ticket_atomic t d evs id' now fs)
      as (r' & c' & w' & Hrun & Hw).
    rewrite Hrun in Hq. injection Hq as <- <- <-.
    destruct Hw as [->| ->]; [by exists row|].
    cbn. rewrite lookup_alter. case_decide as Hid; [|by exists row].
    subst id'. rewrite Hrow. by eexists.
Qed.

(** A ticket that is not waiting is called by none of the requests that
    follow, whatever fails, as long as none of them puts it back in the
    queue. *)
Lemma in_turn_skips (t : nat) (id : string) (qs : list (request * list bool)) :
  Forall (λ q, ¬ reopens id q.1) qs →
  ∀ d evs row,
    tickets d !! id = Some row → status row ≠ "waiting" →
    Forall (λ x, called_id (Some x) ≠ Some id) (in_turn t qs (at_rest d evs)).1.
Proof.
  induction 1 as [|[q fs] qs Hq _ IH]; intros d evs row Hrow Hst; [by constructor|].
  cbn [in_turn].
  destruct (run t (handler q) idle fs (at_rest d evs)) as [[x|] c w|] eqn:Hrun;
    [|by constructor..].
  destruct (handler_rests _ _ _ _ _ _ _ _ Hrun) as [-> Hw].
  destruct (stays_out_of_queue _ _ _ _ _ _ _ _ _ _ Hrow Hst Hq Hrun)
    as (row' & Hrow' & Hst').
  specialize (IH (store w) (emitted w) row' Hrow' Hst'). rewrite <-Hw in IH.
  destruct (in_turn t qs w) as [rs w'']. cbn [fst] in *.
  constructor; [|done].
  intros Hid.
  destruct (called_by_call_next _ _ _ _ _ _ _ _ _ Hrun Hid) as (req & now & ->).
  cbn [handler] in Hrun.
  by destruct (call_next_skips _ _ _ _ _ _ _ _ _ _ _ Hrow Hst Hrun).
Qed.

(** X10.  A ticket is called once: after call-next has answered with a
    ticket, and after a DELETE has cancelled one, no later call-next
    answers with that ticket, from whatever counter, whatever requests
    of the ticket routes are served in between and whatever fails in
    them, as long as every request is answered and none is a status
    patch that puts the ticket back to waiting; and a call-next that
    follows at once leaves the row as it is. *)
Theorem served_or_cancelled_is_not_called (t : nat) (d : db)
    (evs : list event) (id : string) (qs : list (request * list bool)) :
  Forall (λ q, ¬ reopens id q.1) qs →
  (∀ req now r1 c1 w1,
     run t (call_next req now) idle [] (at_rest d evs) = Finished r1 c1 w1 →
     called_id r1 = Some id →
     Forall (λ x, called_id (Some x) ≠ Some id) (in_turn t qs w1).1
     ∧ ∀ req' now' fs r c w,
         run t (call_next req' now') idle fs w1 = Finished r c w →
         called_id r ≠ Some id
         ∧ tickets (store w) !! id = tickets (store w1) !! id)
  ∧ (∀ now row r1 c1 w1,
       tickets d !! id = Some row →
       run t (delete_ticket id now) idle [] (at_rest d evs) = Finished r1 c1 w1 →
       Forall (λ x, called_id (Some x) ≠ Some id) (in_turn t qs w1).1
       ∧ ∀ req' now' fs r c w,
           run t (call_next req' now') idle fs w1 = Finished r c w →
           called_id r ≠ Some id
           ∧ tickets (store w) !! id = tickets (store w1) !! id).
Proof.
  intros Hqs. split.
  - intros req now r1 c1 w1 Hrun1 Hid.
    destruct (JS.truthy (call_counter_id req)) eqn:Hv; last first.
    { rewrite call_next_rejected in Hrun1 by done.
      injection Hrun1 as <- _ _. discriminate Hid. }
    destruct (select_next d (default "" (call_counter_id req))
                (call_service_id req)) as [id'|] eqn:Hsel; last first.
    { rewrite call_next_empty in Hrun1 by done.
      injection Hrun1 as <- _ _. discriminate Hid. }
    destruct (select_next_Some _ _ _ _ Hsel) as (row & Hrow & _).
    rewrite (call_next_served t d evs req now id' row Hv Hsel Hrow) in Hrun1.
    injection Hrun1 as <- <- <-. cbn in Hid. injection Hid as ->.
    assert (tickets (dispatched d (default "" (call_counter_id req)) now id) !! id
            = Some (serve (default "" (call_counter_id req)) now row)) as Hrow1.
    { rewrite dispatched_tickets, decide_True by done. by rewrite Hrow. }
    split; [by eapply in_turn_skips|].
    intros req' now' fs r c w Hrun.
    cbn [store at_rest]. rewrite Hrow1.
    by eapply call_next_skips.
  - intros now row r1 c1 w1 Hrow Hrun1.
    rewrite (delete_ticket_done t d evs id now row Hrow) in Hrun1.
    injection Hrun1 as <- <- <-.
    assert (tickets (apply_write (WUpdateCancelled now id) d) !! id
            = Some (cancel now row)) as Hrow1.
    { cbn. by rewrite lookup_alter_eq, Hrow. }
    split; [by eapply in_turn_skips|].
    intros req' now' fs r c w Hrun.
    cbn [store at_rest].
    change (with_tickets (alter (cancel now) id) d)
      with (apply_write (WUpdateCancelled now id) d) in *.
    rewrite Hrow1.
    by eapply call_next_skips.
Qed.

Lemma served_or_cancelled_is_not_called_witness :
  ∃ r1 c1 w1,
    run 0 (call_next (demo_call "c1") 40) idle [] (at_rest demo_queue [])
    = Finished r1 c1 w1
    ∧ called_id r1 = Some "id3"
    ∧ Forall (λ x, called_id (Some x) ≠ Some "id3")
        (in_turn 0 [(CallNext (demo_call "c1") 50, []);
                    (DeleteTicket "id2" 60, [true]);
                    (CallNext (demo_call "c1") 70, [])] w1).1.
Proof.
  eexists _, _, _. split; [vm_compute; reflexivity|]. split; [reflexivity|].
  refine (proj1 (proj1 (served_or_cancelled_is_not_called 0 demo_queue [] "id3"
                          [(CallNext (demo_call "c1") 50, []);
                           (DeleteTicket "id2" 60, [true]);
                           (CallNext (demo_call "c1") 70, [])] _)
                   (demo_call "c1") 40%Z _ _ _ _ _)).
  - repeat constructor; intros [].
  - vm_compute. reflexivity.
  - reflexivity.
Defined.

Section queue.

Context (t : nat) (bid : string) (call : call_request).
Context (Hbid : bid ≠ "").
Context (Hcid : JS.truthy (call_counter_id call) = true).




End queue.





(** X13.  call-next never crosses branches: whatever fails, a ticket it
    answers with was waiting, belongs to the branch of the calling
    counter, and is of the service asked for when one is asked for; a
    counter_id that names no counter, or a counter without branch, gets
    no ticket at all. *)
Theorem call_next_stays_in_branch (t : nat) (d : db) (evs : list event)
    (req : call_request) (now : Z) (fs : list bool) r c w (id : string) :
  run t (call_next req now) idle fs (at_rest d evs) = Finished r c w →
  called_id r = Some id →
  ∃ row,
    tickets d !! id = Some row
    ∧ status row = "waiting"
    ∧ counter_branch d (default "" (call_counter_id req)) = Some (branch_id row)
    ∧ (JS.truthy (call_service_id req) = true →
       call_service_id req = Some (service_id row)).
Proof.
  intros Hrun Hid.
  destruct (JS.truthy (call_counter_id req)) eqn:Hv; last first.
  { destruct (call_next_invalid t d evs req now fs Hv)
      as (r' & c' & w' & Hrun' & Hr & _).
    rewrite Hrun' in Hrun. injection Hrun as -> -> ->.
    by destruct Hr as [->| ->]. }
  destruct (call_next_outcomes t d evs req now fs Hv)
    as (r' & c' & w' & Hrun' & Hr & _).
  rewrite Hrun' in Hrun. injection Hrun as -> -> ->.
  destruct (select_next d _ _) as [id'|] eqn:Hsel; last first.
  { by destruct Hr as ([->|[->| ->]] & _). }
  destruct Hr as (row & Hrow & [->|[->| ->]] & _); try done.
  cbn in Hid. injection Hid as ->.
  destruct (select_next_Some _ _ _ _ Hsel) as (row' & Hrow' & Hm & _).
  assert (row' = row) as -> by congruence.
  exists row. split; [done|]. unfold matches in Hm.
  apply andb_prop in Hm as [Hm Hsv]. apply andb_prop in Hm as [Hst Hbr].
  apply String.eqb_eq in Hst. split; [done|].
  destruct (counter_branch d _) as [b|]; [|done].
  apply String.eqb_eq in Hbr. split; [by rewrite Hbr|].
  intros Hf. rewrite Hf in Hsv. apply String.eqb_eq in Hsv.
  destruct (call_service_id req) as [s|]; [|done]. cbn in Hsv. by rewrite Hsv.
Qed.

Lemma call_next_stays_in_branch_witness :
  ∃ r c w row,
    run 0 (call_next (demo_call "c1") 40) idle [] (at_rest demo_queue [])
    = Finished r c w
    ∧ called_id r = Some "id3"
    ∧ tickets demo_queue !! "id3" = Some row
    ∧ counter_branch demo_queue "c1" = Some (branch_id row).
Proof.
  eexists _, _, _.
  destruct (call_next_stays_in_branch 0 demo_queue [] (demo_call "c1") 40 []
              _ _ _ "id3" ltac:(vm_compute; reflexivity) eq_refl)
    as (row & Hrow & _ & Hbr & _).
  exists row. split; [vm_compute; reflexivity|]. split; [reflexivity|].
  split; [exact Hrow|exact Hbr].
Defined.

(** X14.  What a successful request publishes is what it answers: a 201
    of POST /tickets comes after one created event with the ticket of the
    answer, a 200 of PATCH after one updated event with the ticket of
    the answer, and neither comes without a ticket; a 200 of call-next
    with a ticket after an updated and then a called event, both made
    from that ticket; a 200 of DELETE after one deleted event with the
    id, for the room of the branch the ticket had; and the answer that
    the queue is empty, like every 400 and 404, after no event at all. *)
Theorem events_match_answers (t : nat) (d : db) (evs : list event)
    (q : request) (fs : list bool) (x : response) c w :
  run t (handler q) idle fs (at_rest d evs) = Finished (Some x) c w →
  match q, http x, json x with
  | PostTicket _ _ _ _, 201, Ticket (Some j) =>
      emitted w = ticket_created (Plain j) :: evs
  | PostTicket _ _ _ _, 201, Ticket None => False
  | PatchTicket _ _ _ _, 200, Ticket (Some j) =>
      emitted w = ticket_updated (Plain j) :: evs
  | PatchTicket _ _ _ _, 200, Ticket None => False
  | CallNext _ _, 200, Called tj =>
      emitted w = ticket_called (Nested tj) :: ticket_updated (Nested tj) :: evs
  | CallNext _ _, 200, NoTicket _ => emitted w = evs
  | DeleteTicket id _, 200, _ =>
      ∃ row, tickets d !! id = Some row
             ∧ emitted w = ticket_deleted id (branch_id row) :: evs
  | _, 400, _ => emitted w = evs
  | _, 404, _ => emitted w = evs
  | _, _, _ => True
  end.
Proof.
  intros Hrun.
  destruct q as [req td id now|id req user now|req now|id now];
    cbn [handler] in Hrun.
  - destruct (JS.truthy (req_service_id req) && JS.truthy (req_branch_id req))
      eqn:Hv.
    + apply andb_prop in Hv as [Hs Hb].
      destruct (post_ticket_outcomes t d evs req td id now fs Hs Hb)
        as (r' & c' & w' & Hrun' & Hr & _ & _ & Hdone & _).
      rewrite Hrun' in Hrun. injection Hrun as -> -> ->.
      destruct Hr as [Hr|[Hr|Hr]]; [|by injection Hr as ->|done].
      destruct (Hdone Hr) as (Hev & _). by injection Hr as ->.
    + destruct (post_ticket_invalid t d evs req td id now fs Hv)
        as (r' & c' & w' & Hrun' & Hr & _ & Hev & _).
      rewrite Hrun' in Hrun. injection Hrun as -> -> ->.
      destruct Hr as [Hr|Hr]; [|done]. by injection Hr as ->.
  - destruct (updates req user) as [|a sets] eqn:Hupd.
    + unfold patch_ticket in Hrun. rewrite Hupd in Hrun. cbn in Hrun.
      by injection Hrun as <- <- <-.
    + destruct (patch_ticket_outcomes t d evs id req user now fs)
        as (r' & c' & w' & Hrun' & Hr & _); [by rewrite Hupd|].
      rewrite Hrun' in Hrun. injection Hrun as -> -> ->.
      destruct (tickets d !! id) as [row|].
      * destruct Hr as (Hr & _ & _ & Hdone).
        destruct Hr as [Hr|Hr]; [|by injection Hr as ->].
        destruct (Hdone Hr) as (Hev & _). by injection Hr as ->.
      * destruct Hr as (Hr & _). by injection Hr as ->.
  - destruct (JS.truthy (call_counter_id req)) eqn:Hv.
    + destruct (call_next_outcomes t d evs req now fs Hv)
        as (r' & c' & w' & Hrun' & Hr & _).
      rewrite Hrun' in Hrun. injection Hrun as -> -> ->.
      destruct (select_next d _ _) as [id|].
      * destruct Hr as (row & Hrow & Hr & _ & _ & Hdone).
        destruct Hr as [Hr|[Hr|Hr]]; [|by injection Hr as ->|done].
        destruct (Hdone Hr) as (_ & Hev). by injection Hr as ->.
      * destruct Hr as (Hr & _ & Hev).
        destruct Hr as [Hr|[Hr|Hr]]; [by injection Hr as ->|by injection Hr as ->|done].
    + destruct (call_next_invalid t d evs req now fs Hv)
        as (r' & c' & w' & Hrun' & Hr & _ & Hev & _).
      rewrite Hrun' in Hrun. injection Hrun as -> -> ->.
      destruct Hr as [Hr|Hr]; [|done]. by injection Hr as ->.
  - destruct (delete_ticket_outcomes t d evs id now fs)
      as (r' & c' & w' & Hrun' & Hr & _).
    rewrite Hrun' in Hrun. injection Hrun as -> -> ->.
    destruct (tickets d !! id) as [row|] eqn:Hrow.
    + destruct Hr as (Hr & _ & _ & Hdone).
      destruct Hr as [Hr|Hr]; [|by injection Hr as ->].
      destruct (Hdone Hr) as (Hev & _). injection Hr as ->. cbn. eauto.
    + destruct Hr as (Hr & _ & Hev).
      destruct Hr as [Hr|Hr]; by injection Hr as ->.
Qed.

Lemma events_match_answers_witness :
  ∃ tj c w,
    run 0 (handler (CallNext (demo_call "c1") 40)) idle [] (at_rest demo_queue [])
    = Finished (Some {| http := 200; json := Called tj |}) c w
    ∧ emitted w = [ticket_called (Nested tj); ticket_updated (Nested tj)].
Proof.
  eexists _, _, _. split; [vm_compute; reflexivity|].
  exact (events_match_answers 0 demo_queue [] (CallNext (demo_call "c1") 40) []
           _ _ _ ltac:(vm_compute; reflexivity)).
Defined.

(** ** Ticket numbers tell the sequence values apart *)

Lemma append_inv_head (p s1 s2 : string) : p +:+ s1 = p +:+ s2 → s1 = s2.
Proof.
  induction p as [|c p IH]; [done|].
  change (String c p +:+ s1) with (String c (p +:+ s1)).
  change (String c p +:+ s2) with (String c (p +:+ s2)).
  intros [= H]. by apply IH.
Qed.

(** The numbers below 1000, padded: three characters each, all
    different. *)
Lemma padded_small :
  NoDup ((λ n, JS.padStart 3 "0" (JS.String_ n)) <$> seq 0 1000)
  ∧ Forall (λ n, String.length (JS.padStart 3 "0" (JS.String_ n)) = 3%nat)
      (seq 0 1000).
Proof.
  split.
  - apply (bool_decide_unpack _). vm_compute. exact I.
  - apply (bool_decide_unpack _). vm_compute. exact I.
Qed.

Lemma padded_inj (n m : nat) :
  JS.padStart 3 "0" (JS.String_ n) = JS.padStart 3 "0" (JS.String_ m) → n = m.
Proof.
  destruct padded_small as [Hnd Hlen]. rewrite Forall_forall in Hlen.
  assert (∀ k, (1000 ≤ k)%nat →
               JS.padStart 3 "0" (JS.String_ k) = JS.String_ k
               ∧ (3 < String.length (JS.String_ k))%nat) as Hbig.
  { intros k Hk. pose proof (String_length 3 k Hk) as Hl.
    split; [|done]. apply padStart_long. lia. }
  assert (∀ k, (k < 1000)%nat →
               String.length (JS.padStart 3 "0" (JS.String_ k)) = 3%nat) as Hsmall.
  { intros k Hk. apply Hlen. apply elem_of_seq. lia. }
  intros Heq.
  destruct (Nat.lt_ge_cases n 1000) as [Hn|Hn], (Nat.lt_ge_cases m 1000) as [Hm|Hm].
  - apply (NoDup_lookup _ n m (JS.padStart 3 "0" (JS.String_ n)) Hnd).
    + rewrite list_lookup_fmap, lookup_seq_lt by done. reflexivity.
    + rewrite list_lookup_fmap, lookup_seq_lt by done. cbn. by rewrite Heq.
  - pose proof (Hsmall n Hn) as H3. destruct (Hbig m Hm) as [Hid Hl].
    rewrite Heq, Hid in H3. lia.
  - pose proof (Hsmall m Hm) as H3. destruct (Hbig n Hn) as [Hid Hl].
    rewrite <-Heq, Hid in H3. lia.
  - destruct (Hbig n Hn) as [Hidn _], (Hbig m Hm) as [Hidm _].
    rewrite Hidn, Hidm in Heq. by apply (inj pretty) in Heq.
Qed.

(** X15.  Under one prefix, different sequence values give different
    ticket numbers: the padding with zeros never makes two values look
    alike.  So the numbers of any run of consecutive values are all
    different. *)
Theorem ticket_numbers_differ (prefix : string) (n m : nat) :
  n ≠ m →
  ticketNumber prefix n ≠ ticketNumber prefix m
  ∧ ∀ first count, NoDup (ticketNumber prefix <$> seq first count).
Proof.
  assert (Inj (=) (=) (ticketNumber prefix)) as Hinj.
  { intros a b Heq. unfold ticketNumber in Heq.
    apply append_inv_head, append_inv_head in Heq. by apply padded_inj. }
  intros Hne. split.
  - intros Heq. by apply Hinj in Heq.
  - intros first count. apply NoDup_fmap_2; [done|apply NoDup_seq].
Qed.

Lemma ticket_numbers_differ_witness :
  ticketNumber "A" 7 ≠ ticketNumber "A" 1007.
Proof.
  apply (proj1 (ticket_numbers_differ "A" 7 1007 ltac:(lia))).
Defined.

(** ** The text of the list queries *)

Lemma count_char_app (c : ascii) (s1 s2 : string) :
  count_char c (s1 +:+ s2) = (count_char c s1 + count_char c s2)%nat.
Proof.
  induction s1 as [|a s1 IH]; [done|].
  change (String a s1 +:+ s2) with (String a (s1 +:+ s2)).
  cbn [count_char]. rewrite IH. lia.
Qed.

Lemma count_placeholders {A : Type} (items : list A) :
  count_char "?" (placeholders items) = length items.
Proof.
  unfold placeholders. induction items as [|x [|y l] IH]; [done|done|].
  change (map (λ _ : A, "?") (x :: y :: l))
    with ("?" :: map (λ _ : A, "?") (y :: l)).
  change (String.concat "," ("?" :: map (λ _ : A, "?") (y :: l)))
    with ("?" +:+ "," +:+ String.concat "," (map (λ _ : A, "?") (y :: l))).
  rewrite !count_char_app, IH. done.
Qed.

Lemma split_on_length (sep : ascii) (s : string) :
  (0 < length (split_on sep s))%nat.
Proof.
  induction s as [|c s IH]; cbn; [lia|].
  destruct (Ascii.eqb c sep); cbn; [lia|].
  destruct (split_on sep s); cbn; lia.
Qed.

Section list_tickets.

Context (trim toUpperCase : string → string).
Context (parseInt : option string → number).
Context (Number_toString : number → string).

(** The ORDER BY clause names one of the five columns and one of the two
    directions, whatever the request asks for. *)
Lemma list_order_valid (sort : option string) :
  ∃ f dir, f ∈ validFields ∧ dir ∈ ["ASC"; "DESC"]
           ∧ list_order toUpperCase sort = " ORDER BY t." +:+ f +:+ " " +:+ dir.
Proof.
  assert ("created_at" ∈ validFields) as Hdefault by (apply elem_of_cons; auto).
  assert ("ASC" ∈ ["ASC"; "DESC"]) as Hasc by (apply elem_of_cons; auto).
  assert ("DESC" ∈ ["ASC"; "DESC"]) as Hdesc
    by (apply elem_of_cons; right; apply elem_of_cons; auto).
  unfold list_order. destruct (JS.truthy sort); [|by exists "created_at", "DESC"].
  cbv zeta.
  destruct (split_on ":" (default "" sort) !! 0%nat) as [f|];
    [|by exists "created_at", "DESC"].
  destruct (bool_decide (f ∈ validFields)) eqn:Hf;
    [|by exists "created_at", "DESC"].
  apply bool_decide_eq_true in Hf.
  destruct (bool_decide _); [by exists f, "ASC"|by exists f, "DESC"].
Qed.

Lemma list_order_count (sort : option string) :
  count_char "?" (list_order toUpperCase sort) = 0%nat.
Proof.
  destruct (list_order_valid sort) as (f & dir & Hf & Hdir & ->).
  assert (Forall (λ s, count_char "?" s = 0%nat) validFields) as Hfields
    by (repeat constructor).
  assert (Forall (λ s, count_char "?" s = 0%nat) ["ASC"; "DESC"]) as Hdirs
    by (repeat constructor).
  rewrite Forall_forall in Hfields, Hdirs.
  rewrite !count_char_app, (Hfields f Hf), (Hdirs dir Hdir). reflexivity.
Qed.

End list_tickets.

Section list_query.

Context (trim toUpperCase : string → string).
Context (parseInt : option string → number).
Context (Number_toString : number → string).

(** The builder, block by block. *)
Lemma list_query_filters (q : list_request) :
  list_query trim toUpperCase parseInt Number_toString q
  = (((list_filters trim q).1 +:+ list_order toUpperCase (q_sort q))
     +:+ " LIMIT " +:+ Number_toString (list_limit parseInt (q_limit q)),
     (list_filters trim q).2).
Proof.
  unfold list_query, list_filters, list_statuses, add_filter.
  generalize (JS.truthy (q_branch_id q)) (JS.truthy (q_status q))
    (JS.truthy (q_service_id q)) (JS.truthy (q_counter_id q))
    (JS.truthy (q_served_by q)) (JS.truthy (q_date q))
    (JS.truthy (q_start_date q)).
  intros [|] [|] [|] [|] [|] [|] [|]; reflexivity.
Qed.

Lemma add_filter_count {P : Type} (b : bool) (clause : string)
    (values : list P) (acc : string * list P) :
  count_char "?" clause = length values →
  count_char "?" acc.1 = length acc.2 →
  count_char "?" (add_filter b clause values acc).1
  = length (add_filter b clause values acc).2.
Proof.
  intros Hc Hacc. unfold add_filter. destruct b; [|done]. cbn [fst snd].
  rewrite count_char_app, length_app. lia.
Qed.

Lemma list_filters_count (q : list_request) :
  count_char "?" (list_filters trim q).1 = length (list_filters trim q).2.
Proof.
  unfold list_filters.
  repeat (apply add_filter_count;
          [first [reflexivity
                 |rewrite !count_char_app, count_placeholders; cbn; lia]|]).
  reflexivity.
Qed.

End list_query.

Lemma placeholders_length {A B : Type} (l1 : list A) (l2 : list B) :
  length l1 = length l2 → placeholders l1 = placeholders l2.
Proof.
  intros Hlen. unfold placeholders. f_equal.
  revert l2 Hlen. induction l1 as [|x l1 IH]; intros [|y l2] Hlen; try done.
  cbn. f_equal. apply IH. by injection Hlen.
Qed.

Lemma add_filter_length {P : Type} (b : bool) (clause : string)
    (values : list P) (acc : string * list P) :
  length (add_filter b clause values acc).2
  = (length acc.2 + if b then length values else 0)%nat.
Proof. unfold add_filter. destruct b; cbn; [apply length_app|lia]. Qed.

Lemma add_filter_text {P : Type} (b : bool) (clause : string)
    (values : list P) (acc : string * list P) :
  (add_filter b clause values acc).1 = if b then acc.1 +:+ clause else acc.1.
Proof. by destruct b. Qed.

(** X16.  The statement GET /tickets sends has one [?] for each
    parameter it binds, whatever the query string: each filter that is
    given adds one placeholder and one value, and a status filter adds
    one of each for every piece between commas, so that its IN list is
    never empty.  (The text of the LIMIT number comes from the
    language.) *)
Theorem list_query_placeholders (trim toUpperCase : string → string)
    (parseInt : option string → number) (Number_toString : number → string)
    (q : list_request) :
  let sql := (list_query trim toUpperCase parseInt Number_toString q).1 in
  let params := (list_query trim toUpperCase parseInt Number_toString q).2 in
  let given (v : option string) : nat := if JS.truthy v then 1%nat else 0%nat in
  let pieces := split_on "," (default "" (q_status q)) in
  count_char "?" sql
  = (length params
     + count_char "?" (Number_toString (list_limit parseInt (q_limit q))))%nat
  ∧ length params
    = (given (q_branch_id q) + given (q_service_id q) + given (q_counter_id q)
       + given (q_served_by q) + given (q_date q) + given (q_start_date q)
       + if JS.truthy (q_status q) then length pieces else 0)%nat
  ∧ (0 < length pieces)%nat.
Proof.
  intros sql params given pieces. subst sql params.
  rewrite list_query_filters. cbn [fst snd].
  split; [|split].
  - rewrite !count_char_app, list_filters_count, list_order_count. cbn. lia.
  - unfold list_filters. rewrite !add_filter_length. cbn [snd length].
    unfold list_statuses. rewrite length_map. fold pieces. subst given.
    cbn beta.
    destruct (JS.truthy (q_branch_id q)), (JS.truthy (q_service_id q)),
      (JS.truthy (q_counter_id q)), (JS.truthy (q_served_by q)),
      (JS.truthy (q_date q)), (JS.truthy (q_start_date q)),
      (JS.truthy (q_status q)); cbn; lia.
  - apply split_on_length.
Qed.

(** X17.  No text of the request reaches the statement of GET /tickets.
    The ORDER BY clause names one of the five listed columns and ASC or
    DESC, whatever [sort] holds; and two requests that give the same
    filters (with as many statuses) and get the same ORDER BY and LIMIT
    send the same text, whatever the values of their filters: the values
    travel as parameters only. *)
Theorem list_query_text (trim toUpperCase : string → string)
    (parseInt : option string → number) (Number_toString : number → string)
    (q1 q2 : list_request) :
  let sql q := (list_query trim toUpperCase parseInt Number_toString q).1 in
  (∃ f dir, f ∈ validFields ∧ dir ∈ ["ASC"; "DESC"]
            ∧ list_order toUpperCase (q_sort q1)
              = " ORDER BY t." +:+ f +:+ " " +:+ dir)
  ∧ (JS.truthy (q_branch_id q1) = JS.truthy (q_branch_id q2) →
     JS.truthy (q_service_id q1) = JS.truthy (q_service_id q2) →
     JS.truthy (q_counter_id q1) = JS.truthy (q_counter_id q2) →
     JS.truthy (q_served_by q1) = JS.truthy (q_served_by q2) →
     JS.truthy (q_date q1) = JS.truthy (q_date q2) →
     JS.truthy (q_start_date q1) = JS.truthy (q_start_date q2) →
     JS.truthy (q_status q1) = JS.truthy (q_status q2) →
     length (split_on "," (default "" (q_status q1)))
     = length (split_on "," (default "" (q_status q2))) →
     list_order toUpperCase (q_sort q1) = list_order toUpperCase (q_sort q2) →
     list_limit parseInt (q_limit q1) = list_limit parseInt (q_limit q2) →
     sql q1 = sql q2).
Proof.
  intros sql. split; [apply list_order_valid|].
  intros H1 H2 H3 H4 H5 H6 H7 Hlen Hord Hlim. subst sql. cbn beta.
  rewrite !list_query_filters. cbn [fst]. rewrite Hord, Hlim. f_equal. f_equal.
  unfold list_filters. rewrite H1, H2, H3, H4, H5, H6, H7.
  rewrite (placeholders_length (list_statuses trim q1) (list_statuses trim q2))
    by (unfold list_statuses; by rewrite !length_map).
  rewrite !add_filter_text. reflexivity.
Qed.

Lemma list_query_text_witness :
  (list_query (λ s, s) (λ s, s) (λ _, NaN) (λ _, "1000")
     (demo_list (Some "waiting,serving")
        (Some "created_at; DROP TABLE tickets"))).1
  = (list_query (λ s, s) (λ s, s) (λ _, NaN) (λ _, "1000")
       (demo_list (Some "x' OR 1=1,y") None)).1.
Proof.
  apply (proj2 (list_query_text (λ s, s) (λ s, s) (λ _, NaN) (λ _, "1000")
                  (demo_list (Some "waiting,serving")
                     (Some "created_at; DROP TABLE tickets"))
                  (demo_list (Some "x' OR 1=1,y") None)));
    reflexivity.
Defined.

(** X18.  GET /tickets never asks for more than 1000 rows: the number
    after LIMIT is 1000 when [limit] is absent, is no number, is 0, or is
    1000 or more, and is the number given when that is between 1 and 999.
    A negative [limit] is not caught: it is passed on as it is. *)
Theorem list_limit_capped (parseInt : option string → number)
    (limit : option string) :
  let n := list_limit parseInt limit in
  (n ≠ NaN ∧ n ≠ Infinity false ∧ ∀ z, n = Int z → (z ≤ 1000)%Z ∧ z ≠ 0%Z)
  ∧ (parseInt limit = NaN ∨ parseInt limit = Int 0
     ∨ parseInt limit = Infinity false
     ∨ (∃ z, parseInt limit = Int z ∧ (1000 ≤ z)%Z) →
     n = Int 1000)
  ∧ (∀ z, parseInt limit = Int z → (z < 1000)%Z → z ≠ 0%Z → n = Int z)
  ∧ (parseInt limit = Infinity true → n = Infinity true).
Proof.
  intros n. subst n. unfold list_limit, number_or, Math_min.
  destruct (parseInt limit) as [|z|[|]] eqn:Hp;
    try destruct (Z.eqb_spec z 0) as [->|Hz];
    repeat match goal with |- _ ∧ _ => split end;
    try done;
    try (intros ? [= <-]; lia);
    try (intros ? [= <-] ? ?; f_equal; lia).
  - intros [Hd|[Hd|[Hd|(z' & Hd & Hle)]]]; try discriminate Hd.
    + injection Hd as ->. done.
    + injection Hd as ->. f_equal. lia.
  - intros [Hd|[Hd|[Hd|(z' & Hd & Hle)]]]; discriminate Hd.
Qed.

(** X19.  [callProcedure] builds CALL name(?,...,?) with one
    placeholder for each parameter, and none for an empty list. *)
Theorem callProcedure_placeholders {A : Type} (procedureName : string)
    (params : list A) :
  count_char "?" (callProcedure_sql procedureName params)
  = (count_char "?" procedureName + length params)%nat
  ∧ callProcedure_sql procedureName (@nil A) = "CALL " +:+ procedureName +:+ "()".
Proof.
  split; [|reflexivity].
  unfold callProcedure_sql. rewrite !count_char_app, count_placeholders.
  cbn. lia.
Qed.

(** X20.  The statement of GET /announcements has one [?] for each
    parameter.  Only the exact text true asks for the active
    announcements, within their dates; any other [is_active], also TRUE, 1
    or the empty text, asks for the inactive ones, with no condition on
    the dates; without [is_active] there is neither condition.  And
    [include_global] changes nothing unless a branch is given. *)
Theorem announcements_query_filters (q : announcements_request) (now : Z) :
  let sql := (announcements_query q now).1 in
  let params := (announcements_query q now).2 in
  count_char "?" sql = length params
  ∧ (a_is_active q = Some "true" →
     ∃ before, params = (before ++ [PNumber 1; PDate now; PDate now])%list
               ∧ filter (λ p, is_date p = true) before = [])
  ∧ (∀ v, a_is_active q = Some v → v ≠ "true" →
     ∃ before, params = (before ++ [PNumber 0])%list
               ∧ filter (λ p, is_date p = true) params = [])
  ∧ (a_is_active q = None → ∀ p, p ∈ params → ∃ s, p = PString s)
  ∧ (JS.truthy (a_branch_id q) = false →
     ∀ g, announcements_query
            {| a_branch_id := a_branch_id q; a_is_active := a_is_active q;
               a_include_global := g |} now
          = announcements_query q now).
Proof.
  intros sql params. subst sql params. unfold announcements_query.
  destruct q as [b a g]. cbn [a_branch_id a_is_active a_include_global].
  assert (count_char "?" announcements_select = 0%nat) as Hsel by reflexivity.
  revert Hsel. generalize announcements_select. intros sel Hsel.
  split; [|split; [|split; [|split]]].
  - destruct (JS.truthy b), (bool_decide (g = Some "true")), a as [v|];
      try destruct (String.eqb_spec v "true") as [->|Hv];
      try (rewrite bool_decide_eq_true_2 by done);
      try (rewrite bool_decide_eq_false_2 by congruence);
      cbn [fst snd]; rewrite ?count_char_app, Hsel; cbn; lia.
  - intros ->.
    rewrite (bool_decide_eq_true_2 (Some "true" = Some "true")) by done.
    cbn [String.eqb].
    destruct (JS.truthy b), (bool_decide (g = Some "true")); cbn [fst snd];
      first [by exists []|by eexists [_]].
  - intros v -> Hv.
    rewrite (bool_decide_eq_false_2 (Some v = Some "true")) by congruence.
    destruct (String.eqb_spec v "true") as [->|_]; [done|].
    destruct (JS.truthy b), (bool_decide (g = Some "true")); cbn [fst snd];
      first [by exists []|by eexists [_]].
  - intros ->.
    rewrite (bool_decide_eq_false_2 (None = Some "true")) by done.
    destruct (JS.truthy b), (bool_decide (g = Some "true")); cbn [fst snd];
      intros p Hp;
      repeat (apply elem_of_cons in Hp as [->|Hp]; [by eexists|]);
      by apply elem_of_nil in Hp.
  - intros Hb g'. by rewrite Hb.
Qed.

Lemma announcements_query_filters_witness :
  ∃ before,
    (announcements_query
       {| a_branch_id := Some "B1"; a_is_active := Some "TRUE";
          a_include_global := None |} 50).2
    = (before ++ [PNumber 0])%list
    ∧ filter (λ p, is_date p = true)
        (announcements_query
           {| a_branch_id := Some "B1"; a_is_active := Some "TRUE";
              a_include_global := None |} 50).2 = [].
Proof.
  apply (proj1 (proj2 (proj2 (announcements_query_filters
                                {| a_branch_id := Some "B1";
                                   a_is_active := Some "TRUE";
                                   a_include_global := None |} 50)))
           "TRUE" eq_refl).
  discriminate.
Defined.

(** ** What a reader sees while tickets are being created *)

Lemma filter_omap_length {A B C : Type} (P : A → Prop) `{∀ a, Decision (P a)}
    (f : B → option C) (l : list A) (l' : list B) :
  length l' = length l →
  (∀ i a b, l !! i = Some a → l' !! i = Some b → (P a ↔ is_Some (f b))) →
  length (filter P l) = length (omap f l').
Proof.
  revert l'. induction l as [|a l IH]; intros [|b l'] Hlen Hiff; try done.
  injection Hlen as Hlen.
  specialize (IH l' Hlen (λ i, Hiff (S i))).
  pose proof (Hiff 0%nat a b eq_refl eq_refl) as H0.
  rewrite filter_cons. cbn [omap list_omap].
  destruct (decide (P a)) as [HP|HP].
  - destruct (proj1 H0 HP) as [c ->]. cbn. by rewrite IH.
  - destruct (f b) as [c|] eqn:Hf; [|done].
    destruct HP. apply H0. eauto.
Qed.

(** X21.  Tickets become visible whole.  While any number of creations
    for one key, of an existing service and branch, run at the same
    time, at every moment of every interleaving each of their tickets
    is either not in the committed table or there complete, with the
    number it keeps, and so a reader that gets a connection of the pool
    finds it (404, or 200 with the whole ticket), while a reader that
    gets none waits; the stored sequence value is the first value plus
    the number of their tickets that are there: it is never ahead of the
    tickets, nor behind; and no other row of the ticket table has
    changed. *)
Theorem creations_are_seen_whole (today sid bid : string)
    (jobs : list (create_request * string * Z)) (d : db) (evs : list event)
    (s : system) :
  sid ≠ "" → bid ≠ "" →
  is_Some (services d !! sid) → is_Some (branches d !! bid) →
  Forall (λ job, req_service_id job.1.1 = Some sid
                 ∧ req_branch_id job.1.1 = Some bid) jobs →
  NoDup (jobs.*1.*2) →
  Forall (λ id, tickets d !! id = None) (jobs.*1.*2) →
  rtc step (boot d evs (creations today jobs)) s →
  let k := (sid, bid, today) in
  let w := shared s in
  (∀ job, job ∈ jobs →
     (tickets (store w) !! job.1.2 = None
      ∨ ∃ n, (current d k ≤ n < current (store w) k)%nat
             ∧ tickets (store w) !! job.1.2 = Some (row_of d job.1.1 n job.2))
     ∧ ∀ t c,
         (free w = 0%nat → run t (get_ticket job.1.2) c [] w = Waiting)
         ∧ (free w ≠ 0%nat →
            ∃ r, run t (get_ticket job.1.2) c [] w = Finished (Some r) c w
                 ∧ (r = {| http := 404; json := Error "Ticket not found" |}
                    ∨ ∃ n, (current d k ≤ n < current (store w) k)%nat
                           ∧ r = {| http := 200;
                                    json := Ticket (Some (join d job.1.2
                                              (row_of d job.1.1 n job.2))) |})))
  ∧ current (store w) k
    = (current d k
       + length (filter (λ job, is_Some (tickets (store w) !! job.1.2)) jobs))%nat
  ∧ (∀ id, id ∉ jobs.*1.*2 → tickets (store w) !! id = tickets d !! id).
Proof.
  intros Hsid Hbid Hsv Hbr Hreq Hnd Hfresh Hrun k w.
  assert (Forall (λ job, JS.truthy (req_service_id job.1.1) = true
                         ∧ JS.truthy (req_branch_id job.1.1) = true
                         ∧ key_of job.1.1 today = k) jobs) as Hvalid.
  { eapply Forall_impl; [exact Hreq|]. intros job [Hs Hb]. cbn beta in *.
    unfold key_of. rewrite Hs, Hb. cbn.
    split; [by destruct (String.eqb_spec sid "")|].
    split; [by destruct (String.eqb_spec bid "")|done]. }
  destruct (alloc_reachable d today k evs jobs Hvalid Hnd Hfresh Hsv Hbr s Hrun)
    as (phs & m & Hth & Hinv & _).
  fold w in Hinv.
  pose proof (alloc_length _ _ _ _ _ _ Hinv) as Hlen.
  (* the row of each job: there with its number exactly when its thread
     has committed *)
  assert (∀ i job ph, jobs !! i = Some job → phs !! i = Some ph →
            match done_with ph with
            | Some n => tickets (store w) !! job.1.2
                        = Some (row_of d job.1.1 n job.2)
                        ∧ (current d k ≤ n < current (store w) k)%nat
            | None => tickets (store w) !! job.1.2 = None
            end) as Hrows.
  { intros i job ph Hjob Hph. destruct (done_with ph) as [n|] eqn:Hd.
    - split; [by apply (alloc_row _ _ _ _ _ _ Hinv i job ph n)|].
      assert (n ∈ omap done_with phs) as Hin.
      { apply list_elem_of_omap. exists ph. split; [|done].
        by apply list_elem_of_lookup_2 in Hph. }
      rewrite (alloc_done _ _ _ _ _ _ Hinv) in Hin.
      apply elem_of_seq in Hin. rewrite (alloc_current _ _ _ _ _ _ Hinv). lia.
    - rewrite (alloc_rows _ _ _ _ _ _ Hinv).
      + by apply (job_fresh d today k jobs phs w i job Hinv Hjob).
      + intros j job' ph' n Hjob' Hph' Hd' Hid.
        assert (j = i) as ->
          by (by apply (job_unique d today k jobs phs w i job Hinv Hjob j job')).
        congruence. }
  split; [|split].
  - intros job Hin.
    apply list_elem_of_lookup in Hin as [i Hjob].
    destruct (lookup_lt_is_Some_2 phs i) as [ph Hph].
    { rewrite Hlen. by eapply lookup_lt_Some. }
    specialize (Hrows i job ph Hjob Hph). split.
    { destruct (done_with ph) as [n|]; [right|by left].
      destruct Hrows as [Hrow Hn]. by exists n. }
    intros t c. split.
    { intros Hfree. by rewrite get_ticket_waits. }
    intros Hfree.
    destruct (get_ticket_outcomes t job.1.2 c [] w Hfree)
      as (r & Hget & [->|[_ [[=]|[=]]]]).
    eexists. split; [exact Hget|].
    destruct (done_with ph) as [n|].
    + destruct Hrows as [-> Hn]. right. exists n. split; [done|].
      f_equal. f_equal. f_equal. apply join_tables; apply Hinv.
    + rewrite Hrows. by left.
  - rewrite (alloc_current _ _ _ _ _ _ Hinv). f_equal. symmetry.
    apply filter_omap_length; [done|].
    intros i job ph Hjob Hph. specialize (Hrows i job ph Hjob Hph).
    destruct (done_with ph) as [n|].
    + destruct Hrows as [-> _]. split; eauto.
    + rewrite Hrows. split; intros [? [=]].
  - intros id Hid. apply (alloc_rows _ _ _ _ _ _ Hinv).
    intros j job' ph' n Hjob' _ _ <-. apply Hid.
    apply list_elem_of_lookup. exists j. by rewrite !list_lookup_fmap, Hjob'.
Qed.

Lemma creations_are_seen_whole_witness :
  ∃ s, rtc step (boot demo_db [] (creations "2024-01-01" demo_jobs)) s
       ∧ current (store (shared s)) ("svcA", "B1", "2024-01-01")
         = (current demo_db ("svcA", "B1", "2024-01-01")
            + length (filter (λ job, is_Some (tickets (store (shared s)) !! job.1.2))
                        demo_jobs))%nat
       ∧ current (store (shared s)) ("svcA", "B1", "2024-01-01") = 1%nat
       ∧ is_Some (tickets (store (shared s)) !! "id3")
       ∧ tickets (store (shared s)) !! "id1" = None.
Proof.
  exists (schedule [2; 2; 2; 2; 2; 2; 2; 2; 0; 1]%nat
            (boot demo_db [] (creations "2024-01-01" demo_jobs))).
  split; [apply schedule_steps|].
  split.
  - refine (proj1 (proj2 (creations_are_seen_whole "2024-01-01" "svcA" "B1"
              demo_jobs demo_db [] _ _ _ _ _ _ _ _ (schedule_steps _ _)))).
    + discriminate.
    + discriminate.
    + apply (bool_decide_unpack _). vm_compute. exact I.
    + apply (bool_decide_unpack _). vm_compute. exact I.
    + repeat constructor.
    + apply (bool_decide_unpack _). vm_compute. exact I.
    + repeat constructor.
  - split; [vm_compute; reflexivity|].
    split; [|vm_compute; reflexivity].
    apply (bool_decide_unpack _). vm_compute. exact I.
Defined.

(** X22.  The pool can run dry.  A creation holds its connection while
    it asks the pool for a second one to read its ticket back.  When as
    many creations as the pool has connections, or more, are served at
    the same time, for one key of an existing service and branch, there
    is a run after which every connection is held by a creation that
    has committed and waits for another connection.  Then no thread can
    take a step any more and no request has been answered, although as
    many tickets as there are connections are committed and the stored
    sequence value has moved by as many. *)
Theorem creations_exhaust_the_pool (today sid bid : string)
    (jobs : list (create_request * string * Z)) (d : db) (evs : list event) :
  sid ≠ "" → bid ≠ "" →
  is_Some (services d !! sid) → is_Some (branches d !! bid) →
  Forall (λ job, req_service_id job.1.1 = Some sid
                 ∧ req_branch_id job.1.1 = Some bid) jobs →
  NoDup (jobs.*1.*2) →
  Forall (λ id, tickets d !! id = None) (jobs.*1.*2) →
  (connectionLimit ≤ length jobs)%nat →
  let k := (sid, bid, today) in
  ∃ s, rtc step (boot d evs (creations today jobs)) s
       ∧ (∀ s', ¬ step s s')
       ∧ Forall (λ th, ¬ ended th ∧ answer th = None) (threads s)
       ∧ free (shared s) = 0%nat
       ∧ current (store (shared s)) k = (current d k + connectionLimit)%nat
       ∧ length (omap (λ job, tickets (store (shared s)) !! job.1.2) jobs)
         = connectionLimit.
Proof.
  intros Hsid Hbid Hsv Hbr Hreq Hnd Hfresh Hmany k.
  assert (Forall (λ job, JS.truthy (req_service_id job.1.1) = true
                         ∧ JS.truthy (req_branch_id job.1.1) = true
                         ∧ key_of job.1.1 today = k) jobs) as Hvalid.
  { eapply Forall_impl; [exact Hreq|]. intros job [Hs Hb]. cbn beta in *.
    unfold key_of. rewrite Hs, Hb. cbn.
    split; [by destruct (String.eqb_spec sid "")|].
    split; [by destruct (String.eqb_spec bid "")|done]. }
  pose proof (alloc_boot_coherent d today k evs jobs Hvalid Hnd Hfresh Hsv Hbr)
    as Hboot.
  destruct (alloc_rushes d today k jobs _ _ Hboot connectionLimit)
    as (s & ns & m & Hrun & Hns & Hco); [done|done|].
  destruct (alloc_stuck d today k jobs s ns _ m Hns Hco)
    as (Hstuck & Hnone & Hfree & Hcur).
  exists s. split; [done|]. split; [done|]. split; [done|]. split; [done|].
  split; [done|].
  pose proof (alloc_stored d today k jobs s _ m Hco) as Hstored.
  cbn zeta in Hstored. apply Permutation_length in Hstored.
  rewrite !length_fmap, length_seq, Hcur in Hstored. lia.
Qed.

Lemma creations_exhaust_the_pool_witness :
  ∃ s, rtc step (boot demo_db [] (creations "2024-01-01" demo_crowd)) s
       ∧ (∀ s', ¬ step s s')
       ∧ free (shared s) = 0%nat
       ∧ length (omap (λ job, tickets (store (shared s)) !! job.1.2) demo_crowd)
         = connectionLimit.
Proof.
  destruct (creations_exhaust_the_pool "2024-01-01" "svcA" "B1" demo_crowd
              demo_db []) as (s & Hrun & Hstuck & _ & Hfree & _ & Hlen).
  - discriminate.
  - discriminate.
  - apply (bool_decide_unpack _). vm_compute. exact I.
  - apply (bool_decide_unpack _). vm_compute. exact I.
  - apply (bool_decide_unpack _). vm_compute. exact I.
  - apply (bool_decide_unpack _). vm_compute. exact I.
  - apply (bool_decide_unpack _). vm_compute. exact I.
  - apply (bool_decide_unpack _). vm_compute. exact I.
  - exists s. split; [exact Hrun|]. split; [exact Hstuck|].
    split; [exact Hfree|exact Hlen].
Defined.
